(** * A worker-pool web crawler: scheduler, deduplicating sets, orchestrator

    Shallow embedding of the Go packages [scheduler] and [crawler]
    (files [scheduler.go], [worker.go], [hash_set.go], [crawler.go]) and
    the properties their design document states about them.

    Conventions.
    - A Go function that may panic or exit returns an [outcome].
    - A method with a pointer receiver takes the receiver's value and
      returns the updated value.
    - [sync.Mutex] / [sync.RWMutex] critical sections that cover a whole
      method body make the method one atomic transition; where a method
      touches shared state without a lock its loads and stores are
      separate transitions. *)

From stdpp Require Import gmap strings list fin_maps.
From Stdlib Require Import ZArith Lia.

Set Warnings "-clear-no-such-hyp".
Set Default Proof Using "Type".

(** ** Outcomes of Go code *)

Module Go.

Inductive outcome (A : Type) : Type :=
| Ok (a : A)
| Panic (msg : string)
| Exit (code : Z).

Arguments Ok {A} a.
Arguments Panic {A} msg.
Arguments Exit {A} code.

#[export] Instance outcome_ret : MRet outcome := fun A a => Ok a.

#[export] Instance outcome_bind : MBind outcome := fun A B f m =>
  match m with
  | Ok a => f a
  | Panic msg => Panic msg
  | Exit code => Exit code
  end.

Definition is_ok {A} (r : outcome A) : bool :=
  match r with Ok _ => true | _ => false end.

(** *** [map[string]bool]

    A map value is a reference that may be nil.  Reading, [len] and
    [range] accept nil; assigning to an entry of a nil map panics. *)

Definition gomap : Type := option (gmap string bool).

Definition make_map : gomap := Some ∅.

Definition is_nil (m : gomap) : bool :=
  match m with None => true | Some _ => false end.

(** [v, ok := m[k]] *)
Definition map_index (m : gomap) (k : string) : bool * bool :=
  match m with
  | None => (false, false)
  | Some d =>
      match d !! k with
      | Some v => (v, true)
      | None => (false, false)
      end
  end.

(** [m[k] = v] *)
Definition map_assign (m : gomap) (k : string) (v : bool) : outcome gomap :=
  match m with
  | None => Panic "assignment to entry in nil map"
  | Some d => Ok (Some (<[k := v]> d))
  end.

(** [len(m)] *)
Definition map_len (m : gomap) : nat :=
  match m with
  | None => 0
  | Some d => size d
  end.

(** The keys [for k := range m] visits.  Go leaves the order
    unspecified; this is one such order. *)
Definition map_range (m : gomap) : list string :=
  match m with
  | None => []
  | Some d => (map_to_list d).*1
  end.

(** [slices.Contains] *)
Definition slices_Contains (l : list string) (x : string) : bool :=
  bool_decide (x ∈ l).

(** [make(chan T, n)] allocates a channel with a buffer of [n] slots;
    a negative size panics. *)
Definition make_chan (n : Z) : outcome Z :=
  if (n <? 0)%Z then Panic "makechan: size out of range" else Ok n.

End Go.

Import Go.

(** ** hash_set.go *)

(** [hashSet] without its [lock]: every method holds the lock from its
    first statement to its return, so a call is one atomic step. *)
Record hashSet : Type := HashSet { data : gomap }.

(** The zero value [hashSet{}]: [data] is nil. *)
Definition zero_hashSet : hashSet := {| data := None |}.

Definition lazy_init (s : hashSet) : hashSet :=
  if is_nil (data s) then {| data := make_map |} else s.

(** The body of [if !ok { s.data[t] = true }] after [_, ok := s.data[t]]. *)
Definition add_entry (s : hashSet) (t : string) : outcome hashSet :=
  let '(_, ok) := map_index (data s) t in
  if negb ok
  then d ← map_assign (data s) t true; mret {| data := d |}
  else mret s.

Definition add (s : hashSet) (t : string) : outcome hashSet :=
  add_entry (lazy_init s) t.

Fixpoint add_each (s : hashSet) (a : list string) : outcome hashSet :=
  match a with
  | [] => mret s
  | t :: a' => s' ← add_entry s t; add_each s' a'
  end.

Definition addSlice (s : hashSet) (a : list string) : outcome hashSet :=
  add_each (lazy_init s) a.

Definition has (s : hashSet) (element : string) : bool :=
  (map_index (data s) element).2.

Definition slice (s : hashSet) : list string :=
  map_range (data s).

Definition size (s : hashSet) : nat :=
  map_len (data s).

(** The table behind a set, empty for the zero value. *)
Definition table (s : hashSet) : gmap string bool :=
  default ∅ (data s).

(** What [add] leaves in the table. *)
Definition insert_absent (d : gmap string bool) (t : string)
  : gmap string bool :=
  match d !! t with
  | Some _ => d
  | None => <[t := true]> d
  end.

(** The elements of a set, as a mathematical set. *)
Definition elems (s : hashSet) : gset string :=
  match data s with
  | None => ∅
  | Some d => dom d
  end.

(** A sequence of calls on one set. *)
Inductive set_call : Type :=
| CallAdd (t : string)
| CallAddSlice (a : list string).

Definition run_call (s : hashSet) (c : set_call) : outcome hashSet :=
  match c with
  | CallAdd t => add s t
  | CallAddSlice a => addSlice s a
  end.

Fixpoint run_calls (s : hashSet) (cs : list set_call) : outcome hashSet :=
  match cs with
  | [] => mret s
  | c :: cs' => s' ← run_call s c; run_calls s' cs'
  end.

Definition passes (c : set_call) (x : string) : Prop :=
  match c with
  | CallAdd t => t = x
  | CallAddSlice a => x ∈ a
  end.

(** ** scheduler.go and worker.go *)

Record SchedulerOptions : Type := {
  MaxWorkers : Z;
  Interactive : bool
}.

Section Scheduler.

(** [T] is the task type, [H] the type of handler values ([func(T)]). *)
Context {T H : Type}.

(** [w_handler] is the field [handler]; the channels [cha] are the
    scheduler's. *)
Record worker : Type := {
  id : Z;
  w_handler : H;
  reportState : bool
}.

(** Channels are kept by their buffer capacity.  [sched_handler] and
    [sched_opts] are the fields [handler] and [opts]; a nil handler is
    [None]. *)
Record Scheduler : Type := {
  WorkerState : Z;
  workers : list worker;
  workerPool : Z;
  quit : bool;
  sched_handler : option H;
  inputQueue : list T;
  sched_opts : SchedulerOptions
}.

Definition newWorker (i : Z) (h : H) (report : bool) : worker :=
  {| id := i; w_handler := h; reportState := report |}.

Definition NewScheduler (o : SchedulerOptions) : outcome Scheduler :=
  ws ← make_chan (MaxWorkers o);
  wp ← make_chan (MaxWorkers o);
  mret {| WorkerState := ws; workers := []; workerPool := wp; quit := false;
          sched_handler := None; inputQueue := []; sched_opts := o |}.

(** [for i := 0; i < s.opts.MaxWorkers; i++ { s.workers = append(...) }] *)
Definition WithHandler (s : Scheduler) (h : H) : Scheduler :=
  {| WorkerState := WorkerState s;
     workers := workers s ++
       ((λ i, newWorker i h (Interactive (sched_opts s)))
          <$> seqZ 0 (MaxWorkers (sched_opts s)));
     workerPool := workerPool s; quit := quit s;
     sched_handler := Some h; inputQueue := inputQueue s;
     sched_opts := sched_opts s |}.

Definition set_queue (s : Scheduler) (q : list T) : Scheduler :=
  {| WorkerState := WorkerState s; workers := workers s;
     workerPool := workerPool s; quit := quit s;
     sched_handler := sched_handler s; inputQueue := q;
     sched_opts := sched_opts s |}.

Definition enqueue (s : Scheduler) (t : T) : Scheduler :=
  set_queue s (inputQueue s ++ [t]).

Fixpoint Dispatch (s : Scheduler) (tasks : list T) : Scheduler :=
  match tasks with
  | [] => s
  | t :: tasks' => Dispatch (enqueue s t) tasks'
  end.

Definition dequeue (s : Scheduler) : outcome (T * Scheduler) :=
  match inputQueue s with
  | [] => Panic "index out of range [0] with length 0"
  | t :: q => mret (t, set_queue s q)
  end.

(** The goroutines [Start] launches. *)
Inductive goroutine : Type :=
| GoWorker (w : worker)
| GoRun.

Definition Start (s : Scheduler) : outcome (list goroutine) :=
  match sched_handler s with
  | None => Panic "scheduler missing handler"
  | Some _ => mret ((GoWorker <$> workers s) ++ [GoRun])
  end.

Definition Stop (s : Scheduler) : Scheduler :=
  {| WorkerState := WorkerState s; workers := workers s;
     workerPool := workerPool s; quit := true;
     sched_handler := sched_handler s; inputQueue := inputQueue s;
     sched_opts := sched_opts s |}.

(** One pass of the loop in [run], given the number of workers waiting
    in [workerPool]: the task it hands over, if any. *)
Inductive run_pass : Type :=
| RunReturn
| RunSpin
| RunHandOff (t : T) (s' : Scheduler)
| RunBlocked (t : T) (s' : Scheduler).

Definition run_once (s : Scheduler) (idle : nat) : outcome run_pass :=
  if quit s then mret RunReturn
  else if bool_decide (length (inputQueue s) ≤ 0) then mret RunSpin
  else
    '(t, s') ← dequeue s;
    mret (if bool_decide (0 < idle) then RunHandOff t s' else RunBlocked t s').

(** *** The input queue under concurrent callers

    [dequeue] holds [inputQueueLock] from its first statement to its
    return, which keeps out other holders of the lock only; [enqueue]
    takes no lock.  The read of [s.inputQueue] and the write of the new
    slice are two transitions that other goroutines can come between. *)

Inductive qthread : Type :=
| DispatchLoop (tasks : list T)            (* [for _, t := range tasks] *)
| EnqueueStore (old : list T) (t : T) (tasks : list T)
                                           (* holds the slice it read *)
| DequeueLock                              (* [s.inputQueueLock.Lock()] *)
| DequeueBody                              (* lock held; reads the slice *)
| DequeueStore (t : T) (tail : list T)     (* writes [s.inputQueue[1:]] *)
| Finished (popped : option T).

Record qstate : Type := {
  q_queue : list T;
  q_locked : bool
}.

(** One transition of a goroutine; [None] when it cannot move. *)
Definition qthread_step (st : qstate) (th : qthread)
  : option (outcome (qstate * qthread)) :=
  match th with
  | DispatchLoop [] => Some (mret (st, Finished None))
  | DispatchLoop (t :: tasks) =>
      Some (mret (st, EnqueueStore (q_queue st) t tasks))
  | EnqueueStore old t tasks =>
      Some (mret ({| q_queue := old ++ [t]; q_locked := q_locked st |},
                  DispatchLoop tasks))
  | DequeueLock =>
      if q_locked st then None
      else Some (mret ({| q_queue := q_queue st; q_locked := true |},
                       DequeueBody))
  | DequeueBody =>
      match q_queue st with
      | [] => Some (Panic "index out of range [0] with length 0")
      | t :: q => Some (mret (st, DequeueStore t q))
      end
  | DequeueStore t q =>
      Some (mret ({| q_queue := q; q_locked := false |}, Finished (Some t)))
  | Finished _ => None
  end.

(** Run the goroutines under a schedule: the index of the goroutine
    that moves next. *)
Fixpoint qrun (st : qstate) (ths : list qthread) (schedule : list nat)
  : outcome (qstate * list qthread) :=
  match schedule with
  | [] => mret (st, ths)
  | i :: schedule' =>
      match ths !! i with
      | None => mret (st, ths)
      | Some th =>
          match qthread_step st th with
          | None => qrun st ths schedule'
          | Some r =>
              '(st', th') ← r;
              qrun st' (<[i := th']> ths) schedule'
          end
      end
  end.

Definition all_finished (ths : list qthread) : bool :=
  forallb (λ th, match th with Finished _ => true | _ => false end) ths.

End Scheduler.

Arguments worker : clear implicits.
Arguments Scheduler : clear implicits.
Arguments goroutine : clear implicits.
Arguments run_pass : clear implicits.
Arguments qthread : clear implicits.
Arguments qstate : clear implicits.

(** ** crawler.go *)

(** [parser.ParserOutput] *)
Record ParserOutput : Type := {
  Links : list string;
  Status : string;
  StatusCode : Z
}.

(** [ResStatus] and [ResLinks] are the fields [Status] and [Links]. *)
Record crawlerResult : Type := {
  URL : string;
  ResStatus : Z;
  Error : string;
  Count : nat;
  ResLinks : list string
}.

(** The options the scheduler and [run] read; [CrMaxWorkers] and
    [CrInteractive] are the fields [MaxWorkers] and [Interactive]. *)
Record CrawlerOptions : Type := {
  OutputFile : string;
  CrMaxWorkers : Z;
  CrInteractive : bool
}.

(** The method value [c.handler] bound by [NewCrawler]. *)
Inductive handler_ref : Type := crawler_handler.

(** Signals registered with [signal.Notify]. *)
Inductive signal : Type := SIGINT | SIGQUIT | SIGTERM.

Definition signal_number (sig : signal) : Z :=
  match sig with SIGINT => 2 | SIGQUIT => 3 | SIGTERM => 15 end.

(** [quit_chan] is the field [quit], [make(chan os.Signal, 1)]: at most
    one pending signal.  The parser is the section variable
    [ParseLinks] below. *)
Record Crawler : Type := {
  scheduler : Scheduler string handler_ref;
  cache : hashSet;
  visited : hashSet;
  opts : CrawlerOptions;
  result : list crawlerResult;
  quit_chan : option signal
}.

Definition set_scheduler (c : Crawler) (s : Scheduler string handler_ref) :=
  {| scheduler := s; cache := cache c; visited := visited c; opts := opts c;
     result := result c; quit_chan := quit_chan c |}.

Definition set_cache (c : Crawler) (h : hashSet) :=
  {| scheduler := scheduler c; cache := h; visited := visited c;
     opts := opts c; result := result c; quit_chan := quit_chan c |}.

Definition set_visited (c : Crawler) (h : hashSet) :=
  {| scheduler := scheduler c; cache := cache c; visited := h;
     opts := opts c; result := result c; quit_chan := quit_chan c |}.

Definition set_result (c : Crawler) (r : list crawlerResult) :=
  {| scheduler := scheduler c; cache := cache c; visited := visited c;
     opts := opts c; result := r; quit_chan := quit_chan c |}.

Definition NewCrawler (o : CrawlerOptions) : outcome Crawler :=
  s ← NewScheduler {| MaxWorkers := CrMaxWorkers o;
                      Interactive := CrInteractive o |};
  mret {| scheduler := WithHandler s crawler_handler;
          cache := zero_hashSet; visited := zero_hashSet; opts := o;
          result := []; quit_chan := None |}.

(** The record [handler] appends for a fetched page. *)
Definition new_result (input : string) (output : ParserOutput)
  : crawlerResult :=
  {| URL := input; ResLinks := Links output; Count := length (Links output);
     ResStatus := StatusCode output; Error := "" |}.

(** The loop that builds [nonVisitedLinks] from the snapshot [visited]. *)
Fixpoint nonVisited (visited : list string) (links : list string)
  : list string :=
  match links with
  | [] => []
  | link :: links' =>
      if slices_Contains visited link
      then nonVisited visited links'
      else link :: nonVisited visited links'
  end.

Section Crawl.

(** The collaborators from package [parser]: [ParseLinks] performs the
    HTTP request, [SanitiseUrl] normalises the seed.  An error is [Some]. *)
Variable ParseLinks : string → ParserOutput * option string.
Variable SanitiseUrl : string → string * option string.

Definition handler (c : Crawler) (input : string) : outcome Crawler :=
  if has (visited c) input then mret c
  else
    let '(output, err) := ParseLinks input in
    v ← add (visited c) input;
    let c := set_visited c v in
    match err with
    | Some _ => mret c
    | None =>
        let c := set_result c (result c ++ [new_result input output]) in
        let visited := slice (visited c) in
        let nonVisitedLinks := nonVisited visited (Links output) in
        ch ← addSlice (cache c) nonVisitedLinks;
        let c := set_cache c ch in
        mret (set_scheduler c (Dispatch (scheduler c) (Links output)))
    end.

(** [Crawl] up to its call of [c.run()]. *)
Definition Crawl (c : Crawler) (url : string) : outcome Crawler :=
  _ ← Start (scheduler c);
  let '(input, err) := SanitiseUrl url in
  match err with
  | Some _ => Exit 1
  | None =>
      ch ← add (cache c) input;
      let c := set_cache c ch in
      mret (set_scheduler c (Dispatch (scheduler c) [input]))
  end.

(** The test the ticker case of [run] makes, [visitedSize >= cacheSize]. *)
Definition quiescent_sizes (visitedSize cacheSize : nat) : bool :=
  bool_decide (cacheSize ≤ visitedSize).

Definition quiescent (c : Crawler) : bool :=
  quiescent_sizes (size (visited c)) (size (cache c)).

(** *** Handlers running on workers

    A handler invocation touches the shared crawler state at the lines
    of crawler.go named below; each such access is one transition, and
    any other goroutine can move between two of them.  The fetch of
    line 243 touches no shared state and goes with the [add] after it. *)
Inductive hthread : Type :=
| HGuard (input : string)                        (* 239 *)
| HFetch (input : string)                        (* 243-244 *)
| HAppend (input : string) (output : ParserOutput)   (* 259 *)
| HSnapshot (output : ParserOutput)              (* 266-274 *)
| HAddCache (output : ParserOutput) (nonVisitedLinks : list string) (* 276 *)
| HDispatch (tasks : list string).               (* 287, one [enqueue] each *)

Definition dispatching (tasks : list string) : option hthread :=
  match tasks with
  | [] => None
  | _ => Some (HDispatch tasks)
  end.

(** One transition of an invocation: the new crawler state and what is
    left of the invocation ([None] once it has returned). *)
Definition hthread_step (c : Crawler) (th : hthread)
  : outcome (Crawler * option hthread) :=
  match th with
  | HGuard input =>
      mret (c, if has (visited c) input then None else Some (HFetch input))
  | HFetch input =>
      let '(output, err) := ParseLinks input in
      v ← add (visited c) input;
      mret (set_visited c v,
            match err with
            | Some _ => None
            | None => Some (HAppend input output)
            end)
  | HAppend input output =>
      mret (set_result c (result c ++ [new_result input output]),
            Some (HSnapshot output))
  | HSnapshot output =>
      mret (c, Some (HAddCache output
                       (nonVisited (slice (visited c)) (Links output))))
  | HAddCache output nonVisitedLinks =>
      ch ← addSlice (cache c) nonVisitedLinks;
      mret (set_cache c ch, dispatching (Links output))
  | HDispatch [] => mret (c, None)
  | HDispatch (t :: tasks) =>
      mret (set_scheduler c (enqueue (scheduler c) t), dispatching tasks)
  end.

(** The crawler together with the handler invocations in progress. *)
Record cstate : Type := {
  crawler : Crawler;
  running : list hthread
}.

Definition put_thread (run1 : list hthread) (th : option hthread)
  (run2 : list hthread) : list hthread :=
  run1 ++ option_list th ++ run2.

Inductive cstep : cstate → cstate → Prop :=
| step_assign c t s' run :
    (* the dispatch loop pops the head and an idle worker takes it *)
    dequeue (scheduler c) = Ok (t, s') →
    (Z.of_nat (length run) < MaxWorkers (sched_opts (scheduler c)))%Z →
    cstep {| crawler := c; running := run |}
          {| crawler := set_scheduler c s'; running := run ++ [HGuard t] |}
| step_handler c run1 th run2 c' th' :
    hthread_step c th = Ok (c', th') →
    cstep {| crawler := c; running := run1 ++ th :: run2 |}
          {| crawler := c'; running := put_thread run1 th' run2 |}.

(** States a crawl of [url] passes through. *)
Definition crawl_start (o : CrawlerOptions) (url : string) : outcome cstate :=
  c ← NewCrawler o;
  c ← Crawl c url;
  mret {| crawler := c; running := [] |}.

Definition reachable (o : CrawlerOptions) (url : string) (st : cstate) : Prop :=
  ∃ st0, crawl_start o url = Ok st0 ∧ rtc cstep st0 st.

(** No task is queued and no handler is running. *)
Definition idle (st : cstate) : Prop :=
  inputQueue (scheduler (crawler st)) = [] ∧ running st = [].

End Crawl.

(** *** What holds of every state of a crawl

    [discovered_ok]: whatever a handler invocation still has to visit
    or dispatch is in the discovered set.  [outstanding]: the tasks an
    invocation is still answerable for. *)
Definition discovered_ok (disc : gset string) (th : hthread) : Prop :=
  match th with
  | HGuard input | HFetch input => input ∈ disc
  | HAppend _ _ | HSnapshot _ => True
  | HAddCache output nonVisitedLinks =>
      (∀ l, l ∈ nonVisitedLinks → l ∈ Links output)
      ∧ (∀ l, l ∈ Links output → l ∈ nonVisitedLinks ∨ l ∈ disc)
  | HDispatch tasks => ∀ l, l ∈ tasks → l ∈ disc
  end.

Definition outstanding (th : hthread) (t : string) : Prop :=
  match th with
  | HGuard input | HFetch input => t = input
  | HDispatch tasks => t ∈ tasks
  | _ => False
  end.

Record crawl_inv (st : cstate) : Prop := {
  inv_completed :
    elems (visited (crawler st)) ⊆ elems (cache (crawler st));
  inv_queue :
    ∀ t, t ∈ inputQueue (scheduler (crawler st)) →
         t ∈ elems (cache (crawler st));
  inv_running :
    ∀ th, th ∈ running st → discovered_ok (elems (cache (crawler st))) th;
  inv_frontier :
    ∀ t, t ∈ elems (cache (crawler st)) →
         t ∈ elems (visited (crawler st))
         ∨ t ∈ inputQueue (scheduler (crawler st))
         ∨ ∃ th, th ∈ running st ∧ outstanding th t
}.

(** *** The loop of [run]

    Each pass of the [select] takes one ready case.  The sizes a tick
    reads and the messages workers send come from other goroutines, so
    they are carried by the event; [Deliver] is the runtime handing a
    registered signal to [c.quit], which it drops when the buffer is
    full. *)
Inductive run_event : Type :=
| Tick (visitedSize cacheSize : nat)         (* [case <-c.ticker.C] *)
| WorkerStateMsg (worker_id : Z) (task : string)
                              (* [case rs := <-c.scheduler.WorkerState] *)
| QuitRecv                                   (* [case sig := <-c.quit] *)
| Deliver (sig : signal).

Inductive action : Type :=
| UiMultiStop
| SchedulerStop
| TickerStop
| Done.

Inductive run_end : Type :=
| Returned (deferred : list action)   (* [return], then the deferred func *)
| OsExit (code : Z)                   (* [os.Exit]: nothing deferred runs *)
| Panicked (deferred : list action)   (* spinner index out of range *)
| SendBlocked                         (* stuck in [c.quit <- SIGQUIT] *)
| Looping (pending : option signal).  (* events used up, still in the loop *)

(** The deferred function of [run]. *)
Definition run_deferred (o : CrawlerOptions) : list action :=
  (if CrInteractive o then [UiMultiStop] else []) ++
  [SchedulerStop; TickerStop; Done].

(** [c.ui.spinners]: one per worker in interactive mode, else nil. *)
Definition spinner_count (o : CrawlerOptions) : Z :=
  if CrInteractive o then Z.max 0 (CrMaxWorkers o) else 0.

Fixpoint run (o : CrawlerOptions) (pending : option signal)
  (events : list run_event) : run_end :=
  match events with
  | [] => Looping pending
  | Tick visitedSize cacheSize :: events' =>
      if quiescent_sizes visitedSize cacheSize
      then match pending with
           | None => run o (Some SIGQUIT) events'
           | Some _ => SendBlocked
           end
      else run o pending events'
  | WorkerStateMsg i _ :: events' =>
      if bool_decide (0 ≤ i < spinner_count o)%Z
      then run o pending events'
      else Panicked (run_deferred o)
  | QuitRecv :: events' =>
      match pending with
      | None => run o pending events'
      | Some sig =>
          match sig with
          | SIGQUIT => Returned (run_deferred o)
          | _ => OsExit (signal_number sig)
          end
      end
  | Deliver sig :: events' =>
      match pending with
      | None => run o (Some sig) events'
      | Some _ => run o pending events'
      end
  end.

(** A tick that sees the completed count reach the discovered count. *)
Definition quiescent_tick (e : run_event) : Prop :=
  match e with
  | Tick v k => quiescent_sizes v k = true
  | _ => False
  end.

Definition is_deliver (e : run_event) : Prop :=
  match e with Deliver _ => True | _ => False end.

(** A worker message names one of the spinners. *)
Definition valid_msg (o : CrawlerOptions) (e : run_event) : Prop :=
  match e with
  | WorkerStateMsg i _ => (0 ≤ i < spinner_count o)%Z
  | _ => True
  end.


(** *** Enumerating the interleavings of a crawl

    What handlers read and write: the two sets, the records and the
    queue.  [core_succs] lists every state one transition away, for at
    most [cap] handlers at a time ([None]: no bound). *)
Record shared : Type := {
  sh_cache : hashSet;
  sh_visited : hashSet;
  sh_result : list crawlerResult;
  sh_queue : list string
}.


(** A crawler holding the given shared state. *)
Definition crawler_of (sh : shared) : Crawler :=
  {| scheduler :=
       {| WorkerState := 0; workers := []; workerPool := 0; quit := false;
          sched_handler := Some crawler_handler; inputQueue := sh_queue sh;
          sched_opts := {| MaxWorkers := 0; Interactive := false |} |};
     cache := sh_cache sh; visited := sh_visited sh;
     opts := {| OutputFile := ""; CrMaxWorkers := 0; CrInteractive := false |};
     result := sh_result sh; quit_chan := None |}.

Definition core : Type := shared * list hthread.


#[global] Instance signal_eq_dec : EqDecision signal.
Proof. solve_decision. Defined.
#[global] Instance hashSet_eq_dec : EqDecision hashSet.
Proof. solve_decision. Defined.
#[global] Instance ParserOutput_eq_dec : EqDecision ParserOutput.
Proof. solve_decision. Defined.
#[global] Instance crawlerResult_eq_dec : EqDecision crawlerResult.
Proof. solve_decision. Defined.
#[global] Instance hthread_eq_dec : EqDecision hthread.
Proof. solve_decision. Defined.
#[global] Instance shared_eq_dec : EqDecision shared.
Proof. solve_decision. Defined.

Section Explore.

Variable ParseLinks : string → ParserOutput * option string.
Variable cap : option nat.









End Explore.

(** *** The three-page site

    The seed links to [/x] and [/y]; [/x] has no links; [/y] links back
    to [/x].  Any other URL fails to load. *)
Module Site.

Definition a : string := "https://a.test".
Definition x : string := "https://a.test/x".
Definition y : string := "https://a.test/y".

Definition page (links : list string) : ParserOutput * option string :=
  ({| Links := links; Status := "200 OK"; StatusCode := 200 |}, None).

Definition fetch (url : string) : ParserOutput * option string :=
  if bool_decide (url = a) then page [x; y]
  else if bool_decide (url = x) then page []
  else if bool_decide (url = y) then page [x]
  else ({| Links := []; Status := ""; StatusCode := 0 |},
        Some "no such host").

(** The seed is already in the form [SanitiseUrl] produces. *)
Definition sanitise (url : string) : string * option string := (url, None).

(** One worker, plain output. *)
Definition one_worker : CrawlerOptions :=
  {| OutputFile := ""; CrMaxWorkers := 1; CrInteractive := false |}.

Definition start : core :=
  ({| sh_cache := {| data := Some {[ a := true ]} |};
      sh_visited := zero_hashSet; sh_result := []; sh_queue := [a] |}, []).


(** How many Result Records name [url]. *)
Definition records_for (url : string) (rs : list crawlerResult) : nat :=
  length (filter (λ r, URL r = url) rs).

(** One record per page; [/x] may have a second one when two of its
    dispatches were fetched at the same time. *)
Definition expected (cache visited : hashSet) (rs : list crawlerResult)
  : Prop :=
  size cache = 3 ∧ size visited = 3
  ∧ records_for a rs = 1 ∧ records_for y rs = 1
  ∧ 1 ≤ records_for x rs ≤ 2
  ∧ length rs = 2 + records_for x rs.

(** The records of a crawl that handles one task at a time. *)
Definition three_records : list crawlerResult :=
  [new_result a (page [x; y]).1; new_result x (page []).1;
   new_result y (page [x]).1].

#[global] Instance expected_dec cache visited rs :
  Decision (expected cache visited rs).
Proof. unfold expected. apply _. Defined.




End Site.

(** ** What a crawl can reach

    Predicates the properties of [handler] and [Crawl] are stated with. *)

(** URLs a crawl can get to: the seed, and the links of pages that load. *)
Inductive linked (ParseLinks : string → ParserOutput * option string)
  (seed : string) : string → Prop :=
| linked_seed : linked ParseLinks seed seed
| linked_link u output l :
    linked ParseLinks seed u →
    ParseLinks u = (output, None) →
    l ∈ Links output →
    linked ParseLinks seed l.

(** The page a handler invocation holds between its fetch and its
    insert into the discovered set. *)
Definition held_page (th : hthread) : option ParserOutput :=
  match th with
  | HAppend _ output | HSnapshot output | HAddCache output _ => Some output
  | _ => None
  end.

Section Pages.

Variable ParseLinks : string → ParserOutput * option string.

(** The page an invocation holds is the page of a completed URL. *)
Definition page_ok (vis : gset string) (th : hthread) : Prop :=
  match th with
  | HAppend input output => input ∈ vis ∧ ParseLinks input = (output, None)
  | HSnapshot output | HAddCache output _ =>
      ∃ u, u ∈ vis ∧ ParseLinks u = (output, None)
  | _ => True
  end.

Record crawl_pages (seed : string) (st : cstate) : Prop := {
  pg_seed : seed ∈ elems (cache (crawler st));
  pg_linked :
    ∀ t, t ∈ elems (cache (crawler st)) → linked ParseLinks seed t;
  pg_running :
    ∀ th, th ∈ running st → page_ok (elems (visited (crawler st))) th;
  pg_records :
    ∀ r, r ∈ result (crawler st) →
         URL r ∈ elems (visited (crawler st))
         ∧ ∃ output, ParseLinks (URL r) = (output, None)
                     ∧ r = new_result (URL r) output;
  pg_links :
    ∀ u output, u ∈ elems (visited (crawler st)) →
      ParseLinks u = (output, None) →
      (∀ l, l ∈ Links output → l ∈ elems (cache (crawler st)))
      ∨ ∃ th, th ∈ running st ∧ held_page th = Some output;
  pg_recorded :
    ∀ u output, u ∈ elems (visited (crawler st)) →
      ParseLinks u = (output, None) →
      (∃ r, r ∈ result (crawler st) ∧ URL r = u)
      ∨ HAppend u output ∈ running st
}.

End Pages.

(** With one worker: what the invocation in progress has not done yet. *)
Definition fresh_task (c : Crawler) (th : hthread) : Prop :=
  match th with
  | HFetch input => input ∉ elems (visited c)
  | HAppend input _ =>
      input ∈ elems (visited c) ∧ input ∉ (URL <$> result c)
  | _ => True
  end.

Record one_at_a_time (st : cstate) : Prop := {
  oat_running : length (running st) ≤ 1;
  oat_nodup : NoDup (URL <$> result (crawler st));
  oat_completed :
    ∀ r, r ∈ result (crawler st) → URL r ∈ elems (visited (crawler st));
  oat_fresh : ∀ th, th ∈ running st → fresh_task (crawler st) th
}.

(** Every link of a page of [U] that loads is in [U]. *)
Definition closed_site (ParseLinks : string → ParserOutput * option string)
  (U : gset string) : Prop :=
  ∀ u output l,
    u ∈ U → ParseLinks u = (output, None) → l ∈ Links output → l ∈ U.

(** ** worker.go and the loop of [run] in scheduler.go *)

Section WorkerLoop.

Context {T H : Type}.

(** *** worker.go: the loop of [start]

    What a worker receives in its [select]: a task on [w.cha.tasks] or
    the shutdown signal on [w.cha.quit]. *)
Inductive worker_input : Type :=
| TaskIn (task : T)
| QuitIn.

Inductive worker_action : Type :=
| PoolSend (worker_id : Z)                (* [w.cha.pool <- &w] *)
| StateSend (worker_id : Z) (task : T)    (* [w.cha.state <- tuple{...}] *)
| HandlerCall (task : T)                  (* [w.handler(task)] *)
| CloseTasks.                             (* [close(w.cha.tasks)] *)

(** [if w.reportState { w.cha.state <- tuple{w.id, task} }] *)
Definition worker_report (w : worker H) (task : T) : list worker_action :=
  if reportState w then [StateSend (id w) task] else [].

(** The actions of the worker goroutine, given what its [select]
    receives; when the inputs run out it is waiting in the [select]. *)
Fixpoint worker_loop (w : worker H) (inputs : list worker_input)
  : list worker_action :=
  PoolSend (id w) ::
  match inputs with
  | [] => []
  | TaskIn task :: inputs' =>
      worker_report w task ++ HandlerCall task :: worker_loop w inputs'
  | QuitIn :: _ => [CloseTasks]
  end.

(** The tasks received before the shutdown signal. *)
Fixpoint before_quit (inputs : list worker_input) : list T :=
  match inputs with
  | TaskIn task :: inputs' => task :: before_quit inputs'
  | _ => []
  end.

Definition handled (acts : list worker_action) : list T :=
  omap (λ a, match a with HandlerCall t => Some t | _ => None end) acts.

Definition pool_sends (acts : list worker_action) : nat :=
  length (omap (λ a, match a with PoolSend i => Some i | _ => None end) acts).

(** *** scheduler.go: passes of the loop of [run]

    [run_passes n s] makes [n] passes with a worker waiting in the pool
    at each hand-off: the tasks handed to workers, and the scheduler
    left.  A pass that finds the queue empty spins. *)
Fixpoint run_passes (n : nat) (s : Scheduler T H)
  : outcome (list T * Scheduler T H) :=
  match n with
  | 0 => mret ([], s)
  | S n' =>
      r ← run_once s 1;
      match r with
      | RunReturn => mret ([], s)
      | RunSpin => run_passes n' s
      | RunHandOff t s' =>
          '(ts, s'') ← run_passes n' s'; mret (t :: ts, s'')
      | RunBlocked t s' => mret ([], s')
      end
  end.

End WorkerLoop.

(** ** The scheduler and its workers as goroutines

    The dispatch loop of [run], the worker loops of [start] and the
    senders of [Stop] move one channel operation at a time.  A worker is
    named by its index in [s.workers]; [workerPool] holds such indices,
    oldest first.  [w.cha.tasks] and [w.cha.quit] have no buffer: a send
    and a receive on them are one joint transition. *)
Module Pool.

Section Pool.

Context {T H : Type}.

(** Where the dispatch loop is. *)
Inductive loop_state : Type :=
| LoopTop                          (* before [if s.quit] *)
| LoopHolding (t : T)              (* dequeued; in [<-s.workerPool] *)
| LoopSending (t : T) (w : nat)    (* in [worker.cha.tasks <- t] *)
| LoopReturned
| LoopPanicked (t : T).            (* send on a closed channel *)

(** Where a worker is. *)
Inductive worker_state : Type :=
| WorkerTop                        (* before [w.cha.pool <- &w] *)
| WorkerSelect                     (* in the [select] *)
| WorkerReport (task : T)          (* before [w.cha.state <- ...] *)
| WorkerHandle (task : T)          (* in [w.handler(task)] *)
| WorkerExited.                    (* closed [w.cha.tasks], returned *)

Record state : Type := {
  sched : Scheduler T H;
  loop : loop_state;
  pool : list nat;
  wstates : list worker_state;
  quitting : list nat              (* senders of [Stop] not yet received *)
}.

(** What the handler dispatches while it handles a task. *)
Variable spawn : T → list T.

Definition set_sched (st : state) (s : Scheduler T H) : state :=
  {| sched := s; loop := loop st; pool := pool st; wstates := wstates st;
     quitting := quitting st |}.

Definition set_loop (st : state) (l : loop_state) : state :=
  {| sched := sched st; loop := l; pool := pool st; wstates := wstates st;
     quitting := quitting st |}.

Definition set_pool (st : state) (p : list nat) : state :=
  {| sched := sched st; loop := loop st; pool := p; wstates := wstates st;
     quitting := quitting st |}.

Definition set_worker (st : state) (w : nat) (ws : worker_state) : state :=
  {| sched := sched st; loop := loop st; pool := pool st;
     wstates := <[w := ws]> (wstates st);
     quitting := quitting st |}.

(** [Dispatch(tasks)], by the handler or by another caller. *)
Definition dispatch (st : state) (tasks : list T) : state :=
  {| sched := Dispatch (sched st) tasks; loop := loop st; pool := pool st;
     wstates := wstates st; quitting := quitting st |}.

(** What a worker does with a task it received. *)
Definition received (w : worker H) (task : T) : worker_state :=
  if reportState w then WorkerReport task else WorkerHandle task.

(** One transition of one goroutine, scheduler.go (s) and worker.go (w)
    by line.  A call of [Dispatch] is one transition; the handler runs
    to its return in one, dispatching [spawn t]; the send of line w50
    can always be made, [run] of the crawler emptying [WorkerState]. *)
Inductive step : state → state → Prop :=
| loop_return st :                                    (* s88-90 *)
    loop st = LoopTop → quit (sched st) = true →
    step st (set_loop st LoopReturned)
| loop_dequeue st t s' :                              (* s92-96 *)
    loop st = LoopTop → quit (sched st) = false →
    dequeue (sched st) = Ok (t, s') →
    step st (set_loop (set_sched st s') (LoopHolding t))
| loop_take st t w p :                                (* s97 *)
    loop st = LoopHolding t → pool st = w :: p →
    step st (set_loop (set_pool st p) (LoopSending t w))
| loop_hand_off st t w wk :                           (* s99 with w47 *)
    loop st = LoopSending t w →
    wstates st !! w = Some WorkerSelect →
    workers (sched st) !! w = Some wk →
    step st (set_loop (set_worker st w (received wk t)) LoopTop)
| loop_send_closed st t w :                           (* s99 after w56 *)
    loop st = LoopSending t w →
    wstates st !! w = Some WorkerExited →
    step st (set_loop st (LoopPanicked t))
| worker_register st w :                              (* w44 *)
    wstates st !! w = Some WorkerTop →
    (Z.of_nat (length (pool st)) < workerPool (sched st))%Z →
    step st (set_worker (set_pool st (pool st ++ [w])) w WorkerSelect)
| worker_report st w t :                              (* w49-51 *)
    wstates st !! w = Some (WorkerReport t) →
    step st (set_worker st w (WorkerHandle t))
| worker_handled st w t :                             (* w53 *)
    wstates st !! w = Some (WorkerHandle t) →
    step st
      {| sched := Dispatch (sched st) (spawn t); loop := loop st;
         pool := pool st; wstates := <[w := WorkerTop]> (wstates st);
         quitting := quitting st |}
| worker_quit st w q1 q2 :                            (* s79 with w55-57 *)
    quitting st = q1 ++ w :: q2 →
    wstates st !! w = Some WorkerSelect →
    step st
      {| sched := sched st; loop := loop st; pool := pool st;
         wstates := <[w := WorkerExited]> (wstates st);
         quitting := q1 ++ q2 |}
| stop_called st :                                    (* s72-81 *)
    step st
      {| sched := Stop (sched st); loop := loop st; pool := pool st;
         wstates := wstates st;
         quitting := quitting st ++ seq 0 (length (workers (sched st))) |}
| dispatch_called st tasks :                          (* s51-55 *)
    step st (dispatch st tasks).

(** The state [Start] leaves: every goroutine at its first statement. *)
Definition started (s : Scheduler T H) : state :=
  {| sched := s; loop := LoopTop; pool := [];
     wstates := replicate (length (workers s)) WorkerTop;
     quitting := [] |}.

(** A worker that has put itself in the pool and taken no task since. *)
Definition waiting (ws : worker_state) : Prop :=
  ws = WorkerSelect ∨ ws = WorkerExited.

End Pool.

End Pool.

(** What every reachable state of the pool keeps. *)
Record pool_inv {T H : Type} (n : nat) (st : Pool.state (T:=T) (H:=H))
  : Prop := {
  pi_workers : length (workers (Pool.sched st)) = n;
  pi_states : length (Pool.wstates st) = n;
  pi_cap : workerPool (Pool.sched st) = Z.of_nat n;
  pi_nodup : NoDup (Pool.pool st);
  pi_pool : ∀ w, w ∈ Pool.pool st →
    ∃ ws, Pool.wstates st !! w = Some ws ∧ Pool.waiting ws;
  pi_sending : ∀ t w, Pool.loop st = Pool.LoopSending t w →
    (w ∉ Pool.pool st)
    ∧ (∃ ws, Pool.wstates st !! w = Some ws ∧ Pool.waiting ws);
  pi_running : quit (Pool.sched st) = false →
    Pool.quitting st = []
    ∧ (∀ w, Pool.wstates st !! w ≠ Some Pool.WorkerExited)
    ∧ Pool.loop st ≠ Pool.LoopReturned
    ∧ (∀ t, Pool.loop st ≠ Pool.LoopPanicked t)
}.

(** Once [quit] is set, each worker has exited or has a sender of [Stop]
    waiting for it. *)
Definition stopping {T H : Type} (st : Pool.state (T:=T) (H:=H)) : Prop :=
  quit (Pool.sched st) = true →
  ∀ w, w < length (Pool.wstates st) →
       w ∈ Pool.quitting st ∨ Pool.wstates st !! w = Some Pool.WorkerExited.

(** ** Package [strings] *)

Module Strings.

Import Stdlib.Strings.Ascii.

Definition tab : Ascii.ascii := "009"%char.
Definition newline : Ascii.ascii := "010"%char.
Definition comma : Ascii.ascii := ","%char.

(** [strings.HasPrefix] *)
Fixpoint HasPrefix (s prefix : string) {struct prefix} : bool :=
  match prefix with
  | EmptyString => true
  | String a prefix' =>
      match s with
      | EmptyString => false
      | String b s' => bool_decide (a = b) && HasPrefix s' prefix'
      end
  end.

(** [strings.HasSuffix]: some tail of [s] is [suffix]. *)
Fixpoint HasSuffix (s suffix : string) : bool :=
  bool_decide (s = suffix)
  || match s with
     | EmptyString => false
     | String _ s' => HasSuffix s' suffix
     end.

(** [strings.Contains]: [substr] starts at some position of [s]. *)
Fixpoint Contains (s substr : string) : bool :=
  HasPrefix s substr
  || match s with
     | EmptyString => false
     | String _ s' => Contains s' substr
     end.

(** [strings.TrimSuffix] *)
Definition TrimSuffix (s suffix : string) : string :=
  if HasSuffix s suffix
  then String.substring 0 (String.length s - String.length suffix) s
  else s.

(** [strings.Split(s, sep)] for a separator of one byte. *)
Fixpoint Split (s : string) (sep : Ascii.ascii) : list string :=
  match s with
  | EmptyString => [EmptyString]
  | String c s' =>
      if bool_decide (c = sep) then EmptyString :: Split s' sep
      else match Split s' sep with
           | [] => [String c EmptyString]
           | piece :: pieces => String c piece :: pieces
           end
  end.

End Strings.

(** ** Package [parser] *)

Module Parser.

Import Strings.

Record ParserOptions : Type := {
  Timeout : Z;
  SameSubdomain : bool;
  Distinct : bool;
  IgnoreFragments : bool;
  IgnoredExtensions : list string;
  IgnoredPaths : list string
}.

(** [net/url.URL], the fields the parser reads. *)
Record url_URL : Type := {
  Scheme : string;
  Host : string;
  Path : string
}.

(** [distinctLinks]: the keys of the map filled from [links], in the
    order [range] gives them. *)
Definition distinctLinks (links : list string) : list string :=
  map_range (Some (foldl insert_absent ∅ links)).

Section WithUrl.

(** [url.Parse] and the method [String] of a URL of package [net/url]. *)
Variable url_Parse : string → url_URL * option string.
Variable url_String : url_URL → string.

Definition getUrl (rawUrl : string) : (url_URL * string) * option string :=
  let '(parsedUrl, err) := url_Parse rawUrl in
  let none := ({| Scheme := ""; Host := ""; Path := "" |}, "") in
  match err with
  | Some e => (none, Some e)
  | None =>
      if bool_decide (url_String parsedUrl = "")
      then (none, Some ("empty url for input " +:+ rawUrl))
      else if bool_decide (Scheme parsedUrl ≠ "http")
              && bool_decide (Scheme parsedUrl ≠ "https")
      then (none, Some ("missing or invalid scheme for input " +:+ rawUrl))
      else if bool_decide (Host parsedUrl = "")
      then (none, Some ("missing host for input " +:+ rawUrl))
      else ((parsedUrl, Scheme parsedUrl +:+ "://" +:+ Host parsedUrl), None)
  end.

Definition SanitiseUrl (rawUrl : string) : string * option string :=
  let '((url, _), err) := getUrl rawUrl in
  match err with
  | Some e => ("", Some e)
  | None =>
      (Scheme url +:+ "://" +:+ Host url +:+ TrimSuffix (Path url) "/", None)
  end.

(** The two inner loops of [filterLinks]. *)
Fixpoint has_ignored_extension (l : string) (exts : list string) : bool :=
  match exts with
  | [] => false
  | ext :: exts' => HasSuffix l ext || has_ignored_extension l exts'
  end.

Fixpoint has_ignored_path (l : string) (paths : list string) : bool :=
  match paths with
  | [] => false
  | path :: paths' => Contains l path || has_ignored_path l paths'
  end.

(** One pass of the outer loop: what is appended for [l], if anything. *)
Definition filter_link (opts : ParserOptions) (baseUrl l : string)
  : option string :=
  if IgnoreFragments opts && Contains l "#" then None
  else if bool_decide (0 < length (IgnoredExtensions opts))
          && has_ignored_extension l (IgnoredExtensions opts) then None
  else if bool_decide (0 < length (IgnoredPaths opts))
          && has_ignored_path l (IgnoredPaths opts) then None
  else
    let l := if HasPrefix l "/" then baseUrl +:+ l else l in
    if SameSubdomain opts && negb (HasPrefix l baseUrl) then None
    else
      let '(sanitisedLink, err) := SanitiseUrl l in
      match err with
      | Some _ => None
      | None => Some sanitisedLink
      end.

Fixpoint filter_loop (opts : ParserOptions) (baseUrl : string)
  (links : list string) : list string :=
  match links with
  | [] => []
  | l :: links' =>
      match filter_link opts baseUrl l with
      | Some sanitisedLink => sanitisedLink :: filter_loop opts baseUrl links'
      | None => filter_loop opts baseUrl links'
      end
  end.

Definition filterLinks (opts : ParserOptions) (links : list string)
  (baseUrl : string) : list string :=
  let filteredLinks := filter_loop opts baseUrl links in
  if Distinct opts then distinctLinks filteredLinks else filteredLinks.

End WithUrl.

(** What [getUrl] accepts starts with one of the two schemes. *)
Definition is_http (x : string) : Prop :=
  HasPrefix x "http://" = true ∨ HasPrefix x "https://" = true.

End Parser.

(** ** [parser.ParseLinks] *)

Module Fetch.

Import Strings Parser.

(** A token of [golang.org/x/net/html]: a start tag with its name and
    attributes, or any other token. *)
Inductive html_token : Type :=
| StartTagToken (Data : string) (Attr : list (string * string))
| OtherToken.

(** A response body: the tokens the tokenizer yields and the error that
    ends them, [None] for [io.EOF]. *)
Definition body : Type := list html_token * option string.

Record SimpleHttpResponse : Type := {
  Body : body;
  RespStatus : string;
  RespStatusCode : Z;
  Location : string      (* [Header.Get("Location")] *)
}.

Definition no_response : SimpleHttpResponse :=
  {| Body := ([], None); RespStatus := ""; RespStatusCode := 0;
     Location := "" |}.

Definition no_output : ParserOutput :=
  {| Links := []; Status := ""; StatusCode := 0 |}.

(** [for _, a := range t.Attr { if a.Key == "href" { append } }] *)
Fixpoint hrefs (links : list string) (attrs : list (string * string))
  : list string :=
  match attrs with
  | [] => links
  | (key, val) :: attrs' =>
      if bool_decide (key = "href")
      then hrefs (links ++ [val]) attrs'
      else hrefs links attrs'
  end.

Fixpoint body_loop (links : list string) (tokens : list html_token)
  (err : option string) : list string * option string :=
  match tokens with
  | [] =>
      match err with
      | Some e => ([], Some e)
      | None => (links, None)
      end
  | StartTagToken data attrs :: tokens' =>
      if bool_decide (data = "a")
      then body_loop (hrefs links attrs) tokens' err
      else body_loop links tokens' err
  | OtherToken :: tokens' => body_loop links tokens' err
  end.

Definition parseLinksFromHtmlBody (reader : body)
  : list string * option string :=
  body_loop [] reader.1 reader.2.

Section WithNetwork.

Variable url_Parse : string → url_URL * option string.
Variable url_String : url_URL → string.
(** [url.Parse(ref)] on a URL value: [ref] resolved against it. *)
Variable url_resolve : url_URL → string → url_URL * option string.
(** [handleRequest]: one HTTP GET. *)
Variable handleRequest : url_URL → SimpleHttpResponse * option string.

(** [get], with the requests it made. *)
Definition get (url : url_URL)
  : list url_URL * (SimpleHttpResponse * option string) :=
  let '(res, err) := handleRequest url in
  match err with
  | Some e => ([url], (no_response, Some e))
  | None =>
      if bool_decide (RespStatusCode res = 301%Z)
         || bool_decide (RespStatusCode res = 302%Z)
      then
        let '(redirectUrl, err) := url_resolve url (Location res) in
        match err with
        | Some e => ([url], (no_response, Some e))
        | None =>
            let '(redirectRes, err) := handleRequest redirectUrl in
            match err with
            | Some e => ([url; redirectUrl], (no_response, Some e))
            | None => ([url; redirectUrl], (redirectRes, None))
            end
        end
      else ([url], (res, None))
  end.

Definition ParseLinks (opts : ParserOptions) (input : string)
  : ParserOutput * option string :=
  let '((url, baseUrl), err) := getUrl url_Parse url_String input in
  match err with
  | Some e => (no_output, Some e)
  | None =>
      let '(response, err) := (get url).2 in
      match err with
      | Some e => (no_output, Some e)
      | None =>
          let '(links, err) := parseLinksFromHtmlBody (Body response) in
          match err with
          | Some e =>
              ({| Links := []; Status := RespStatus response;
                  StatusCode := RespStatusCode response |}, Some e)
          | None =>
              ({| Links := filterLinks url_Parse url_String opts links baseUrl;
                  Status := RespStatus response;
                  StatusCode := RespStatusCode response |}, None)
          end
      end
  end.


End WithNetwork.

End Fetch.

(** ** main.go and the output of [done] *)

Module Cli.

Import Strings Parser.

(** The command-line flags [main] reads. *)
Record Flags : Type := {
  urlFlag : string;
  outputFlag : string;
  formatFlag : string;
  interactiveFlag : bool;
  maxWorkersFlag : Z;
  deadlineFlag : Z;
  ignoreFragmentsFlag : bool;
  ignoredExtensionsFlag : string;
  ignoredPathsFlag : string
}.

(** [crawler.CrawlerOptions] with all its fields. *)
Record AllOptions : Type := {
  OutputFormat : string;
  OptOutputFile : string;
  OptMaxWorkers : Z;
  OptInteractive : bool;
  RequestDeadline : Z;
  OptIgnoreFragments : bool;
  OptIgnoredExtensions : list string;
  OptIgnoredPaths : list string
}.

Definition Output_Stdout : string := "stdout".
Definition Output_Json : string := "json".
Definition Output_Xml : string := "xml".

(** [main] up to its call of [crawler.NewCrawler]: the options built
    from the flags. *)
Definition main_options (f : Flags) : outcome AllOptions :=
  if negb (Contains (urlFlag f) "http")
  then Panic ("client error: invalid parameter url, missing scheme in ["
              +:+ urlFlag f +:+ "]")
  else if bool_decide (formatFlag f ≠ Output_Stdout)
          && bool_decide (formatFlag f ≠ Output_Json)
          && bool_decide (formatFlag f ≠ Output_Xml)
  then Panic ("client error: invalid parameter o, unsupported format ["
              +:+ formatFlag f +:+ "]")
  else
    let ignoredExtensions :=
      if bool_decide (0 < String.length (ignoredExtensionsFlag f))
      then Split (ignoredExtensionsFlag f) comma
      else [] in
    let ignoredPaths :=
      if bool_decide (0 < String.length (ignoredExtensionsFlag f))
      then Split (ignoredPathsFlag f) comma
      else [] in
    mret {| OptMaxWorkers := maxWorkersFlag f;
            OutputFormat := formatFlag f;
            OptOutputFile := outputFlag f;
            OptInteractive := interactiveFlag f;
            RequestDeadline := deadlineFlag f;
            OptIgnoreFragments := ignoreFragmentsFlag f;
            OptIgnoredExtensions := ignoredExtensions;
            OptIgnoredPaths := ignoredPaths |}.

(** The options [NewCrawler] gives the parser; a [time.Duration] counts
    nanoseconds. *)
Definition parser_options (o : AllOptions) : ParserOptions :=
  {| Timeout := 1000000000 * RequestDeadline o;
     SameSubdomain := true;
     Distinct := true;
     IgnoreFragments := OptIgnoreFragments o;
     IgnoredExtensions := OptIgnoredExtensions o;
     IgnoredPaths := OptIgnoredPaths o |}.

(** The options the scheduler and [run] read. *)
Definition crawler_options (o : AllOptions) : CrawlerOptions :=
  {| OutputFile := OptOutputFile o;
     CrMaxWorkers := OptMaxWorkers o;
     CrInteractive := OptInteractive o |}.

(** The name [done] writes to. *)
Definition output_name (format outFile : string) : string :=
  if bool_decide (format = Output_Json) && negb (HasSuffix outFile ".json")
  then outFile +:+ ".json"
  else if bool_decide (format = Output_Xml) && negb (HasSuffix outFile ".xml")
  then outFile +:+ ".xml"
  else outFile.

Inductive output_action : Type :=
| Println (results : string)
| WriteFile (filename data : string).

(** [done], given the string [getResultString] returned. *)
Definition done_output (o : AllOptions) (results : string) : output_action :=
  if bool_decide (String.length (OptOutputFile o) ≤ 0)
  then Println results
  else WriteFile (output_name (OutputFormat o) (OptOutputFile o)) results.

(** [getResultString] for the format [stdout]: a line per URL, then a
    line starting with a tab per link. *)
Fixpoint write_links (builder : string) (links : list string) : string :=
  match links with
  | [] => builder
  | l :: links' =>
      write_links (builder +:+ String tab l +:+ String newline "") links'
  end.

Fixpoint write_results (builder : string) (rs : list crawlerResult) : string :=
  match rs with
  | [] => builder
  | e :: rs' =>
      write_results
        (write_links (builder +:+ URL e +:+ String newline "") (ResLinks e)) rs'
  end.

Definition getResultString_stdout (rs : list crawlerResult) : string :=
  write_results "" rs.

End Cli.

(** The plain output described by its lines, to state what
    [getResultString] writes. *)
Module Plain.

Import Strings.

(** The lines of the plain output for one record. *)
Definition record_lines (e : crawlerResult) : list string :=
  URL e :: (String tab <$> ResLinks e).

(** Each line followed by a newline. *)
Fixpoint unlines (ls : list string) : string :=
  match ls with
  | [] => ""
  | l :: ls' => l +:+ String newline (unlines ls')
  end.

End Plain.

(** ** The site of the parser's tests

    Stand-ins for [net/url] and for the network on the URLs the tests of
    the parser use: one page, with two links to the same page. *)
Module Monzo.

Import Parser Fetch.

Definition base : string := "https://monzo.com".

Definition at_path (path : string) : url_URL :=
  {| Scheme := "https"; Host := "monzo.com"; Path := path |}.

(** [url.Parse]: a string without a scheme parses as a path. *)
Definition parse (rawUrl : string) : url_URL * option string :=
  if bool_decide (rawUrl = "https://monzo.com") then (at_path "", None)
  else if bool_decide (rawUrl = "https://monzo.com/") then (at_path "/", None)
  else if bool_decide (rawUrl = "https://monzo.com/about")
  then (at_path "/about", None)
  else if bool_decide (rawUrl = "https://monzo.com/about/")
  then (at_path "/about/", None)
  else ({| Scheme := ""; Host := ""; Path := rawUrl |}, None).

Definition to_string (u : url_URL) : string :=
  if bool_decide (Scheme u = "") then Path u
  else Scheme u +:+ "://" +:+ Host u +:+ Path u.

Definition resolve (u : url_URL) (ref : string) : url_URL * option string :=
  parse ref.

Definition about_page : SimpleHttpResponse :=
  {| Body := ([StartTagToken "a" [("href", "/about")]; OtherToken;
               StartTagToken "a" [("class", "nav"); ("href", "/about/")]],
              None);
     RespStatus := "200 OK"; RespStatusCode := 200; Location := "" |}.

Definition handle (u : url_URL) : SimpleHttpResponse * option string :=
  (about_page, None).

(** The options [NewCrawler] gives the parser, with the default flags. *)
Definition defaults : ParserOptions :=
  {| Timeout := 5000000000; SameSubdomain := true; Distinct := true;
     IgnoreFragments := true; IgnoredExtensions := []; IgnoredPaths := [] |}.

Definition fetch : string → ParserOutput * option string :=
  ParseLinks parse to_string resolve handle defaults.

Definition sanitise : string → string * option string :=
  SanitiseUrl parse to_string.

Definition about_output : ParserOutput :=
  {| Links := ["https://monzo.com/about"]; Status := "200 OK";
     StatusCode := 200 |}.

End Monzo.

(** Two workers in interactive mode. *)
Definition two_interactive : CrawlerOptions :=
  {| OutputFile := ""; CrMaxWorkers := 2; CrInteractive := true |}.


Definition two_workers : SchedulerOptions :=
  {| MaxWorkers := 2; Interactive := false |}.

(** [NewScheduler two_workers] *)
Definition two_scheduler : Scheduler string handler_ref :=
  {| WorkerState := 2; workers := []; workerPool := 2; quit := false;
     sched_handler := None; inputQueue := []; sched_opts := two_workers |}.

(** * Properties *)

(** ** The deduplicating set *)

Section HashSetFacts.

Implicit Types (s : hashSet) (d : gmap string bool) (t x : string)
  (a : list string).

Lemma has_elems s x : has s x = true ↔ x ∈ elems s.
Proof.
  destruct s as [[d|]]; unfold has, elems; simpl.
  - rewrite elem_of_dom. destruct (d !! x); simpl; split; intros Hx;
      try done; by destruct Hx.
  - set_solver.
Qed.

Lemma has_false_elems s x : has s x = false ↔ x ∉ elems s.
Proof. rewrite <- has_elems. destruct (has s x); naive_solver. Qed.

Lemma size_elems s : size s = base.size (elems s).
Proof.
  destruct s as [[d|]]; unfold size, elems; simpl.
  - by rewrite size_dom.
  - done.
Qed.

Lemma slice_elems s x : x ∈ slice s ↔ x ∈ elems s.
Proof.
  destruct s as [[d|]]; unfold slice, elems; simpl.
  - rewrite elem_of_dom, list_elem_of_fmap. split.
    + intros [[k v] [-> Hkv]]. apply elem_of_map_to_list in Hkv. by exists v.
    + intros [v Hv]. exists (x, v). split; [done|].
      by apply elem_of_map_to_list.
  - rewrite elem_of_nil. set_solver.
Qed.

Lemma slice_NoDup s : NoDup (slice s).
Proof.
  destruct s as [[d|]]; unfold slice; simpl.
  - apply NoDup_fst_map_to_list.
  - constructor.
Qed.

Lemma slices_Contains_spec (l : list string) x :
  slices_Contains l x = true ↔ x ∈ l.
Proof. unfold slices_Contains. by rewrite bool_decide_eq_true. Qed.

Lemma add_entry_table d t :
  add_entry {| data := Some d |} t = Ok {| data := Some (insert_absent d t) |}.
Proof.
  unfold add_entry, insert_absent; simpl. by destruct (d !! t).
Qed.

Lemma add_entry_nil t :
  add_entry zero_hashSet t = Panic "assignment to entry in nil map".
Proof. reflexivity. Qed.

Lemma lazy_init_table s : lazy_init s = {| data := Some (table s) |}.
Proof. by destruct s as [[d|]]. Qed.

Lemma add_table s t :
  add s t = Ok {| data := Some (insert_absent (table s) t) |}.
Proof. unfold add. by rewrite lazy_init_table, add_entry_table. Qed.

Lemma add_each_table d a :
  add_each {| data := Some d |} a
  = Ok {| data := Some (foldl insert_absent d a) |}.
Proof.
  revert d. induction a as [|t a IH]; intros d; simpl; [done|].
  rewrite add_entry_table. simpl. apply IH.
Qed.

Lemma addSlice_table s a :
  addSlice s a = Ok {| data := Some (foldl insert_absent (table s) a) |}.
Proof. unfold addSlice. by rewrite lazy_init_table, add_each_table. Qed.

Lemma insert_absent_present d t : is_Some (d !! t) → insert_absent d t = d.
Proof. intros [v Hv]. unfold insert_absent. by rewrite Hv. Qed.

Lemma dom_insert_absent d t : dom (insert_absent d t) = {[t]} ∪ dom d.
Proof.
  unfold insert_absent. destruct (d !! t) eqn:Hd.
  - apply elem_of_dom_2 in Hd. set_solver.
  - apply dom_insert_L.
Qed.

Lemma dom_foldl_insert_absent d a :
  dom (foldl insert_absent d a) = list_to_set a ∪ dom d.
Proof.
  revert d. induction a as [|t a IH]; intros d; simpl.
  - set_solver.
  - rewrite IH, dom_insert_absent. set_solver.
Qed.

Lemma foldl_insert_absent_present d a :
  (∀ x, x ∈ a → is_Some (d !! x)) → foldl insert_absent d a = d.
Proof.
  induction a as [|t a IH]; intros Ha; simpl; [done|].
  rewrite insert_absent_present by (apply Ha; left).
  apply IH. intros x Hx. apply Ha. by right.
Qed.

Lemma table_elems s : dom (table s) = elems s.
Proof. destruct s as [[d|]]; unfold table, elems; simpl; set_solver. Qed.

Lemma has_table s x : has s x = true ↔ is_Some (table s !! x).
Proof. by rewrite has_elems, <- table_elems, elem_of_dom. Qed.

Lemma has_data s x : has s x = true → data s = Some (table s).
Proof. destruct s as [[d|]]; [done|]. unfold has; simpl. done. Qed.

Lemma add_elems s t s' : add s t = Ok s' → elems s' = {[t]} ∪ elems s.
Proof.
  rewrite add_table. intros [= <-]. unfold elems; simpl.
  by rewrite dom_insert_absent, table_elems.
Qed.

Lemma addSlice_elems s a s' :
  addSlice s a = Ok s' → elems s' = list_to_set a ∪ elems s.
Proof.
  rewrite addSlice_table. intros [= <-]. unfold elems; simpl.
  by rewrite dom_foldl_insert_absent, table_elems.
Qed.

Lemma add_total s t : ∃ s', add s t = Ok s'.
Proof. rewrite add_table. eauto. Qed.

Lemma addSlice_total s a : ∃ s', addSlice s a = Ok s'.
Proof. rewrite addSlice_table. eauto. Qed.

Lemma add_present s t : has s t = true → add s t = Ok s.
Proof.
  intros Hs. rewrite add_table.
  rewrite insert_absent_present by by apply has_table.
  destruct s as [ds]. simpl in *. f_equal. f_equal.
  symmetry. by apply (has_data {| data := ds |} t).
Qed.

Lemma addSlice_present s a :
  a ≠ [] → (∀ x, x ∈ a → has s x = true) → addSlice s a = Ok s.
Proof.
  intros Hne Ha. rewrite addSlice_table.
  rewrite foldl_insert_absent_present
    by (intros x Hx; by apply has_table, Ha).
  destruct a as [|t a]; [done|].
  destruct s as [ds]. simpl in *. f_equal. f_equal.
  symmetry. apply (has_data {| data := ds |} t), Ha. by left.
Qed.

End HashSetFacts.

(** C8. [add] and [addSlice] insert an item only when it is absent and
    are idempotent: adding twice gives the same set as adding once, and
    adding what is already present leaves the set as it was. *)
Theorem add_idempotent (s : hashSet) (t : string) (a : list string) :
  (add s t ≫= λ s', add s' t) = add s t
  ∧ (has s t = true → add s t = Ok s)
  ∧ (has s t = false →
     ∃ s', add s t = Ok s' ∧ elems s' = {[t]} ∪ elems s
           ∧ size s' = S (size s))
  ∧ (addSlice s a ≫= λ s', addSlice s' a) = addSlice s a
  ∧ ((∀ x, x ∈ a → has s x = true) → a ≠ [] → addSlice s a = Ok s)
  ∧ ((∀ x, x ∈ a → has s x = true) →
     ∃ s', addSlice s a = Ok s' ∧ elems s' = elems s ∧ size s' = size s).
Proof.
  repeat split.
  - destruct (add_total s t) as [s' Hs']. rewrite Hs'. simpl.
    unfold mbind, outcome_bind. apply add_present.
    apply has_elems. rewrite (add_elems _ _ _ Hs'). set_solver.
  - apply add_present.
  - intros Habs. destruct (add_total s t) as [s' Hs']. exists s'.
    pose proof (add_elems _ _ _ Hs') as He.
    split; [done|]. split; [done|].
    rewrite !size_elems, He. apply has_false_elems in Habs.
    rewrite size_union by set_solver. by rewrite size_singleton.
  - destruct (addSlice_total s a) as [s' Hs']. rewrite Hs'.
    unfold mbind, outcome_bind.
    pose proof (addSlice_elems _ _ _ Hs') as He.
    destruct a as [|t0 a].
    + rewrite addSlice_table in Hs'. injection Hs' as <-.
      by rewrite addSlice_table.
    + apply addSlice_present; [done|]. intros x Hx.
      apply has_elems. rewrite He. set_solver.
  - intros Ha Hne. by apply addSlice_present.
  - intros Ha. destruct (addSlice_total s a) as [s' Hs']. exists s'.
    pose proof (addSlice_elems _ _ _ Hs') as He.
    assert (elems s' = elems s) as Heq.
    { rewrite He. apply set_eq. intros x.
      rewrite elem_of_union, elem_of_list_to_set. split; [|by right].
      intros [Hx|Hx]; [|done]. by apply has_elems, Ha. }
    split; [done|]. split; [done|]. by rewrite !size_elems, Heq.
Qed.

Lemma add_idempotent_witness :
  has {| data := Some {[ "u" := true ]} |} "u" = true
  ∧ add {| data := Some {[ "u" := true ]} |} "u"
    = Ok {| data := Some {[ "u" := true ]} |}.
Proof.
  split; [reflexivity|].
  apply (proj1 (proj2
    (add_idempotent {| data := Some {[ "u" := true ]} |} "u" []))).
  reflexivity.
Defined.

(** C9. After any sequence of [add] / [addSlice] calls, [has x] is true
    for every [x] one of the calls passed. *)
Theorem has_after_calls (s : hashSet) (cs : list set_call) (x : string) :
  Exists (λ c, passes c x) cs →
  ∃ s', run_calls s cs = Ok s' ∧ has s' x = true.
Proof.
  assert (∀ cs s, ∃ s', run_calls s cs = Ok s' ∧ elems s ⊆ elems s') as Hmono.
  { clear. induction cs as [|c cs IH]; intros s; simpl.
    - exists s. split; [done|set_solver].
    - assert (∃ s1, run_call s c = Ok s1 ∧ elems s ⊆ elems s1)
        as (s1 & H1 & Hs1).
      { destruct c as [t|a]; simpl.
        - destruct (add_total s t) as [s1 H1]. exists s1. split; [done|].
          rewrite (add_elems _ _ _ H1). set_solver.
        - destruct (addSlice_total s a) as [s1 H1]. exists s1. split; [done|].
          rewrite (addSlice_elems _ _ _ H1). set_solver. }
      rewrite H1. simpl. destruct (IH s1) as (s' & Hs' & Hsub).
      exists s'. split; [done|]. set_solver. }
  intros Hex. revert s. induction Hex as [c cs Hc|c cs Hex IH]; intros s; simpl.
  - assert (∃ s1, run_call s c = Ok s1 ∧ x ∈ elems s1) as (s1 & H1 & Hx).
    { destruct c as [t|a]; simpl in *.
      - destruct (add_total s t) as [s1 H1]. exists s1. split; [done|].
        rewrite (add_elems _ _ _ H1). set_solver.
      - destruct (addSlice_total s a) as [s1 H1]. exists s1. split; [done|].
        rewrite (addSlice_elems _ _ _ H1). set_solver. }
    rewrite H1. simpl. destruct (Hmono cs s1) as (s' & Hs' & Hsub).
    exists s'. split; [done|]. apply has_elems. set_solver.
  - assert (∃ s1, run_call s c = Ok s1) as [s1 H1].
    { destruct c as [t|a]; simpl; [apply add_total|apply addSlice_total]. }
    rewrite H1. simpl. apply IH.
Qed.

Lemma has_after_calls_witness :
  ∃ s', run_calls zero_hashSet [CallAdd "p"; CallAddSlice ["q"; "r"]] = Ok s'
        ∧ has s' "q" = true.
Proof.
  apply (has_after_calls zero_hashSet
           [CallAdd "p"; CallAddSlice ["q"; "r"]] "q").
  apply Exists_cons_tl, Exists_cons_hd. simpl.
  apply list_elem_of_here.
Defined.

(** C10. Every operation is defined on the zero-value set: [has] is
    false, [size] is 0, [slice] is empty, and [add] / [addSlice] create
    the table before the first insert, so they return instead of
    panicking on the nil map. *)
Theorem zero_value_total (t : string) (a : list string) :
  has zero_hashSet t = false
  ∧ size zero_hashSet = 0
  ∧ slice zero_hashSet = []
  ∧ add_entry zero_hashSet t = Panic "assignment to entry in nil map"
  ∧ (∃ s', add zero_hashSet t = Ok s' ∧ has s' t = true ∧ size s' = 1
           ∧ elems s' = {[t]})
  ∧ (∃ s', addSlice zero_hashSet a = Ok s' ∧ is_nil (data s') = false
           ∧ elems s' = list_to_set a).
Proof.
  split; [done|]. split; [done|]. split; [done|]. split; [done|]. split.
  - destruct (add_total zero_hashSet t) as [s' Hs']. exists s'.
    pose proof (add_elems _ _ _ Hs') as He.
    assert (elems s' = {[t]}) as He' by (rewrite He; set_solver).
    split; [done|]. split; [|split; [|done]].
    + apply has_elems. rewrite He'. set_solver.
    + by rewrite size_elems, He', size_singleton.
  - exists {| data := Some (foldl insert_absent ∅ a) |}.
    split; [by rewrite addSlice_table|]. split; [done|].
    unfold elems; simpl. rewrite dom_foldl_insert_absent. set_solver.
Qed.

(** ** The scheduler *)

Section SchedulerFacts.

Context {T H : Type}.
Implicit Types (s : Scheduler T H) (tasks : list T).

Lemma Dispatch_queue s tasks :
  inputQueue (Dispatch s tasks) = inputQueue s ++ tasks.
Proof.
  revert s. induction tasks as [|t tasks IH]; intros s; simpl.
  - by rewrite app_nil_r.
  - rewrite IH. simpl. by rewrite <- app_assoc.
Qed.

Lemma Dispatch_set_queue s tasks :
  Dispatch s tasks = set_queue s (inputQueue s ++ tasks).
Proof.
  revert s. induction tasks as [|t tasks IH]; intros s; simpl.
  - destruct s. unfold set_queue. simpl. by rewrite app_nil_r.
  - rewrite IH. unfold enqueue, set_queue. simpl. by rewrite <- app_assoc.
Qed.

Lemma NewScheduler_negative (o : SchedulerOptions) :
  (MaxWorkers o < 0)%Z →
  NewScheduler (T:=T) (H:=H) o = Panic "makechan: size out of range".
Proof.
  intros Hneg. unfold NewScheduler, make_chan.
  apply Z.ltb_lt in Hneg. by rewrite Hneg.
Qed.

Lemma NewScheduler_nonnegative (o : SchedulerOptions) :
  (0 ≤ MaxWorkers o)%Z →
  NewScheduler (T:=T) (H:=H) o
  = Ok {| WorkerState := MaxWorkers o; workers := [];
          workerPool := MaxWorkers o; quit := false; sched_handler := None;
          inputQueue := []; sched_opts := o |}.
Proof.
  intros Hpos. unfold NewScheduler, make_chan.
  apply Z.ltb_ge in Hpos. by rewrite Hpos.
Qed.

(** After [Stop] the dispatch loop returns at its next pass. *)
Lemma Stop_ends_run s (idle : nat) : run_once (Stop s) idle = Ok RunReturn.
Proof. reflexivity. Qed.

End SchedulerFacts.

(** C2. [Dispatch] appends each task to the input queue and never waits
    for a lock; but [enqueue] reads and writes the queue outside
    [inputQueueLock], so two callers can overwrite each other: both
    calls finish and one task is gone. *)
Theorem dispatch_unsynchronised :
  (∀ (s : Scheduler string handler_ref) tasks,
     inputQueue (Dispatch s tasks) = inputQueue s ++ tasks)
  ∧ (∀ (st : qstate string) tasks,
       is_Some (qthread_step st (DispatchLoop tasks)))
  ∧ (∀ (st : qstate string) old t tasks,
       is_Some (qthread_step st (EnqueueStore old t tasks)))
  ∧ (∃ st ths,
       qrun {| q_queue := []; q_locked := false |}
            [DispatchLoop ["https://a.test/x"];
             DispatchLoop ["https://a.test/y"]]
            [0; 1; 0; 1; 0; 1]
       = Ok (st, ths)
       ∧ all_finished ths = true
       ∧ q_queue st = ["https://a.test/y"]).
Proof.
  split; [apply Dispatch_queue|]. split; [|split].
  - intros st [|t tasks]; simpl; eauto.
  - intros st old t tasks. simpl. eauto.
  - eexists _, _. split; [reflexivity|]. by split.
Qed.

(** C4, as the code has it.  [Start] panics when no handler is bound,
    and a negative worker count makes [NewScheduler] panic in [make];
    a count of zero is accepted, and [Start] then launches the dispatch
    loop with no worker. *)
Theorem configuration_errors (T H : Type) :
  (∀ s : Scheduler T H,
     sched_handler s = None → Start s = Panic "scheduler missing handler")
  ∧ (∀ o : SchedulerOptions,
       (0 ≤ MaxWorkers o)%Z →
       (NewScheduler (T:=T) (H:=H) o ≫= Start)
       = Panic "scheduler missing handler")
  ∧ (∀ o : SchedulerOptions,
       (MaxWorkers o < 0)%Z →
       NewScheduler (T:=T) (H:=H) o = Panic "makechan: size out of range")
  ∧ (∀ o : SchedulerOptions,
       (0 ≤ MaxWorkers o)%Z → is_ok (NewScheduler (T:=T) (H:=H) o) = true)
  ∧ (∀ (o : SchedulerOptions) (h : H),
       MaxWorkers o = 0%Z →
       ∃ s, NewScheduler (T:=T) o = Ok s
            ∧ workers (WithHandler s h) = []
            ∧ Start (WithHandler s h) = Ok [GoRun]).
Proof.
  split; [|split; [|split; [|split]]].
  - intros s Hs. unfold Start. by rewrite Hs.
  - intros o Ho. by rewrite NewScheduler_nonnegative.
  - apply NewScheduler_negative.
  - intros o Ho. by rewrite NewScheduler_nonnegative.
  - intros o h Ho. eexists. split.
    + apply NewScheduler_nonnegative. lia.
    + unfold WithHandler, Start. simpl. rewrite Ho. by split.
Qed.

Lemma configuration_errors_witness :
  (MaxWorkers {| MaxWorkers := -1; Interactive := false |} < 0)%Z
  ∧ NewScheduler (T:=string) (H:=handler_ref)
      {| MaxWorkers := -1; Interactive := false |}
    = Panic "makechan: size out of range".
Proof.
  split; [reflexivity|].
  apply (proj1 (proj2 (proj2 (configuration_errors string handler_ref)))).
  reflexivity.
Defined.

(** C4 as stated fails for a worker count of zero: nothing rejects it,
    the scheduler is built and started. *)
Lemma zero_workers_not_fatal :
  (MaxWorkers {| MaxWorkers := 0; Interactive := false |} ≤ 0)%Z
  ∧ (NewScheduler (T:=string) {| MaxWorkers := 0; Interactive := false |}
       ≫= λ s, Start (WithHandler s crawler_handler))
    = Ok [GoRun].
Proof. split; [reflexivity|]. reflexivity. Qed.

(** ** The loop of [run] *)



(** With a signal already waiting on [c.quit] the send of a quiescent
    tick cannot complete. *)
Lemma run_send_blocks (o : CrawlerOptions) sig v k rest :
  quiescent_sizes v k = true →
  run o (Some sig) (Tick v k :: rest) = SendBlocked.
Proof. intros Hq. simpl. by rewrite Hq. Qed.



(** ** The handler *)

Lemma nonVisited_filter (vis links : list string) :
  nonVisited vis links = filter (λ l, l ∉ vis) links.
Proof.
  induction links as [|l links IH]; simpl; [done|].
  unfold slices_Contains. rewrite filter_cons.
  destruct (decide (l ∈ vis)) as [Hl|Hl].
  - rewrite bool_decide_eq_true_2 by done.
    rewrite decide_False by (intros Hn; by apply Hn). done.
  - rewrite bool_decide_eq_false_2 by done.
    rewrite decide_True by done. by rewrite IH.
Qed.

Lemma elem_of_nonVisited (vis links : list string) (x : string) :
  x ∈ nonVisited vis links ↔ x ∈ links ∧ x ∉ vis.
Proof. rewrite nonVisited_filter, list_elem_of_filter. tauto. Qed.

(** Leaving out the completed links changes nothing in the discovered
    set once every completed task is a discovered one. *)
Lemma nonVisited_same_cache (c : Crawler) (links : list string) ch ch' :
  elems (visited c) ⊆ elems (cache c) →
  addSlice (cache c) (nonVisited (slice (visited c)) links) = Ok ch →
  addSlice (cache c) links = Ok ch' →
  elems ch = elems ch'.
Proof.
  intros Hsub Hch Hch'.
  rewrite (addSlice_elems _ _ _ Hch), (addSlice_elems _ _ _ Hch').
  apply set_eq. intros l.
  rewrite !elem_of_union, !elem_of_list_to_set, elem_of_nonVisited.
  rewrite slice_elems. split; [tauto|].
  intros [Hl|Hl]; [|by right].
  destruct (decide (l ∈ elems (visited c))); [right; by apply Hsub|by left].
Qed.

Section HandlerFacts.

Variable ParseLinks : string → ParserOutput * option string.

Lemma handler_completed (c : Crawler) (input : string) :
  has (visited c) input = true → handler ParseLinks c input = Ok c.
Proof. intros Hv. unfold handler. by rewrite Hv. Qed.

Lemma handler_failure (c : Crawler) (input : string) output e :
  has (visited c) input = false →
  ParseLinks input = (output, Some e) →
  handler ParseLinks c input
  = Ok (set_visited c
          {| data := Some (insert_absent (table (visited c)) input) |}).
Proof.
  intros Hv Hp. unfold handler. rewrite Hv, Hp, add_table. done.
Qed.

Lemma handler_success (c : Crawler) (input : string) output :
  has (visited c) input = false →
  ParseLinks input = (output, None) →
  let v := {| data := Some (insert_absent (table (visited c)) input) |} in
  let new := nonVisited (slice v) (Links output) in
  handler ParseLinks c input
  = Ok {| scheduler := Dispatch (scheduler c) (Links output);
          cache :=
            {| data := Some (foldl insert_absent (table (cache c)) new) |};
          visited := v;
          opts := opts c;
          result := result c ++ [new_result input output];
          quit_chan := quit_chan c |}.
Proof.
  intros Hv Hp. unfold handler. rewrite Hv, Hp, add_table. simpl.
  by rewrite addSlice_table.
Qed.

Lemma handler_total (c : Crawler) (input : string) :
  ∃ c', handler ParseLinks c input = Ok c'.
Proof.
  destruct (has (visited c) input) eqn:Hv.
  - rewrite handler_completed by done. eauto.
  - destruct (ParseLinks input) as [output [e|]] eqn:Hp.
    + erewrite handler_failure by done. eauto.
    + erewrite handler_success by done. eauto.
Qed.

End HandlerFacts.

(** C1, at the input where the code departs from it.  The crawler has
    completed [a] and [/x] and holds their records; the handler runs on
    [/y], whose page links to [/x].  It appends one record and finds no link missing from the
    snapshot of the completed set, so nothing is added to the
    discovered set; yet [/x] is put on the scheduler's queue, because
    [Dispatch] is given [output.Links] and not [nonVisitedLinks]. *)
Theorem handler_redispatches_completed_link :
  let visited0 := {| data := Some {[ Site.a := true; Site.x := true ]} |} in
  let cache0 :=
    {| data := Some {[ Site.a := true; Site.x := true; Site.y := true ]} |} in
  let c := crawler_of {| sh_cache := cache0; sh_visited := visited0;
                         sh_result := take 2 Site.three_records;
                         sh_queue := [] |} in
  ∃ c', handler Site.fetch c Site.y = Ok c'
        ∧ result c' = Site.three_records
        ∧ nonVisited (slice (visited c')) [Site.x] = []
        ∧ cache c' = cache0
        ∧ inputQueue (scheduler c') = [Site.x].
Proof.
  eexists. split; [vm_compute; reflexivity|].
  repeat split; vm_compute; reflexivity.
Qed.

(** ** The crawl as a transition system *)

Lemma dequeue_Ok {T H} (s : Scheduler T H) t s' :
  dequeue s = Ok (t, s') →
  ∃ q, inputQueue s = t :: q ∧ s' = set_queue s q.
Proof.
  unfold dequeue. destruct (inputQueue s) as [|t0 q]; [done|].
  intros [= <- <-]. eauto.
Qed.

Lemma discovered_ok_mono (d d' : gset string) th :
  d ⊆ d' → discovered_ok d th → discovered_ok d' th.
Proof.
  intros Hd. destruct th; simpl; try done; set_solver.
Qed.

Lemma elem_of_put_thread run1 (th' : option hthread) run2 th0 :
  th0 ∈ put_thread run1 th' run2 ↔ th0 ∈ run1 ∨ th' = Some th0 ∨ th0 ∈ run2.
Proof.
  unfold put_thread. rewrite !elem_of_app.
  destruct th' as [th1|]; simpl.
  - rewrite list_elem_of_singleton. naive_solver.
  - rewrite elem_of_nil. naive_solver.
Qed.

Lemma dispatching_outstanding tasks t :
  t ∈ tasks → ∃ th, dispatching tasks = Some th ∧ outstanding th t.
Proof.
  destruct tasks as [|t0 tasks]; [by intros ?%elem_of_nil|].
  intros Ht. by exists (HDispatch (t0 :: tasks)).
Qed.

Lemma dispatching_ok d tasks th :
  (∀ l, l ∈ tasks → l ∈ d) → dispatching tasks = Some th → discovered_ok d th.
Proof.
  destruct tasks as [|t0 tasks]; [done|]. by intros Hd [= <-].
Qed.

Section StepFacts.

Variable ParseLinks : string → ParserOutput * option string.

(** An invocation other than the one that moved is still running. *)
Ltac still_outstanding th :=
  right; right; exists th; split; [|done];
  apply elem_of_put_thread; first [by left | right; by right].

Lemma cstep_inv st st' : crawl_inv st → cstep ParseLinks st st' → crawl_inv st'.
Proof.
  intros [Hc Hq Hr Hf] Hstep.
  destruct Hstep as [c t s' run Hdq Hcap|c run1 th run2 c' th' Hth];
    simpl in *.
  - apply dequeue_Ok in Hdq as (q & Hqueue & ->).
    rewrite Hqueue in *.
    split; simpl.
    + done.
    + intros t0 Ht0. apply Hq. by right.
    + intros th [Hth|Hth%list_elem_of_singleton]%elem_of_app.
      * by apply Hr.
      * subst th. simpl. apply Hq. by left.
    + intros t0 Ht0. destruct (Hf t0 Ht0) as [Hv|[Hin|(th & Hth & Hout)]].
      * by left.
      * apply elem_of_cons in Hin as [->|Hin].
        -- right; right. exists (HGuard t). split; [|done].
           apply elem_of_app. right. by left.
        -- right; left. done.
      * right; right. exists th. split; [|done]. apply elem_of_app. by left.
  - assert (∀ th0, th0 ∈ run1 ∨ th0 ∈ run2 → th0 ∈ run1 ++ th :: run2)
      as Hrest.
    { intros th0 [?|?]; apply elem_of_app; [by left|right; by right]. }
    assert (th ∈ run1 ++ th :: run2) as Hin
      by (apply elem_of_app; right; left).
    pose proof (Hr th Hin) as Hok.
    destruct th as [input|input|input output|output|output nv|tasks];
      simpl in *.
    + (* HGuard *)
      injection Hth as <- <-. split; simpl; [done|done| |].
      * intros th0 [H0|[H0|H0]]%elem_of_put_thread;
          [by apply Hr, Hrest; left| |by apply Hr, Hrest; right].
        destruct (has (visited c) input); [done|]. by injection H0 as <-.
      * intros t0 Ht0. destruct (Hf t0 Ht0) as [Hv|[Hi|(th & Hth & Hout)]];
          [by left|by right; left|].
        apply elem_of_app in Hth as [Hth|[->|Hth]%elem_of_cons].
        -- still_outstanding th.
        -- simpl in Hout. subst t0.
           destruct (has (visited c) input) eqn:Hhas.
           ++ left. by apply has_elems.
           ++ right; right. exists (HFetch input). split; [|done].
              apply elem_of_put_thread. right; by left.
        -- still_outstanding th.
    + (* HFetch *)
      destruct (ParseLinks input) as [output err].
      destruct (add_total (visited c) input) as [v Hv]. rewrite Hv in Hth.
      simpl in Hth. injection Hth as <- <-.
      pose proof (add_elems _ _ _ Hv) as Hev.
      split; simpl.
      * rewrite Hev. set_solver.
      * done.
      * intros th0 [H0|[H0|H0]]%elem_of_put_thread;
          [by apply Hr, Hrest; left| |by apply Hr, Hrest; right].
        destruct err; [done|]. by injection H0 as <-.
      * intros t0 Ht0. destruct (Hf t0 Ht0) as [Hv0|[Hi|(th & Hth & Hout)]].
        -- left. rewrite Hev. set_solver.
        -- by right; left.
        -- apply elem_of_app in Hth as [Hth|[->|Hth]%elem_of_cons].
           ++ still_outstanding th.
           ++ simpl in Hout. subst t0. left. rewrite Hev. set_solver.
           ++ still_outstanding th.
    + (* HAppend *)
      injection Hth as <- <-. split; simpl; [done|done| |].
      * intros th0 [H0|[H0|H0]]%elem_of_put_thread;
          [by apply Hr, Hrest; left| |by apply Hr, Hrest; right].
        by injection H0 as <-.
      * intros t0 Ht0. destruct (Hf t0 Ht0) as [Hv|[Hi|(th & Hth & Hout)]];
          [by left|by right; left|].
        apply elem_of_app in Hth as [Hth|[->|Hth]%elem_of_cons]; [|done|].
        -- still_outstanding th.
        -- still_outstanding th.
    + (* HSnapshot *)
      injection Hth as <- <-. split; simpl; [done|done| |].
      * intros th0 [H0|[H0|H0]]%elem_of_put_thread;
          [by apply Hr, Hrest; left| |by apply Hr, Hrest; right].
        injection H0 as <-. simpl. split.
        -- by intros l [? _]%elem_of_nonVisited.
        -- intros l Hl. destruct (decide (l ∈ slice (visited c))) as [Hs|Hs].
           ++ right. apply Hc. by apply slice_elems.
           ++ left. by apply elem_of_nonVisited.
      * intros t0 Ht0. destruct (Hf t0 Ht0) as [Hv|[Hi|(th & Hth & Hout)]];
          [by left|by right; left|].
        apply elem_of_app in Hth as [Hth|[->|Hth]%elem_of_cons]; [|done|].
        -- still_outstanding th.
        -- still_outstanding th.
    + (* HAddCache *)
      destruct (addSlice_total (cache c) nv) as [ch Hch]. rewrite Hch in Hth.
      simpl in Hth. injection Hth as <- <-.
      pose proof (addSlice_elems _ _ _ Hch) as Hech.
      destruct Hok as [Hnv Hlinks].
      assert (elems (cache c) ⊆ elems ch) as Hsub by (rewrite Hech; set_solver).
      split; simpl.
      * set_solver.
      * intros t0 Ht0. by apply Hsub, Hq.
      * intros th0 [H0|[H0|H0]]%elem_of_put_thread.
        -- eapply discovered_ok_mono; [done|]. by apply Hr, Hrest; left.
        -- eapply dispatching_ok; [|done]. intros l Hl.
           rewrite Hech. destruct (Hlinks l Hl); set_solver.
        -- eapply discovered_ok_mono; [done|]. by apply Hr, Hrest; right.
      * intros t0 Ht0. rewrite Hech in Ht0.
        apply elem_of_union in Ht0 as [Ht0|Ht0].
        -- apply elem_of_list_to_set, Hnv in Ht0.
           destruct (dispatching_outstanding _ _ Ht0) as (th & Hd & Hout).
           right; right. exists th. split; [|done].
           apply elem_of_put_thread. right; by left.
        -- destruct (Hf t0 Ht0) as [Hv|[Hi|(th & Hth & Hout)]];
             [by left|by right; left|].
           apply elem_of_app in Hth as [Hth|[->|Hth]%elem_of_cons]; [|done|].
           ++ still_outstanding th.
           ++ still_outstanding th.
    + (* HDispatch *)
      destruct tasks as [|t tasks]; injection Hth as <- <-.
      * split; simpl; [done|done| |].
        -- intros th0 [H0|[H0|H0]]%elem_of_put_thread;
             [by apply Hr, Hrest; left|done|by apply Hr, Hrest; right].
        -- intros t0 Ht0.
           destruct (Hf t0 Ht0) as [Hv|[Hi|(th & Hth & Hout)]];
             [by left|by right; left|].
           apply elem_of_app in Hth as [Hth|[->|Hth]%elem_of_cons].
           ++ still_outstanding th.
           ++ simpl in Hout. by apply elem_of_nil in Hout.
           ++ still_outstanding th.
      * split; simpl.
        -- done.
        -- intros t0 [Ht0|Ht0%list_elem_of_singleton]%elem_of_app.
           ++ by apply Hq.
           ++ subst t0. apply Hok. by left.
        -- intros th0 [H0|[H0|H0]]%elem_of_put_thread;
             [by apply Hr, Hrest; left| |by apply Hr, Hrest; right].
           eapply dispatching_ok; [|done]. intros l Hl. apply Hok. by right.
        -- intros t0 Ht0.
           destruct (Hf t0 Ht0) as [Hv|[Hi|(th & Hth & Hout)]].
           ++ by left.
           ++ right; left. apply elem_of_app. by left.
           ++ apply elem_of_app in Hth as [Hth|[->|Hth]%elem_of_cons].
              ** still_outstanding th.
              ** simpl in Hout. apply elem_of_cons in Hout as [->|Hout].
                 --- right; left. apply elem_of_app. right. by left.
                 --- destruct (dispatching_outstanding _ _ Hout)
                       as (th & Hd & Hout').
                     right; right. exists th. split; [|done].
                     apply elem_of_put_thread. right; by left.
              ** still_outstanding th.
Qed.

Lemma rtc_cstep_inv st st' :
  crawl_inv st → rtc (cstep ParseLinks) st st' → crawl_inv st'.
Proof.
  intros Hinv Hsteps. induction Hsteps as [|st st1 st2 Hstep _ IH]; [done|].
  apply IH. by eapply cstep_inv.
Qed.

Lemma hthread_step_grows c th c' th' :
  hthread_step ParseLinks c th = Ok (c', th') →
  elems (cache c) ⊆ elems (cache c') ∧ elems (visited c) ⊆ elems (visited c').
Proof.
  destruct th as [input|input|input output|output|output nv|[|t tasks]];
    simpl.
  - by intros [= <- <-].
  - destruct (ParseLinks input) as [output err].
    destruct (add_total (visited c) input) as [v Hv]. rewrite Hv. simpl.
    intros [= <- <-]. simpl. rewrite (add_elems _ _ _ Hv). set_solver.
  - by intros [= <- <-].
  - by intros [= <- <-].
  - destruct (addSlice_total (cache c) nv) as [ch Hch]. rewrite Hch. simpl.
    intros [= <- <-]. simpl. rewrite (addSlice_elems _ _ _ Hch). set_solver.
  - by intros [= <- <-].
  - by intros [= <- <-].
Qed.

Lemma cstep_grows st st' :
  cstep ParseLinks st st' →
  elems (cache (crawler st)) ⊆ elems (cache (crawler st'))
  ∧ elems (visited (crawler st)) ⊆ elems (visited (crawler st')).
Proof.
  intros [c t s' run _ _|c run1 th run2 c' th' Hth]; simpl; [done|].
  by eapply hthread_step_grows.
Qed.

Lemma idle_quiescent st :
  crawl_inv st → idle st → quiescent (crawler st) = true.
Proof.
  intros [_ _ _ Hf] [Hq Hr]. unfold quiescent, quiescent_sizes.
  apply bool_decide_eq_true. rewrite !size_elems.
  apply subseteq_size. intros t Ht.
  destruct (Hf t Ht) as [Hv|[Hi|(th & Hth & _)]]; [done| |].
  - rewrite Hq in Hi. by apply elem_of_nil in Hi.
  - rewrite Hr in Hth. by apply elem_of_nil in Hth.
Qed.

(** Running one invocation from its guard to its return, with no other
    goroutine moving, has the effect of [handler]. *)
Lemma dispatch_steps c tasks :
  rtc (cstep ParseLinks)
      {| crawler := c; running := option_list (dispatching tasks) |}
            {| crawler := set_scheduler c (Dispatch (scheduler c) tasks);
               running := [] |}.
Proof.
  revert c. induction tasks as [|t tasks IH]; intros c; simpl.
  - destruct c; apply rtc_refl.
  - eapply rtc_l.
    + apply (step_handler ParseLinks c [] (HDispatch (t :: tasks)) []).
      simpl. reflexivity.
    + unfold put_thread. simpl. rewrite app_nil_r.
      specialize (IH (set_scheduler c (enqueue (scheduler c) t))).
      simpl in IH. apply IH.
Qed.

Lemma handler_steps c input c' :
  handler ParseLinks c input = Ok c' →
  rtc (cstep ParseLinks) {| crawler := c; running := [HGuard input] |}
            {| crawler := c'; running := [] |}.
Proof.
  unfold handler. intros Hh.
  eapply rtc_l.
  { apply (step_handler ParseLinks c [] (HGuard input) []).
    simpl. reflexivity. }
  unfold put_thread. simpl.
  destruct (has (visited c) input).
  { injection Hh as <-. apply rtc_refl. }
  simpl. destruct (ParseLinks input) as [output err] eqn:Hp.
  destruct (add_total (visited c) input) as [v Hv]. rewrite Hv in Hh.
  simpl in Hh.
  eapply rtc_l.
  { apply (step_handler ParseLinks c [] (HFetch input) []). simpl.
    rewrite Hp, Hv. simpl. reflexivity. }
  unfold put_thread. simpl.
  destruct err as [e|].
  { injection Hh as <-. apply rtc_refl. }
  simpl.
  destruct (addSlice_total (cache c) (nonVisited (slice v) (Links output)))
    as [ch Hch].
  rewrite Hch in Hh. simpl in Hh. injection Hh as <-.
  eapply rtc_l.
  { apply (step_handler ParseLinks _ [] (HAppend input output) []).
    simpl. reflexivity. }
  unfold put_thread. simpl.
  eapply rtc_l.
  { apply (step_handler ParseLinks _ [] (HSnapshot output) []).
    simpl. reflexivity. }
  unfold put_thread. simpl.
  eapply rtc_l.
  { apply (step_handler ParseLinks _ [] (HAddCache output _) []).
    simpl. rewrite Hch. simpl. reflexivity. }
  unfold put_thread. simpl. rewrite app_nil_r.
  apply (dispatch_steps
           (set_cache (set_result (set_visited c v)
                         (result c ++ [new_result input output])) ch)
           (Links output)).
Qed.

(** With a worker free, the head of the queue is handled. *)
Lemma crawl_one c t q c' :
  inputQueue (scheduler c) = t :: q →
  (0 < MaxWorkers (sched_opts (scheduler c)))%Z →
  handler ParseLinks (set_scheduler c (set_queue (scheduler c) q)) t = Ok c' →
  rtc (cstep ParseLinks) {| crawler := c; running := [] |}
            {| crawler := c'; running := [] |}.
Proof.
  intros Hq Hw Hh. eapply rtc_l.
  - apply (step_assign ParseLinks c t (set_queue (scheduler c) q) []).
    + unfold dequeue. by rewrite Hq.
    + simpl. lia.
  - simpl. by apply handler_steps.
Qed.

End StepFacts.

Section CrawlFacts.

Variable ParseLinks : string → ParserOutput * option string.
Variable SanitiseUrl : string → string * option string.

Lemma crawl_start_Ok (o : CrawlerOptions) (url : string) (st0 : cstate) :
  crawl_start SanitiseUrl o url = Ok st0 →
  ∃ input,
    SanitiseUrl url = (input, None)
    ∧ (0 ≤ CrMaxWorkers o)%Z
    ∧ st0 = {| crawler :=
                 {| scheduler :=
                      Dispatch
                        (WithHandler
                           {| WorkerState := CrMaxWorkers o; workers := [];
                              workerPool := CrMaxWorkers o; quit := false;
                              sched_handler := None; inputQueue := [];
                              sched_opts :=
                                {| MaxWorkers := CrMaxWorkers o;
                                   Interactive := CrInteractive o |} |}
                           crawler_handler) [input];
                    cache := {| data := Some (insert_absent ∅ input) |};
                    visited := zero_hashSet; opts := o; result := [];
                    quit_chan := None |};
               running := [] |}.
Proof.
  unfold crawl_start, NewCrawler.
  destruct (decide (CrMaxWorkers o < 0)%Z) as [Hneg|Hpos].
  - rewrite NewScheduler_negative by done. done.
  - rewrite NewScheduler_nonnegative by (simpl; lia). simpl.
    unfold Crawl. simpl.
    destruct (SanitiseUrl url) as [input [e|]]; [done|]. simpl.
    intros [= <-]. exists input. split; [done|]. split; [lia|]. done.
Qed.

Lemma crawl_start_inv o url st0 :
  crawl_start SanitiseUrl o url = Ok st0 → crawl_inv st0.
Proof.
  intros (input & _ & _ & ->)%crawl_start_Ok.
  split; simpl.
  - set_solver.
  - intros t Ht. unfold elems; simpl. rewrite dom_insert_absent. set_solver.
  - intros th Hth. by apply elem_of_nil in Hth.
  - intros t Ht. right; left. unfold elems in Ht; simpl in Ht.
    rewrite dom_insert_absent in Ht. set_solver.
Qed.

Lemma reachable_inv o url st :
  reachable ParseLinks SanitiseUrl o url st → crawl_inv st.
Proof.
  intros (st0 & Hstart & Hsteps).
  eapply rtc_cstep_inv; [|done]. by eapply crawl_start_inv.
Qed.


(** C7. [add] and [addSlice] never remove an element, so along a crawl
    the discovered and the completed set only grow; and in every state
    a crawl reaches, each completed task is a discovered one. *)
Theorem sets_grow_completed_discovered :
  (∀ s t s', add s t = Ok s' → elems s ⊆ elems s')
  ∧ (∀ s a s', addSlice s a = Ok s' → elems s ⊆ elems s')
  ∧ (∀ st st',
       rtc (cstep ParseLinks) st st' →
       elems (cache (crawler st)) ⊆ elems (cache (crawler st'))
       ∧ elems (visited (crawler st)) ⊆ elems (visited (crawler st')))
  ∧ (∀ o url st t,
       reachable ParseLinks SanitiseUrl o url st →
       has (visited (crawler st)) t = true →
       has (cache (crawler st)) t = true).
Proof.
  split; [|split; [|split]].
  - intros s t s' Hs'. rewrite (add_elems _ _ _ Hs'). set_solver.
  - intros s a s' Hs'. rewrite (addSlice_elems _ _ _ Hs'). set_solver.
  - intros st st' Hsteps.
    induction Hsteps as [st|st st1 st2 Hstep _ IH]; [done|].
    apply cstep_grows in Hstep. set_solver.
  - intros o url st t Hreach Ht.
    apply has_elems. apply has_elems in Ht.
    by apply (inv_completed _ (reachable_inv _ _ _ Hreach)).
Qed.

End CrawlFacts.


(** The seed of the three-page site, handled by the one worker. *)
Lemma site_seed_handled :
  ∃ st, reachable Site.fetch Site.sanitise Site.one_worker Site.a st
        ∧ has (visited (crawler st)) Site.a = true.
Proof.
  eexists. split.
  - eexists. split; [vm_compute; reflexivity|].
    eapply crawl_one; [reflexivity|simpl; lia|vm_compute; reflexivity].
  - vm_compute. reflexivity.
Qed.

Lemma sets_grow_completed_discovered_witness :
  ∃ st, reachable Site.fetch Site.sanitise Site.one_worker Site.a st
        ∧ has (visited (crawler st)) Site.a = true
        ∧ has (cache (crawler st)) Site.a = true.
Proof.
  destruct site_seed_handled as (st & Hreach & Hv).
  exists st. split; [exact Hreach|]. split; [exact Hv|].
  exact (proj2 (proj2 (proj2
           (sets_grow_completed_discovered Site.fetch Site.sanitise)))
           Site.one_worker Site.a st Site.a Hreach Hv).
Defined.

(** ** The three-page site, all interleavings *)


Lemma cstep_sched_opts ParseLinks st st' :
  cstep ParseLinks st st' →
  sched_opts (scheduler (crawler st')) = sched_opts (scheduler (crawler st)).
Proof.
  intros [c t s' run Hdq _|c run1 th run2 c' th' Hth]; simpl.
  - apply dequeue_Ok in Hdq as (q & _ & ->). done.
  - destruct th as [input|input|input output|output|output nv|[|t tasks]];
      simpl in Hth.
    + by injection Hth as <- <-.
    + destruct (ParseLinks input) as [output err].
      rewrite add_table in Hth. simpl in Hth. by injection Hth as <- <-.
    + by injection Hth as <- <-.
    + by injection Hth as <- <-.
    + rewrite addSlice_table in Hth. simpl in Hth. by injection Hth as <- <-.
    + by injection Hth as <- <-.
    + by injection Hth as <- <-.
Qed.

Section Simulation.

Variable ParseLinks : string → ParserOutput * option string.
Variable cap : option nat.





End Simulation.







(** The quiescence test can pass while work is outstanding: between
    [c.visited.add(input)] and [c.cache.addSlice(nonVisitedLinks)] of
    the seed's handler both sets hold one element. *)
Lemma site_early_quiescence :
  ∃ st, reachable Site.fetch Site.sanitise Site.one_worker Site.a st
        ∧ quiescent (crawler st) = true
        ∧ running st ≠ []
        ∧ result (crawler st) = [].
Proof.
  eexists. split; [|split; [|split]].
  - eexists. split; [vm_compute; reflexivity|].
    eapply rtc_l.
    { eapply (step_assign Site.fetch _ _ _ []);
        [vm_compute; reflexivity|simpl; lia]. }
    eapply rtc_l.
    { eapply (step_handler Site.fetch _ [] (HGuard Site.a) []).
      vm_compute. reflexivity. }
    eapply rtc_l; [|apply rtc_refl].
    eapply (step_handler Site.fetch _ [] (HFetch Site.a) []).
    vm_compute. reflexivity.
  - vm_compute. reflexivity.
  - discriminate.
  - reflexivity.
Qed.


(** * More of hash_set.go *)

Section HashSetLaws.

Implicit Types (s : hashSet) (a b : list string) (t x : string)
  (d : gmap string bool).

Lemma foldl_insert_absent_lookup d a x :
  foldl insert_absent d a !! x
  = match d !! x with
    | Some v => Some v
    | None => if bool_decide (x ∈ a) then Some true else None
    end.
Proof.
  revert d. induction a as [|t a IH]; intros d; simpl.
  - by destruct (d !! x).
  - rewrite IH. unfold insert_absent.
    destruct (decide (x = t)) as [->|Hne].
    + destruct (d !! t) as [v|] eqn:Hd.
      * by rewrite Hd.
      * rewrite lookup_insert_eq. rewrite bool_decide_eq_true_2; [done|].
        apply list_elem_of_here.
    + assert ((match d !! t with Some _ => d | None => <[t:=true]> d end) !! x
              = d !! x) as ->.
      { destruct (d !! t); [done|]. by rewrite lookup_insert_ne. }
      destruct (d !! x); [done|].
      rewrite (bool_decide_ext (x ∈ t :: a) (x ∈ a)); [done|].
      rewrite elem_of_cons. naive_solver.
Qed.

Lemma foldl_insert_absent_perm d a b :
  a ≡ₚ b → foldl insert_absent d a = foldl insert_absent d b.
Proof.
  intros Hab. apply map_eq. intros x. rewrite !foldl_insert_absent_lookup.
  destruct (d !! x); [done|].
  rewrite (bool_decide_ext (x ∈ a) (x ∈ b)); [done|]. by rewrite Hab.
Qed.

Lemma size_foldl_insert_absent d a :
  base.size d ≤ base.size (foldl insert_absent d a) ≤ base.size d + length a.
Proof.
  revert d. induction a as [|t a IH]; intros d; simpl; [lia|].
  specialize (IH (insert_absent d t)).
  assert (base.size d ≤ base.size (insert_absent d t) ≤ S (base.size d))
    as Ht.
  { unfold insert_absent. destruct (d !! t) eqn:Hd; [lia|].
    rewrite map_size_insert_None by done. lia. }
  lia.
Qed.

Lemma size_foldl_insert_absent_new d a :
  NoDup a → (∀ x, x ∈ a → d !! x = None) →
  base.size (foldl insert_absent d a) = base.size d + length a.
Proof.
  revert d. induction a as [|t a IH]; intros d Hnd Hnew; simpl; [lia|].
  apply NoDup_cons in Hnd as [Hta Hnd].
  assert (insert_absent d t = <[t := true]> d) as ->.
  { unfold insert_absent. rewrite Hnew; [done|]. apply list_elem_of_here. }
  rewrite IH; [| done |].
  - rewrite map_size_insert_None; [lia|]. apply Hnew, list_elem_of_here.
  - intros x Hx. rewrite lookup_insert_ne by (intros ->; done).
    by apply Hnew, list_elem_of_further.
Qed.

Lemma table_lookup_None s x : has s x = false → table s !! x = None.
Proof.
  intros Hx. destruct (table s !! x) as [v|] eqn:Hl; [|done].
  assert (has s x = true) as Ht by (apply has_table; eauto). congruence.
Qed.

End HashSetLaws.

(** X1. [slice], [has] and [size] agree: [slice] lists each element of
    the set once, its length is [size], and [slices.Contains] on it is
    [has].  So the loop of [handler] over the snapshot keeps, in order,
    the links the set does not hold. *)
Theorem slice_has_size_agree (s : hashSet) (links : list string) :
  NoDup (slice s)
  ∧ (∀ x, x ∈ slice s ↔ has s x = true)
  ∧ length (slice s) = size s
  ∧ (∀ x, slices_Contains (slice s) x = has s x)
  ∧ nonVisited (slice s) links = filter (λ l, has s l = false) links.
Proof.
  assert (∀ x, slices_Contains (slice s) x = has s x) as Hc.
  { intros x. unfold slices_Contains.
    destruct (has s x) eqn:Hx.
    - apply bool_decide_eq_true_2. by apply slice_elems, has_elems.
    - apply bool_decide_eq_false_2. rewrite slice_elems.
      by apply has_false_elems. }
  split; [apply slice_NoDup|]. split; [|split; [|split; [done|]]].
  - intros x. by rewrite slice_elems, has_elems.
  - destruct s as [[d|]]; unfold slice, size; simpl; [|done].
    by rewrite length_fmap, length_map_to_list.
  - induction links as [|l links IH]; simpl; [done|].
    rewrite Hc, IH. rewrite filter_cons.
    destruct (has s l); [by rewrite decide_False|by rewrite decide_True].
Qed.

(** X2. [addSlice] is [add] on each element in turn: it splits over a
    concatenation and over a first element, on one element it is [add],
    and the order of the elements does not matter.  The size grows by at
    most the length of the slice, and by exactly that when the elements
    are new and distinct. *)
Theorem addSlice_is_repeated_add (s : hashSet) (a b : list string)
    (t : string) :
  addSlice s (a ++ b) = (addSlice s a ≫= λ s', addSlice s' b)
  ∧ addSlice s (t :: a) = (add s t ≫= λ s', addSlice s' a)
  ∧ addSlice s [t] = add s t
  ∧ (a ≡ₚ b → addSlice s a = addSlice s b)
  ∧ (∀ s', addSlice s a = Ok s' →
       size s ≤ size s' ≤ size s + length a
       ∧ (NoDup a → (∀ x, x ∈ a → has s x = false) →
          size s' = size s + length a)).
Proof.
  split; [|split; [|split; [|split]]].
  - rewrite !addSlice_table. simpl. unfold mbind, outcome_bind.
    rewrite addSlice_table. simpl. by rewrite foldl_app.
  - rewrite addSlice_table, add_table. simpl. unfold mbind, outcome_bind.
    by rewrite addSlice_table.
  - by rewrite addSlice_table, add_table.
  - intros Hab. rewrite !addSlice_table.
    by rewrite (foldl_insert_absent_perm _ _ _ Hab).
  - intros s'. rewrite addSlice_table. intros [= <-].
    assert (size s = base.size (table s)) as Hs.
    { destruct s as [[d|]]; unfold size, table; simpl; [done|].
      by rewrite map_size_empty. }
    rewrite Hs.
    change (size {| data := Some (foldl insert_absent (table s) a) |})
      with (base.size (foldl insert_absent (table s) a)).
    split.
    + apply size_foldl_insert_absent.
    + intros Hnd Hnew. apply size_foldl_insert_absent_new; [done|].
      intros x Hx. by apply table_lookup_None, Hnew.
Qed.

(** * More of crawler.go: what a crawl visits and records *)

Section PagesFacts.

Variable ParseLinks : string → ParserOutput * option string.

Lemma page_ok_mono (vis vis' : gset string) th :
  vis ⊆ vis' → page_ok ParseLinks vis th → page_ok ParseLinks vis' th.
Proof.
  intros Hv. destruct th; simpl; try done.
  - intros [? ?]. split; [set_solver|done].
  - intros (u & ? & ?). exists u. split; [set_solver|done].
  - intros (u & ? & ?). exists u. split; [set_solver|done].
Qed.

Lemma dispatching_held tasks th :
  dispatching tasks = Some th → held_page th = None.
Proof. destruct tasks; [done|]. by intros [= <-]. Qed.

Lemma dispatching_page_ok vis tasks th :
  dispatching tasks = Some th → page_ok ParseLinks vis th.
Proof. destruct tasks; [done|]. by intros [= <-]. Qed.

Lemma dispatching_not_append tasks u output :
  dispatching tasks ≠ Some (HAppend u output).
Proof. by destruct tasks. Qed.

Ltac other_thread th :=
  exists th; split; [|done];
  apply elem_of_put_thread; first [by left | right; by right].

Lemma cstep_pages seed st st' :
  crawl_inv st → crawl_pages ParseLinks seed st →
  cstep ParseLinks st st' → crawl_pages ParseLinks seed st'.
Proof.
  intros [Hc Hq Hr Hf] [Hseed Hlk Hrun Hrec Hlinks Hrcd] Hstep.
  destruct Hstep as [c t s' run Hdq Hcap|c run1 th run2 c' th' Hth];
    simpl in *.
  - apply dequeue_Ok in Hdq as (q & Hqueue & ->).
    split; simpl; try done.
    + intros th [Hth|Hth%list_elem_of_singleton]%elem_of_app;
        [by apply Hrun|by subst th].
    + intros u output Hu Hp. destruct (Hlinks u output Hu Hp) as [?|(th & ? & ?)];
        [by left|right]. exists th. split; [|done]. apply elem_of_app. by left.
    + intros u output Hu Hp. destruct (Hrcd u output Hu Hp) as [?|?];
        [by left|right]. apply elem_of_app. by left.
  - assert (∀ th0, th0 ∈ run1 ∨ th0 ∈ run2 → th0 ∈ run1 ++ th :: run2)
      as Hrest.
    { intros th0 [?|?]; apply elem_of_app; [by left|right; by right]. }
    assert (th ∈ run1 ++ th :: run2) as Hin
      by (apply elem_of_app; right; left).
    pose proof (Hr th Hin) as Hok. pose proof (Hrun th Hin) as Hpg.
    pose proof (hthread_step_grows ParseLinks _ _ _ _ Hth) as [Hgc Hgv].
    assert (∀ th0, th0 ∈ run1 ∨ th0 ∈ run2 →
                   page_ok ParseLinks (elems (visited c')) th0) as Hothers.
    { intros th0 H0. eapply page_ok_mono; [done|]. by apply Hrun, Hrest. }
    (* links and records of a page held by another invocation stay held *)
    assert (∀ (P : Prop) output,
              (∃ th0, th0 ∈ run1 ++ th :: run2 ∧ held_page th0 = Some output) →
              (held_page th = Some output →
               P ∨ ∃ th0, th0 ∈ put_thread run1 th' run2
                          ∧ held_page th0 = Some output) →
              P ∨ ∃ th0, th0 ∈ put_thread run1 th' run2
                         ∧ held_page th0 = Some output) as Hheld.
    { intros P output (th0 & H0 & Hh) Hself.
      apply elem_of_app in H0 as [H0|[->|H0]%elem_of_cons]; [|by apply Hself|].
      - right. other_thread th0.
      - right. other_thread th0. }
    assert (∀ (P : Prop) u output,
              HAppend u output ∈ run1 ++ th :: run2 →
              (th = HAppend u output →
               P ∨ HAppend u output ∈ put_thread run1 th' run2) →
              P ∨ HAppend u output ∈ put_thread run1 th' run2) as Happ.
    { intros P u output H0 Hself.
      apply elem_of_app in H0 as [H0|[H0|H0]%elem_of_cons];
        [|by apply Hself|].
      - right. apply elem_of_put_thread. by left.
      - right. apply elem_of_put_thread. right; by right. }
    destruct th as [input|input|input output|output|output nv|tasks];
      simpl in Hth.
    + (* HGuard *)
      injection Hth as <- <-. split; simpl; try done.
      * intros th0 [H0|[H0|H0]]%elem_of_put_thread;
          [by apply Hothers; left| |by apply Hothers; right].
        destruct (has (visited c) input); [done|]. by injection H0 as <-.
      * intros u output Hu Hp.
        destruct (Hlinks u output Hu Hp) as [?|Hex]; [by left|].
        apply (Hheld _ _ Hex). done.
      * intros u output Hu Hp.
        destruct (Hrcd u output Hu Hp) as [?|Hex]; [by left|].
        apply (Happ _ _ _ Hex). done.
    + (* HFetch *)
      destruct (ParseLinks input) as [output err] eqn:Hp.
      destruct (add_total (visited c) input) as [v Hv]. rewrite Hv in Hth.
      simpl in Hth. injection Hth as <- <-.
      pose proof (add_elems _ _ _ Hv) as Hev. simpl in *.
      split; simpl; try done.
      * intros th0 [H0|[H0|H0]]%elem_of_put_thread;
          [by apply Hothers; left| |by apply Hothers; right].
        destruct err; [done|]. injection H0 as <-. simpl.
        split; [rewrite Hev; set_solver|done].
      * intros r Hr0. destruct (Hrec r Hr0) as [Hu Hex]. split; [|done].
        by apply Hgv.
      * intros u output' Hu Hp'. rewrite Hev in Hu.
        apply elem_of_union in Hu as [->%elem_of_singleton|Hu].
        -- rewrite Hp in Hp'. injection Hp' as -> ->.
           right. exists (HAppend input output'). split; [|done].
           apply elem_of_put_thread. right; by left.
        -- destruct (Hlinks u output' Hu Hp') as [?|Hex]; [by left|].
           apply (Hheld _ _ Hex). done.
      * intros u output' Hu Hp'. rewrite Hev in Hu.
        apply elem_of_union in Hu as [->%elem_of_singleton|Hu].
        -- rewrite Hp in Hp'. injection Hp' as -> ->.
           right. apply elem_of_put_thread. right; by left.
        -- destruct (Hrcd u output' Hu Hp') as [?|Hex]; [by left|].
           apply (Happ _ _ _ Hex). done.
    + (* HAppend *)
      injection Hth as <- <-. destruct Hpg as [Hiv Hip]. split; simpl; try done.
      * intros th0 [H0|[H0|H0]]%elem_of_put_thread;
          [by apply Hothers; left| |by apply Hothers; right].
        injection H0 as <-. simpl. by exists input.
      * intros r [Hr0|Hr0%list_elem_of_singleton]%elem_of_app;
          [by apply Hrec|].
        subst r. simpl. split; [done|]. by exists output.
      * intros u output' Hu Hp'.
        destruct (Hlinks u output' Hu Hp') as [?|Hex]; [by left|].
        apply (Hheld _ _ Hex). simpl. intros [= ->].
        right. exists (HSnapshot output'). split; [|done].
        apply elem_of_put_thread. right; by left.
      * intros u output' Hu Hp'.
        destruct (Hrcd u output' Hu Hp') as [(r & Hr0 & Hr1)|Hex].
        -- left. exists r. split; [|done]. apply elem_of_app. by left.
        -- apply (Happ _ _ _ Hex). intros [= -> ->].
           left. exists (new_result u output'). split; [|done].
           apply elem_of_app. right. apply list_elem_of_here.
    + (* HSnapshot *)
      injection Hth as <- <-. split; simpl; try done.
      * intros th0 [H0|[H0|H0]]%elem_of_put_thread;
          [by apply Hothers; left| |by apply Hothers; right].
        by injection H0 as <-.
      * intros u output' Hu Hp'.
        destruct (Hlinks u output' Hu Hp') as [?|Hex]; [by left|].
        apply (Hheld _ _ Hex). simpl. intros [= ->].
        right. eexists.
        split; [apply elem_of_put_thread; right; by left|reflexivity].
      * intros u output' Hu Hp'.
        destruct (Hrcd u output' Hu Hp') as [?|Hex]; [by left|].
        apply (Happ _ _ _ Hex). done.
    + (* HAddCache *)
      destruct (addSlice_total (cache c) nv) as [ch Hch]. rewrite Hch in Hth.
      simpl in Hth. injection Hth as <- <-.
      pose proof (addSlice_elems _ _ _ Hch) as Hech. simpl in *.
      destruct Hok as [Hnv Hall]. destruct Hpg as (u0 & Hu0 & Hp0).
      split; simpl.
      * rewrite Hech. set_solver.
      * intros t. rewrite Hech.
        intros [Ht%elem_of_list_to_set|Ht]%elem_of_union; [|by apply Hlk].
        eapply linked_link; [|exact Hp0|by apply Hnv].
        by apply Hlk, Hc.
      * intros th0 [H0|[H0|H0]]%elem_of_put_thread;
          [by apply Hothers; left| |by apply Hothers; right].
        by eapply dispatching_page_ok.
      * done.
      * intros u output' Hu Hp'.
        destruct (Hlinks u output' Hu Hp') as [Hl|Hex].
        { left. intros l Hl0. rewrite Hech. set_solver. }
        apply (Hheld _ _ Hex). simpl. intros [= ->].
        left. intros l Hl0. rewrite Hech.
        destruct (Hall l Hl0); set_solver.
      * intros u output' Hu Hp'.
        destruct (Hrcd u output' Hu Hp') as [?|Hex]; [by left|].
        apply (Happ _ _ _ Hex). done.
    + (* HDispatch *)
      assert (c' = c ∨ ∃ t, c' = set_scheduler c (enqueue (scheduler c) t))
        as Hc'.
      { destruct tasks; injection Hth as <- <-; eauto. }
      assert (th' = None ∨ ∃ tasks', th' = Some (HDispatch tasks')) as Hth'.
      { destruct tasks as [|? [|]]; injection Hth as <- <-; eauto. }
      assert (cache c' = cache c ∧ visited c' = visited c
              ∧ result c' = result c) as (Hec & Hev & Her).
      { destruct Hc' as [->|[t ->]]; done. }
      split; simpl; rewrite ?Hec, ?Hev, ?Her; try done.
      * intros th0 [H0|[H0|H0]]%elem_of_put_thread;
          [rewrite <- Hev; by apply Hothers; left|
          |rewrite <- Hev; by apply Hothers; right].
        destruct Hth' as [->|[tasks' ->]]; [done|]. by injection H0 as <-.
      * intros u output' Hu Hp'.
        destruct (Hlinks u output' Hu Hp') as [?|Hex]; [by left|].
        apply (Hheld _ _ Hex). done.
      * intros u output' Hu Hp'.
        destruct (Hrcd u output' Hu Hp') as [?|Hex]; [by left|].
        apply (Happ _ _ _ Hex). done.
Qed.


Lemma rtc_cstep_pages seed st st' :
  crawl_inv st → crawl_pages ParseLinks seed st →
  rtc (cstep ParseLinks) st st' → crawl_pages ParseLinks seed st'.
Proof.
  intros Hinv Hpg Hsteps. induction Hsteps as [|st st1 st2 Hstep _ IH]; [done|].
  apply IH; [by eapply cstep_inv|by eapply cstep_pages].
Qed.


Variable SanitiseUrl : string → string * option string.

Lemma crawl_start_pages o url seed st0 :
  SanitiseUrl url = (seed, None) →
  crawl_start SanitiseUrl o url = Ok st0 → crawl_pages ParseLinks seed st0.
Proof.
  intros Hs (input & Hs' & _ & ->)%crawl_start_Ok.
  rewrite Hs in Hs'. injection Hs' as <-.
  assert (elems {| data := Some (insert_absent ∅ seed) |} = {[seed]}) as He.
  { unfold elems; simpl. rewrite dom_insert_absent. set_solver. }
  split; simpl; rewrite ?He.
  - set_solver.
  - intros t ->%elem_of_singleton. constructor.
  - by intros th Hth%elem_of_nil.
  - by intros r Hr%elem_of_nil.
  - unfold elems; simpl. set_solver.
  - unfold elems; simpl. set_solver.
Qed.

Lemma reachable_pages o url seed st :
  SanitiseUrl url = (seed, None) →
  reachable ParseLinks SanitiseUrl o url st →
  crawl_inv st ∧ crawl_pages ParseLinks seed st.
Proof.
  intros Hs (st0 & Hst0 & Hsteps). split.
  - eapply rtc_cstep_inv; [|done]. by eapply crawl_start_inv.
  - eapply rtc_cstep_pages; [| |done].
    + by eapply crawl_start_inv.
    + by eapply crawl_start_pages.
Qed.

(** X3. Every Result Record of a crawl belongs to a page that was fetched
    without error: its URL is in the completed set, [ParseLinks]
    succeeds on it, and the record is the one [handler] builds from that
    output, with an empty error and a count equal to the number of its
    links. *)
Theorem records_are_fetched_pages o url st r :
  reachable ParseLinks SanitiseUrl o url st →
  r ∈ result (crawler st) →
  has (visited (crawler st)) (URL r) = true
  ∧ (ParseLinks (URL r)).2 = None
  ∧ r = new_result (URL r) (ParseLinks (URL r)).1
  ∧ Error r = "" ∧ Count r = length (ResLinks r).
Proof.
  intros Hreach Hr.
  destruct (SanitiseUrl url) as [seed err] eqn:Hs.
  assert (err = None) as ->.
  { destruct Hreach as (st0 & (input & Hs' & _)%crawl_start_Ok & _).
    rewrite Hs in Hs'. by injection Hs' as _ ->. }
  destruct (reachable_pages _ _ _ _ Hs Hreach) as [_ Hpg].
  destruct (pg_records _ _ _ Hpg r Hr) as (Hv & output & Hp & Hnew).
  split; [by apply has_elems|]. rewrite Hp. simpl.
  split; [done|]. split; [done|]. by rewrite Hnew.
Qed.





End PagesFacts.

Section OneWorker.

Variable ParseLinks : string → ParserOutput * option string.

Lemma cstep_one_at_a_time st st' :
  (MaxWorkers (sched_opts (scheduler (crawler st))) ≤ 1)%Z →
  one_at_a_time st → cstep ParseLinks st st' → one_at_a_time st'.
Proof.
  intros Hw [Hlen Hnd Hcomp Hfresh] Hstep. revert Hw Hlen Hnd Hcomp Hfresh.
  destruct Hstep as [c t s' run Hdq Hcap|c run1 th run2 c' th' Hth];
    simpl; intros Hw Hlen Hnd Hcomp Hfresh.
  - apply dequeue_Ok in Hdq as (q & Hqueue & ->).
    assert (run = []) as ->.
    { destruct run; [done|]. exfalso. simpl in *. lia. }
    split; simpl; try done.
    by intros th ->%list_elem_of_singleton.
  - assert (run1 = [] ∧ run2 = []) as [-> ->].
    { rewrite length_app in Hlen. simpl in Hlen.
      destruct run1; [|exfalso; simpl in *; lia].
      destruct run2; [done|exfalso; simpl in *; lia]. }
    specialize (Hfresh th (list_elem_of_here _ _)).
    unfold put_thread. simpl. rewrite app_nil_r.
    assert (length (option_list th') ≤ 1) as Hlen' by (destruct th'; simpl; lia).
    destruct th as [input|input|input output|output|output nv|tasks];
      simpl in Hth, Hfresh.
    + injection Hth as <- <-. split; simpl; try done.
      intros th. destruct (has (visited c) input) eqn:Hhas; simpl.
      * by intros ?%elem_of_nil.
      * intros ->%list_elem_of_singleton. simpl. by apply has_false_elems.
    + destruct (ParseLinks input) as [output err] eqn:Hp.
      destruct (add_total (visited c) input) as [v Hv]. rewrite Hv in Hth.
      simpl in Hth. injection Hth as <- <-.
      pose proof (add_elems _ _ _ Hv) as Hev.
      split; simpl; try done.
      * intros r Hr. rewrite Hev. apply Hcomp in Hr. set_solver.
      * intros th. destruct err; simpl; [by intros ?%elem_of_nil|].
        intros ->%list_elem_of_singleton. simpl. split.
        -- rewrite Hev. set_solver.
        -- intros (r & Hu & Hr)%list_elem_of_fmap. apply Hcomp in Hr.
           rewrite <- Hu in Hr. done.
    + injection Hth as <- <-. destruct Hfresh as [Hin Hnot].
      split; simpl; try done.
      * rewrite fmap_app. apply NoDup_app. split; [done|]. split.
        -- intros u Hu ->%list_elem_of_singleton. done.
        -- apply NoDup_singleton.
      * intros r [Hr|Hr%list_elem_of_singleton]%elem_of_app;
          [by apply Hcomp|by subst r].
      * by intros th ->%list_elem_of_singleton.
    + injection Hth as <- <-. split; simpl; try done.
      by intros th ->%list_elem_of_singleton.
    + destruct (addSlice_total (cache c) nv) as [ch Hch]. rewrite Hch in Hth.
      simpl in Hth. injection Hth as <- <-.
      split; simpl; try done.
      intros th Hth. destruct (Links output); [by apply elem_of_nil in Hth|].
      apply list_elem_of_singleton in Hth. by subst th.
    + destruct tasks as [|t tasks]; injection Hth as <- <-;
        split; simpl; try done.
      * by intros th ?%elem_of_nil.
      * intros th Hth. destruct tasks; [by apply elem_of_nil in Hth|].
        apply list_elem_of_singleton in Hth. by subst th.
Qed.

Lemma rtc_one_at_a_time st st' :
  (MaxWorkers (sched_opts (scheduler (crawler st))) ≤ 1)%Z →
  one_at_a_time st → rtc (cstep ParseLinks) st st' → one_at_a_time st'.
Proof.
  intros Hw Hinv Hsteps.
  induction Hsteps as [|st st1 st2 Hstep _ IH]; [done|].
  apply IH.
  - by rewrite (cstep_sched_opts _ _ _ Hstep).
  - by eapply cstep_one_at_a_time.
Qed.

Variable SanitiseUrl : string → string * option string.

(** X7. With at most one worker no two Result Records name the same
    URL, and at most one invocation of [handler] runs at a time. *)
Theorem one_worker_one_record_each o url st :
  (CrMaxWorkers o ≤ 1)%Z →
  reachable ParseLinks SanitiseUrl o url st →
  NoDup (URL <$> result (crawler st)) ∧ length (running st) ≤ 1.
Proof.
  intros Hw (st0 & Hst0 & Hsteps).
  pose proof Hst0 as (input & _ & _ & ->)%crawl_start_Ok.
  assert (one_at_a_time st) as [Hlen Hnd _ _].
  { eapply rtc_one_at_a_time; [| |exact Hsteps]; [done|].
    split; simpl; [lia|constructor|by intros r ?%elem_of_nil
                  |by intros th ?%elem_of_nil]. }
  done.
Qed.

End OneWorker.

Section Termination.

Variable ParseLinks : string → ParserOutput * option string.

(** What [handler] leaves of a crawler whose head task it was given. *)
Lemma handler_effect c t c' :
  handler ParseLinks c t = Ok c' →
  sched_opts (scheduler c') = sched_opts (scheduler c)
  ∧ (has (visited c) t = true → c' = c)
  ∧ (has (visited c) t = false →
     elems (visited c') = {[t]} ∪ elems (visited c)
     ∧ ∃ links,
         inputQueue (scheduler c') = inputQueue (scheduler c) ++ links
         ∧ ∀ l, l ∈ links →
                ∃ output, ParseLinks t = (output, None) ∧ l ∈ Links output).
Proof.
  intros Hh. destruct (has (visited c) t) eqn:Hv.
  - rewrite handler_completed in Hh by done. injection Hh as <-.
    split; [done|]. split; [done|]. done.
  - destruct (ParseLinks t) as [output [e|]] eqn:Hp.
    + erewrite handler_failure in Hh by done. injection Hh as <-. simpl.
      split; [done|]. split; [done|]. intros _. split.
      * unfold elems at 1; simpl. by rewrite dom_insert_absent, table_elems.
      * exists []. split; [by rewrite app_nil_r|]. by intros l ?%elem_of_nil.
    + erewrite handler_success in Hh by done. injection Hh as <-. simpl.
      rewrite Dispatch_set_queue. simpl.
      split; [done|]. split; [done|]. intros _. split.
      * unfold elems at 1; simpl. by rewrite dom_insert_absent, table_elems.
      * exists (Links output). split; [done|]. intros l Hl. by exists output.
Qed.

Lemma drain_queue (U : gset string) :
  closed_site ParseLinks U →
  ∀ n k c,
    base.size (U ∖ elems (visited c)) ≤ n →
    length (inputQueue (scheduler c)) ≤ k →
    (∀ t, t ∈ inputQueue (scheduler c) → t ∈ U) →
    (0 < MaxWorkers (sched_opts (scheduler c)))%Z →
    ∃ c', rtc (cstep ParseLinks) {| crawler := c; running := [] |}
                                  {| crawler := c'; running := [] |}
          ∧ inputQueue (scheduler c') = [].
Proof.
  intros Hclosed.
  induction n as [n IHn] using lt_wf_ind.
  induction k as [|k IHk]; intros c Hsize Hlen Hsub Hw.
  - exists c. split; [apply rtc_refl|].
    destruct (inputQueue (scheduler c)); [done|simpl in Hlen; lia].
  - destruct (inputQueue (scheduler c)) as [|t q] eqn:Hq.
    { exists c. split; [apply rtc_refl|done]. }
    set (c1 := set_scheduler c (set_queue (scheduler c) q)).
    destruct (handler_total ParseLinks c1 t) as [c2 Hh].
    pose proof (crawl_one ParseLinks c t q c2 Hq Hw Hh) as Hsteps.
    destruct (handler_effect _ _ _ Hh) as (Hopts & Hsame & Hnew).
    assert (∃ c', rtc (cstep ParseLinks) {| crawler := c2; running := [] |}
                                        {| crawler := c'; running := [] |}
                  ∧ inputQueue (scheduler c') = []) as (c' & Hsteps' & Hq').
    { destruct (has (visited c1) t) eqn:Hv.
      - rewrite (Hsame eq_refl).
        apply IHk; simpl; [done|simpl in Hlen; lia| |done].
        intros t0 Ht0. apply Hsub. by right.
      - destruct (Hnew eq_refl) as (Hvis & links & Hqueue & Hlinks).
        assert (t ∈ U) as HtU by (apply Hsub; left).
        assert (t ∉ elems (visited c)) as Htv by by apply has_false_elems.
        assert (base.size (U ∖ elems (visited c2)) < base.size (U ∖ elems (visited c)))
          as Hlt.
        { apply subset_size. rewrite Hvis. simpl. set_solver. }
        apply (IHn (base.size (U ∖ elems (visited c2))) ltac:(lia)
                   (length (inputQueue (scheduler c2)))); [lia|lia| |].
        + intros t0. rewrite Hqueue. simpl.
          intros [Ht0|Ht0]%elem_of_app; [apply Hsub; by right|].
          destruct (Hlinks t0 Ht0) as (output & Hp & Hl).
          by eapply Hclosed.
        + by rewrite Hopts. }
    exists c'. split; [|done]. by eapply rtc_trans.
Qed.

Variable SanitiseUrl : string → string * option string.

(** X8. If a finite set of URLs holds the seed and every link of its
    pages that load, then with at least one worker the crawl can come to
    a state with no task queued and no handler running, in which the
    quiescence test of [run] holds and every completed URL is in the
    set. *)
Theorem finite_site_crawl_ends o url seed (U : gset string) :
  SanitiseUrl url = (seed, None) →
  seed ∈ U →
  closed_site ParseLinks U →
  (0 < CrMaxWorkers o)%Z →
  ∃ st, reachable ParseLinks SanitiseUrl o url st
        ∧ idle st
        ∧ quiescent (crawler st) = true
        ∧ elems (visited (crawler st)) ⊆ U.
Proof.
  intros Hs Hseed Hclosed Hw.
  destruct (crawl_start SanitiseUrl o url) as [st0| |] eqn:Hst0.
  2,3: exfalso; revert Hst0; unfold crawl_start, NewCrawler;
    rewrite NewScheduler_nonnegative by (simpl; lia); simpl;
    unfold Crawl; simpl; rewrite Hs; done.
  pose proof Hst0 as (input & Hs' & _ & Hst)%crawl_start_Ok.
  rewrite Hs in Hs'. injection Hs' as <-.
  destruct st0 as [c0 run0]. injection Hst as Hc0 ->.
  destruct (drain_queue U Hclosed (base.size (U ∖ elems (visited c0)))
              (length (inputQueue (scheduler c0))) c0) as (c' & Hsteps & Hq);
    [lia|lia| |by rewrite Hc0|].
  { rewrite Hc0. simpl. by intros t ->%list_elem_of_singleton. }
  assert (reachable ParseLinks SanitiseUrl o url
            {| crawler := c'; running := [] |}) as Hreach
    by (exists {| crawler := c0; running := [] |}; split; done).
  exists {| crawler := c'; running := [] |}.
  destruct (reachable_pages _ _ _ _ _ _ Hs Hreach) as [Hinv Hpg].
  split; [done|]. split; [by split|]. split.
  - apply idle_quiescent; [done|by split].
  - intros u Hu. apply (inv_completed _ Hinv), (pg_linked _ _ _ Hpg) in Hu.
    simpl in Hu. induction Hu as [|u output l _ IH Hp Hl]; [done|].
    by eapply Hclosed.
Qed.

End Termination.

Section StartFacts.

Variable SanitiseUrl : string → string * option string.

(** The state [Crawl] hands to [run]. *)
Lemma crawl_start_state (o : CrawlerOptions) (url : string) (st0 : cstate) :
  crawl_start SanitiseUrl o url = Ok st0 →
  ∃ seed,
    SanitiseUrl url = (seed, None)
    ∧ elems (cache (crawler st0)) = {[seed]}
    ∧ elems (visited (crawler st0)) = ∅
    ∧ inputQueue (scheduler (crawler st0)) = [seed]
    ∧ MaxWorkers (sched_opts (scheduler (crawler st0))) = CrMaxWorkers o
    ∧ result (crawler st0) = []
    ∧ running st0 = [].
Proof.
  intros (seed & Hs & _ & ->)%crawl_start_Ok. exists seed.
  split; [done|]. split; [|done].
  unfold elems; simpl. rewrite dom_insert_absent. set_solver.
Qed.

Lemma crawl_start_accepts (o : CrawlerOptions) (url seed : string) :
  (0 ≤ CrMaxWorkers o)%Z →
  SanitiseUrl url = (seed, None) →
  ∃ st0, crawl_start SanitiseUrl o url = Ok st0.
Proof.
  intros Hw Hs. unfold crawl_start, NewCrawler.
  rewrite NewScheduler_nonnegative by (simpl; lia). simpl.
  unfold Crawl, Start. simpl. rewrite Hs. simpl.
  unfold mbind, outcome_bind. rewrite add_table. simpl. eauto.
Qed.

Lemma crawl_start_rejects (o : CrawlerOptions) (url x e : string) :
  (0 ≤ CrMaxWorkers o)%Z →
  SanitiseUrl url = (x, Some e) →
  crawl_start SanitiseUrl o url = Exit 1.
Proof.
  intros Hw Hs. unfold crawl_start, NewCrawler.
  rewrite NewScheduler_nonnegative by (simpl; lia). simpl.
  unfold Crawl, Start. simpl. by rewrite Hs.
Qed.

Lemma quiescent_sizes_elems (c : Crawler) :
  quiescent c = true
  ↔ base.size (elems (cache c)) ≤ base.size (elems (visited c)).
Proof.
  unfold quiescent, quiescent_sizes. rewrite !size_elems.
  apply bool_decide_eq_true.
Qed.

End StartFacts.

Section StartSteps.

Variable ParseLinks : string → ParserOutput * option string.
Variable SanitiseUrl : string → string * option string.


(** X10. When the seed loads, the crawl passes through a state in which
    the quiescence test holds although the handler of the seed has not
    yet recorded the page nor discovered its links: the seed is in both
    sets and nothing else is.  A tick of [run] at that moment ends the
    crawl with no record. *)
Theorem quiescence_before_links_discovered (o : CrawlerOptions)
    (url seed : string) (output : ParserOutput) :
  SanitiseUrl url = (seed, None) →
  ParseLinks seed = (output, None) →
  (0 < CrMaxWorkers o)%Z →
  ∃ st,
    reachable ParseLinks SanitiseUrl o url st
    ∧ running st = [HAppend seed output]
    ∧ elems (cache (crawler st)) = {[seed]}
    ∧ result (crawler st) = []
    ∧ quiescent (crawler st) = true
    ∧ run o None [Tick (size (visited (crawler st)))
                       (size (cache (crawler st))); QuitRecv]
      = Returned (run_deferred o).
Proof.
  intros Hs Hp Hw.
  destruct (crawl_start_accepts SanitiseUrl o url seed) as [st0 Hst0];
    [lia|done|].
  pose proof Hst0 as (seed' & Hs' & _ & Hst)%crawl_start_Ok.
  rewrite Hs in Hs'. injection Hs' as <-.
  eexists. split; [|split; [|split; [|split]]].
  - exists st0. split; [done|]. rewrite Hst.
    eapply rtc_l.
    { eapply (step_assign ParseLinks _ seed _ []); [reflexivity|simpl; lia]. }
    eapply rtc_l.
    { eapply (step_handler ParseLinks _ [] (HGuard seed) []). reflexivity. }
    eapply rtc_l; [|apply rtc_refl].
    eapply (step_handler ParseLinks _ [] (HFetch seed) []).
    simpl. rewrite Hp. rewrite add_table. reflexivity.
  - reflexivity.
  - unfold elems; simpl. rewrite dom_insert_absent. set_solver.
  - reflexivity.
  - assert (quiescent_sizes
              (size {| data := Some (insert_absent (table zero_hashSet) seed) |})
              (size {| data := Some (insert_absent ∅ seed) |}) = true) as Hq.
    { apply bool_decide_eq_true. done. }
    split; [exact Hq|]. simpl in *.
    unfold quiescent_sizes in *. by rewrite Hq.
Qed.

End StartSteps.

(** * More of [run]: signals *)

Lemma run_pending (o : CrawlerOptions) sig (between rest : list run_event) :
  Forall (λ e, ¬ quiescent_tick e ∧ valid_msg o e ∧ e ≠ QuitRecv) between →
  run o (Some sig) (between ++ QuitRecv :: rest)
  = match sig with
    | SIGQUIT => Returned (run_deferred o)
    | _ => OsExit (signal_number sig)
    end.
Proof.
  induction 1 as [|e between (Hq & Hv & Hr) _ IH]; simpl; [done|].
  destruct e as [v k|i task| |s']; simpl in *.
  - destruct (quiescent_sizes v k); [by destruct Hq|done].
  - by rewrite bool_decide_eq_true_2.
  - done.
  - done.
Qed.

Lemma run_pending_tick (o : CrawlerOptions) sig v k
    (between rest : list run_event) :
  Forall (λ e, ¬ quiescent_tick e ∧ valid_msg o e ∧ e ≠ QuitRecv) between →
  quiescent_sizes v k = true →
  run o (Some sig) (between ++ Tick v k :: rest) = SendBlocked.
Proof.
  intros Hb Hq.
  induction Hb as [|e between (Hnq & Hv & Hr) _ IH]; simpl.
  { by rewrite Hq. }
  destruct e as [v' k'|i task| |s']; simpl in *.
  - destruct (quiescent_sizes v' k'); [by destruct Hnq|done].
  - by rewrite bool_decide_eq_true_2.
  - done.
  - done.
Qed.

(** X11. A signal delivered to [run] while none is pending ends [run] when
    it is received, if no tick sees quiescence before: [SIGINT] and
    [SIGTERM] leave through [os.Exit] with 2 and 15, and the deferred
    function does not run; [SIGQUIT] returns and runs it.  If a tick
    sees quiescence while the signal still waits on [c.quit], [run]
    blocks in its own send. *)
Theorem run_external_signal (o : CrawlerOptions) sig before between rest :
  Forall (λ e, ¬ quiescent_tick e ∧ ¬ is_deliver e ∧ valid_msg o e) before →
  Forall (λ e, ¬ quiescent_tick e ∧ valid_msg o e ∧ e ≠ QuitRecv) between →
  run o None (before ++ Deliver sig :: between ++ QuitRecv :: rest)
  = match sig with
    | SIGINT => OsExit 2
    | SIGTERM => OsExit 15
    | SIGQUIT => Returned (run_deferred o)
    end
  ∧ ∀ v k,
      quiescent_sizes v k = true →
      run o None (before ++ Deliver sig :: between ++ Tick v k :: rest)
      = SendBlocked.
Proof.
  intros Hb Hbetween.
  induction Hb as [|e before (Hnq & Hd & Hv) _ IH]; simpl.
  - split.
    + rewrite run_pending by done. by destruct sig.
    + intros v k Hq. by apply run_pending_tick.
  - destruct e as [v' k'|i task| |s']; simpl in *.
    + destruct (quiescent_sizes v' k'); [by destruct Hnq|done].
    + by rewrite bool_decide_eq_true_2.
    + done.
    + by destruct Hd.
Qed.

(** * More of the scheduler: workers, the dispatch loop, shutdown *)

Section WorkerFacts.

Context {T H : Type}.
Implicit Types (w : worker H) (s : Scheduler T H) (task : T)
  (tasks : list T).

Lemma handled_app (a b : list (@worker_action T)) :
  handled (a ++ b) = handled a ++ handled b.
Proof. unfold handled. by rewrite omap_app. Qed.

Lemma handled_report w task : handled (worker_report w task) = [].
Proof. unfold worker_report. by destruct (reportState w). Qed.

Lemma pool_sends_app (a b : list (@worker_action T)) :
  pool_sends (a ++ b) = pool_sends a + pool_sends b.
Proof. unfold pool_sends. by rewrite omap_app, length_app. Qed.

Lemma pool_sends_report w task : pool_sends (worker_report w task) = 0.
Proof. unfold worker_report. by destruct (reportState w). Qed.

Lemma worker_loop_task w task (inputs : list (@worker_input T)) :
  worker_loop w (TaskIn task :: inputs)
  = PoolSend (id w)
      :: worker_report w task ++ HandlerCall task :: worker_loop w inputs.
Proof. reflexivity. Qed.

(** X12. A worker calls the handler on the tasks it receives before the
    shutdown signal, in that order, and on no other; it puts itself in
    the pool once before each receive; with [reportState] off it sends no
    state message; and when the signal comes its last action is to close
    its task channel. *)
Theorem worker_handles_tasks_before_quit w (inputs : list (@worker_input T)) :
  handled (worker_loop w inputs) = before_quit inputs
  ∧ pool_sends (worker_loop w inputs) = S (length (before_quit inputs))
  ∧ (reportState w = false →
     ∀ i t, StateSend i t ∉ worker_loop w inputs)
  ∧ (∀ tasks rest,
       inputs = (TaskIn <$> tasks) ++ QuitIn :: rest →
       ∃ acts, worker_loop w inputs = acts ++ [CloseTasks]
               ∧ handled acts = tasks).
Proof.
  split; [|split; [|split]].
  - induction inputs as [|[task|] inputs IH]; simpl; [done| |done].
    change (handled (PoolSend (id w) :: ?l)) with (handled l).
    rewrite handled_app, handled_report. simpl.
    change (handled (HandlerCall task :: ?l)) with (task :: handled l).
    by rewrite IH.
  - induction inputs as [|[task|] inputs IH]; simpl; [done| |done].
    change (pool_sends (PoolSend (id w) :: ?l)) with (S (pool_sends l)).
    rewrite pool_sends_app, pool_sends_report. simpl.
    change (pool_sends (HandlerCall task :: ?l)) with (pool_sends l).
    by rewrite IH.
  - intros Hrep i t.
    induction inputs as [|[task|] inputs IH]; simpl.
    + by intros [?|?%elem_of_nil]%elem_of_cons.
    + unfold worker_report. rewrite Hrep. simpl.
      intros [?|[?|?]%elem_of_cons]%elem_of_cons; [done|done|].
      by apply IH.
    + intros [?|[?|?%elem_of_nil]%elem_of_cons]%elem_of_cons; done.
  - intros tasks rest ->.
    induction tasks as [|task tasks (acts & Hacts & Hh)].
    + by exists [PoolSend (id w)].
    + rewrite fmap_cons, <- app_comm_cons, worker_loop_task, Hacts.
      exists (PoolSend (id w)
                :: worker_report w task ++ HandlerCall task :: acts).
      split.
      * simpl. by rewrite <- app_assoc.
      * change (handled (PoolSend (id w) :: ?l)) with (handled l).
        rewrite handled_app, handled_report. simpl.
        change (handled (HandlerCall task :: ?l)) with (task :: handled l).
        by rewrite Hh.
Qed.

Lemma run_once_ok s (idle : nat) : is_ok (run_once s idle) = true.
Proof.
  unfold run_once. destruct (quit s); [done|].
  case_bool_decide as Hlen; [done|].
  unfold dequeue. destruct (inputQueue s); [simpl in Hlen; lia|done].
Qed.

Lemma run_passes_running s n :
  quit s = false →
  run_passes n s
  = Ok (take n (inputQueue s), set_queue s (drop n (inputQueue s))).
Proof.
  revert s. induction n as [|n IH]; intros s Hq; simpl.
  - destruct s. by rewrite drop_0.
  - unfold run_once. rewrite Hq.
    destruct (inputQueue s) as [|t q] eqn:Hqueue; simpl.
    + rewrite IH, Hqueue by done. by rewrite take_nil, drop_nil.
    + unfold dequeue. rewrite Hqueue. simpl.
      rewrite IH by done. simpl. done.
Qed.

(** X13. While [quit] is unset the dispatch loop hands tasks over in the
    order [Dispatch] queued them, [n] passes the first [n] of them; after
    [Stop] it hands over nothing, whatever is dispatched later; and a
    pass never panics in [dequeue], because it tests the length first. *)
Theorem dispatch_loop_fifo s tasks (n : nat) :
  (quit s = false → inputQueue s = [] →
   run_passes (length tasks + n) (Dispatch s tasks)
   = Ok (tasks, set_queue s []))
  ∧ (quit s = false →
     ∃ s', run_passes n s = Ok (take n (inputQueue s), s')
           ∧ inputQueue s' = drop n (inputQueue s))
  ∧ run_passes n (Dispatch (Stop s) tasks)
    = Ok ([], Dispatch (Stop s) tasks)
  ∧ (∀ idle, is_ok (run_once s idle) = true).
Proof.
  split; [|split; [|split]].
  - intros Hq Hempty.
    rewrite run_passes_running by (by rewrite Dispatch_set_queue).
    rewrite Dispatch_set_queue, Hempty. simpl.
    rewrite take_ge, drop_ge by lia. done.
  - intros Hq. rewrite run_passes_running by done. eauto.
  - rewrite Dispatch_set_queue. destruct n; [done|]. simpl. done.
  - intros idle. apply run_once_ok.
Qed.

(** X14. [WithHandler] on a new scheduler makes [MaxWorkers] workers with
    the ids 0 to [MaxWorkers - 1], each with the given handler and with
    [reportState] equal to [Interactive]; [Start] then launches one
    goroutine for each and one for the dispatch loop.  A second call of
    [WithHandler] appends a second batch of workers to the first. *)
Theorem WithHandler_workers (o : SchedulerOptions) s (h h' : H) :
  NewScheduler o = Ok s →
  let ws := workers (WithHandler s h) in
  id <$> ws = seqZ 0 (MaxWorkers o)
  ∧ length ws = Z.to_nat (MaxWorkers o)
  ∧ NoDup (id <$> ws)
  ∧ (∀ w, w ∈ ws → w_handler w = h ∧ reportState w = Interactive o)
  ∧ (∃ gs, Start (WithHandler s h) = Ok gs ∧ length gs = S (length ws))
  ∧ workers (WithHandler (WithHandler s h) h')
    = ws ++ ((λ i, newWorker i h' (Interactive o)) <$> seqZ 0 (MaxWorkers o)).
Proof.
  intros Hs.
  assert (0 ≤ MaxWorkers o)%Z as Hpos.
  { destruct (decide (MaxWorkers o < 0)%Z) as [Hneg|]; [|lia].
    by rewrite NewScheduler_negative in Hs. }
  rewrite NewScheduler_nonnegative in Hs by done. injection Hs as <-.
  simpl.
  assert (id <$> ((λ i, newWorker i h (Interactive o))
                    <$> seqZ 0 (MaxWorkers o)) = seqZ 0 (MaxWorkers o)) as Hids.
  { rewrite <- list_fmap_compose. apply list_fmap_id. }
  split; [|split; [|split; [|split; [|split]]]].
  - done.
  - by rewrite length_fmap, length_seqZ.
  - rewrite Hids. apply NoDup_seqZ.
  - intros w (i & -> & _)%list_elem_of_fmap. done.
  - unfold Start. simpl. eexists. split; [done|].
    rewrite length_app, !length_fmap. simpl. lia.
  - done.
Qed.

End WorkerFacts.

Lemma worker_loop_StateSend {T H : Type} (w : worker H)
    (inputs : list (@worker_input T)) i task :
  StateSend i task ∈ worker_loop w inputs →
  i = id w ∧ reportState w = true ∧ TaskIn task ∈ inputs.
Proof.
  induction inputs as [|[t|] inputs IH]; simpl.
  - by intros [?|?%elem_of_nil]%elem_of_cons.
  - intros [?|Hin]%elem_of_cons; [done|].
    apply elem_of_app in Hin as [Hin|Hin].
    + unfold worker_report in Hin. destruct (reportState w); [|by apply elem_of_nil in Hin].
      apply list_elem_of_singleton in Hin. injection Hin as -> ->.
      split; [done|]. split; [done|]. apply list_elem_of_here.
    + apply elem_of_cons in Hin as [?|Hin]; [done|].
      destruct (IH Hin) as (? & ? & ?). split; [done|]. split; [done|].
      by apply list_elem_of_further.
  - intros [?|[?|?%elem_of_nil]%elem_of_cons]%elem_of_cons; done.
Qed.

(** X15. A state message from a worker of a crawler built by [NewCrawler]
    is sent in interactive mode only and carries an id that is an index
    of [c.ui.spinners]; [run] takes it without the index panic. *)
Theorem worker_reports_name_a_spinner (o : CrawlerOptions) (c : Crawler)
    (w : worker handler_ref) (inputs : list worker_input) i task :
  NewCrawler o = Ok c →
  w ∈ workers (scheduler c) →
  StateSend i task ∈ worker_loop w inputs →
  CrInteractive o = true
  ∧ valid_msg o (WorkerStateMsg i task)
  ∧ ∀ pending events,
      run o pending (WorkerStateMsg i task :: events) = run o pending events.
Proof.
  intros Hnew Hw Hsend.
  unfold NewCrawler in Hnew.
  destruct (decide (CrMaxWorkers o < 0)%Z) as [Hneg|Hpos].
  { by rewrite NewScheduler_negative in Hnew. }
  rewrite NewScheduler_nonnegative in Hnew by (simpl; lia).
  injection Hnew as <-. simpl in Hw.
  apply list_elem_of_fmap in Hw as (j & -> & Hj).
  apply elem_of_seqZ in Hj.
  apply worker_loop_StateSend in Hsend as (-> & Hrep & _). simpl in *.
  assert (0 ≤ j < spinner_count o)%Z as Hvalid.
  { unfold spinner_count. rewrite Hrep. lia. }
  split; [done|]. split; [done|].
  intros pending events. simpl. by rewrite bool_decide_eq_true_2.
Qed.

Section PoolFacts.

Context {T H : Type}.
Implicit Types (s : Scheduler T H) (st : Pool.state (T:=T) (H:=H)).

Lemma Dispatch_workers s (tasks : list T) :
  workers (Dispatch s tasks) = workers s
  ∧ workerPool (Dispatch s tasks) = workerPool s
  ∧ quit (Dispatch s tasks) = quit s.
Proof. by rewrite Dispatch_set_queue. Qed.

Lemma dequeue_workers s t s' :
  dequeue s = Ok (t, s') →
  workers s' = workers s ∧ workerPool s' = workerPool s ∧ quit s' = quit s.
Proof.
  unfold dequeue. destruct (inputQueue s); [done|].
  intros [= _ <-]. done.
Qed.

Lemma waiting_insert st w w' ws :
  w' ≠ w →
  (∃ ws', Pool.wstates st !! w' = Some ws' ∧ Pool.waiting ws') →
  ∃ ws', <[w := ws]> (Pool.wstates st) !! w' = Some ws' ∧ Pool.waiting ws'.
Proof. intros Hne. by rewrite list_lookup_insert_ne. Qed.

Lemma lookup_insert_exited st w w' ws :
  ws ≠ Pool.WorkerExited →
  Pool.wstates st !! w' ≠ Some Pool.WorkerExited →
  <[w := ws]> (Pool.wstates st) !! w' ≠ Some Pool.WorkerExited.
Proof.
  intros Hws Hw'. destruct (decide (w = w')) as [->|Hne].
  - intros Hl. apply list_lookup_insert_Some in Hl as [(_ & Heq & _)|(? & _)];
      done.
  - by rewrite list_lookup_insert_ne.
Qed.

Lemma step_pool_inv (spawn : T → list T) n st st' :
  Pool.step spawn st st' → pool_inv n st → pool_inv n st'.
Proof.
  intros Hstep [Hw Hs Hc Hnd Hp Hsend Hrun].
  destruct Hstep as [st Hl Hq|st t s' Hl Hq Hd|st t w p Hl Hpo
    |st t w wk Hl Hws Hwk|st t w Hl Hws|st w Hws Hroom|st w t Hws
    |st w t Hws|st w q1 q2 Hqs Hws|st|st tasks].
  - split; simpl; try done.
    intros Hq'. congruence.
  - destruct (dequeue_workers _ _ _ Hd) as (Hw' & Hc' & Hq').
    split; simpl; try done; try congruence.
    rewrite Hq'. intros Hf. destruct (Hrun Hf) as (? & ? & ?). done.
  - rewrite Hpo in Hnd, Hp. apply NoDup_cons in Hnd as [Hnotin Hnd].
    split; simpl; try done.
    + intros w' Hin. apply Hp. by right.
    + intros t' w' [= <- <-]. split; [done|]. apply Hp. by left.
    + intros Hf. destruct (Hrun Hf) as (? & ? & ?). done.
  - destruct (Hsend _ _ Hl) as [Hnotin _].
    split; simpl; try done.
    + by rewrite length_insert.
    + intros w' Hin. apply waiting_insert; [|by apply Hp].
      intros ->. done.
    + intros Hf. destruct (Hrun Hf) as (? & Hex & ?).
      split; [done|]. split; [|done].
      intros w'. apply lookup_insert_exited; [|done].
      unfold Pool.received. by destruct (reportState wk).
  - split; simpl; try done.
    intros Hf. destruct (Hrun Hf) as (? & Hex & ?). by destruct (Hex w).
  - assert (w ∉ Pool.pool st) as Hnotin.
    { intros Hin. destruct (Hp _ Hin) as (ws & Hws' & [-> | ->]);
        congruence. }
    split; simpl; try done.
    + by rewrite length_insert.
    + apply NoDup_app. split; [done|]. split; [|apply NoDup_singleton].
      intros w' Hin ->%list_elem_of_singleton. done.
    + intros w' [Hin| ->%list_elem_of_singleton]%elem_of_app.
      * apply waiting_insert; [|by apply Hp]. intros ->. done.
      * exists Pool.WorkerSelect. split; [|by left].
        apply list_lookup_insert_eq. by eapply lookup_lt_Some.
    + intros t w' Hl. destruct (Hsend _ _ Hl) as (Hn' & ws & Hws' & Hwait).
      assert (w' ≠ w) as Hne.
      { intros ->. destruct Hwait as [-> | ->]; congruence. }
      split.
      * intros [?| ->%list_elem_of_singleton]%elem_of_app; done.
      * apply waiting_insert; eauto.
    + intros Hf. destruct (Hrun Hf) as (? & Hex & ?).
      split; [done|]. split; [|done].
      intros w'. by apply lookup_insert_exited.
  - split; simpl; try done.
    + by rewrite length_insert.
    + intros w' Hin. apply waiting_insert; [|by apply Hp].
      intros ->. destruct (Hp _ Hin) as (ws & Hws' & [-> | ->]); congruence.
    + intros t' w' Hl. destruct (Hsend _ _ Hl) as (Hn' & ws & Hws' & Hwait).
      split; [done|]. apply waiting_insert; eauto.
      intros ->. destruct Hwait as [-> | ->]; congruence.
    + intros Hf. destruct (Hrun Hf) as (? & Hex & ?).
      split; [done|]. split; [|done].
      intros w'. by apply lookup_insert_exited.
  - destruct (Dispatch_workers (Pool.sched st) (spawn t))
      as (Hw' & Hc' & Hq').
    split; simpl; try done; try congruence.
    + by rewrite length_insert.
    + intros w' Hin. apply waiting_insert; [|by apply Hp].
      intros ->. destruct (Hp _ Hin) as (ws & Hws' & [-> | ->]); congruence.
    + intros t' w' Hl. destruct (Hsend _ _ Hl) as (Hn' & ws & Hws' & Hwait).
      split; [done|]. apply waiting_insert; eauto.
      intros ->. destruct Hwait as [-> | ->]; congruence.
    + rewrite Hq'. intros Hf. destruct (Hrun Hf) as (? & Hex & ?).
      split; [done|]. split; [|done].
      intros w'. by apply lookup_insert_exited.
  - split; simpl; try done.
    + by rewrite length_insert.
    + intros w' Hin. destruct (decide (w' = w)) as [->|Hne].
      * exists Pool.WorkerExited. split; [|by right].
        apply list_lookup_insert_eq. by eapply lookup_lt_Some.
      * apply waiting_insert; [done|by apply Hp].
    + intros t' w' Hl. destruct (Hsend _ _ Hl) as (Hn' & Hwait).
      split; [done|]. destruct (decide (w' = w)) as [->|Hne].
      * exists Pool.WorkerExited. split; [|by right].
        apply list_lookup_insert_eq. by eapply lookup_lt_Some.
      * by apply waiting_insert.
    + intros Hf. destruct (Hrun Hf) as (Hnil & _).
      rewrite Hnil in Hqs. by destruct q1.
  - split; simpl; done.
  - destruct (Dispatch_workers (Pool.sched st) tasks) as (Hw' & Hc' & Hq').
    split; simpl; try done; try congruence. by rewrite Hq'.
Qed.

Lemma rtc_step_pool_inv (spawn : T → list T) n st st' :
  rtc (Pool.step spawn) st st' → pool_inv n st → pool_inv n st'.
Proof. induction 1; eauto using step_pool_inv. Qed.

Lemma lookup_insert_stopping st w w' ws old :
  Pool.wstates st !! w = Some old → old ≠ Pool.WorkerExited →
  w' ∈ Pool.quitting st ∨ Pool.wstates st !! w' = Some Pool.WorkerExited →
  w' ∈ Pool.quitting st
  ∨ <[w := ws]> (Pool.wstates st) !! w' = Some Pool.WorkerExited.
Proof.
  intros Hold Hne [Hq|Hex]; [by left|].
  right. rewrite list_lookup_insert_ne; [done|]. intros ->. congruence.
Qed.

Lemma step_stopping (spawn : T → list T) n st st' :
  Pool.step spawn st st' → pool_inv n st → stopping st → stopping st'.
Proof.
  intros Hstep Hinv Hstop.
  destruct Hstep as [st Hl Hq|st t s' Hl Hq Hd|st t w p Hl Hpo
    |st t w wk Hl Hws Hwk|st t w Hl Hws|st w Hws Hroom|st w t Hws
    |st w t Hws|st w q1 q2 Hqs Hws|st|st tasks]; unfold stopping in *; simpl.
  - done.
  - destruct (dequeue_workers _ _ _ Hd) as (_ & _ & Hq'). rewrite Hq'.
    congruence.
  - done.
  - rewrite length_insert. intros Hq w' Hw'.
    eapply lookup_insert_stopping; eauto.
  - done.
  - rewrite length_insert. intros Hq w' Hw'.
    eapply lookup_insert_stopping; eauto.
  - rewrite length_insert. intros Hq w' Hw'.
    eapply lookup_insert_stopping; eauto.
  - destruct (Dispatch_workers (Pool.sched st) (spawn t)) as (_ & _ & Hq').
    rewrite Hq', length_insert. intros Hq w' Hw'.
    eapply lookup_insert_stopping; eauto.
  - rewrite length_insert. intros Hq w' Hw'.
    destruct (decide (w' = w)) as [->|Hne].
    + right. by apply list_lookup_insert_eq.
    + rewrite list_lookup_insert_ne by done.
      destruct (Hstop Hq w' Hw') as [Hin|Hex]; [left|by right].
      rewrite Hqs in Hin. set_solver.
  - intros _ w' Hw'. left. apply elem_of_app. right.
    apply elem_of_seq. rewrite (pi_workers _ _ Hinv), <- (pi_states _ _ Hinv).
    lia.
  - destruct (Dispatch_workers (Pool.sched st) tasks) as (_ & _ & Hq').
    by rewrite Hq'.
Qed.

Lemma rtc_step_stopping (spawn : T → list T) n st st' :
  rtc (Pool.step spawn) st st' → pool_inv n st → stopping st → stopping st'.
Proof.
  induction 1 as [|st st1 st2 Hstep _ IH]; [done|].
  intros Hinv Hstop. apply IH.
  - by eapply step_pool_inv.
  - by eapply step_stopping.
Qed.

Lemma WithHandler_pool (o : SchedulerOptions) (s0 : Scheduler T H) (h : H)
    (tasks : list T) :
  NewScheduler o = Ok s0 →
  pool_inv (Z.to_nat (MaxWorkers o))
    (Pool.started (Dispatch (WithHandler s0 h) tasks)).
Proof.
  intros Hnew.
  destruct (decide (MaxWorkers o < 0)%Z) as [Hneg|Hpos].
  { by rewrite NewScheduler_negative in Hnew. }
  rewrite NewScheduler_nonnegative in Hnew by lia. injection Hnew as <-.
  destruct (Dispatch_workers
    (WithHandler {| WorkerState := MaxWorkers o; workers := [];
       workerPool := MaxWorkers o; quit := false; sched_handler := None;
       inputQueue := []; sched_opts := o |} h) tasks) as (Hw & Hc & Hq).
  assert (length (workers (Dispatch
    (WithHandler {| WorkerState := MaxWorkers o; workers := [];
       workerPool := MaxWorkers o; quit := false; sched_handler := None;
       inputQueue := []; sched_opts := o |} h) tasks))
    = Z.to_nat (MaxWorkers o)) as Hlen.
  { rewrite Hw. simpl. by rewrite length_fmap, length_seqZ. }
  split; simpl.
  - done.
  - by rewrite length_replicate.
  - rewrite Hc. simpl. lia.
  - apply NoDup_nil_2.
  - intros w Hin. by apply elem_of_nil in Hin.
  - done.
  - intros _. split; [done|]. split; [|done].
    intros w Hl. apply lookup_replicate in Hl as [? _]. done.
Qed.

(** A worker that is not in the pool leaves room in it. *)
Lemma pool_room n st w :
  pool_inv n st → Pool.wstates st !! w = Some Pool.WorkerTop →
  length (Pool.pool st) < n.
Proof.
  intros [Hw Hs Hc Hnd Hp Hsend Hrun] Hws.
  assert (NoDup (w :: Pool.pool st)) as Hnd'.
  { apply NoDup_cons. split; [|done].
    intros Hin. destruct (Hp _ Hin) as (ws & Hws' & [-> | ->]); congruence. }
  assert (w :: Pool.pool st ⊆ seq 0 n) as Hsub.
  { intros w' Hin. apply elem_of_seq. split; [lia|]. simpl.
    rewrite <- Hs. apply elem_of_cons in Hin as [->|Hin].
    - by eapply lookup_lt_Some.
    - destruct (Hp _ Hin) as (ws & Hws' & _). by eapply lookup_lt_Some. }
  apply NoDup_submseteq in Hsub; [|done].
  apply submseteq_length in Hsub. rewrite length_seq in Hsub. simpl in Hsub.
  lia.
Qed.

End PoolFacts.

(** X16. In every state of the scheduler's goroutines the pool channel
    holds a worker at most once, and only workers that wait in their
    [select] or have exited from it; a worker about to put itself in the
    pool finds room, so [w.cha.pool <- &w] does not block. *)
Theorem pool_holds_each_waiting_worker_once {T H : Type}
    (spawn : T → list T) (o : SchedulerOptions) (s0 : Scheduler T H) (h : H)
    (tasks : list T) st :
  NewScheduler o = Ok s0 →
  rtc (Pool.step spawn) (Pool.started (Dispatch (WithHandler s0 h) tasks)) st →
  NoDup (Pool.pool st)
  ∧ (∀ w, w ∈ Pool.pool st →
       ∃ ws, Pool.wstates st !! w = Some ws ∧ Pool.waiting ws)
  ∧ (∀ w, Pool.wstates st !! w = Some Pool.WorkerTop →
       ∃ st', Pool.step spawn st st'
              ∧ Pool.pool st' = Pool.pool st ++ [w]).
Proof.
  intros Hnew Hreach.
  pose proof (rtc_step_pool_inv _ _ _ _ Hreach
    (WithHandler_pool o s0 h tasks Hnew)) as Hinv.
  split; [apply Hinv|]. split; [apply Hinv|].
  intros w Hws. eexists. split.
  - apply Pool.worker_register; [done|].
    rewrite (pi_cap _ _ Hinv). pose proof (pool_room _ _ _ Hinv Hws). lia.
  - done.
Qed.

(** X17. Until [Stop] is called no worker has exited and the dispatch
    loop has neither returned nor sent on a closed channel. *)
Theorem dispatch_loop_safe_until_Stop {T H : Type}
    (spawn : T → list T) (o : SchedulerOptions) (s0 : Scheduler T H) (h : H)
    (tasks : list T) st :
  NewScheduler o = Ok s0 →
  rtc (Pool.step spawn) (Pool.started (Dispatch (WithHandler s0 h) tasks)) st →
  quit (Pool.sched st) = false →
  (∀ t, Pool.loop st ≠ Pool.LoopPanicked t)
  ∧ Pool.loop st ≠ Pool.LoopReturned
  ∧ ∀ w, Pool.wstates st !! w ≠ Some Pool.WorkerExited.
Proof.
  intros Hnew Hreach Hq.
  pose proof (rtc_step_pool_inv _ _ _ _ Hreach
    (WithHandler_pool o s0 h tasks Hnew)) as Hinv.
  destruct (pi_running _ _ Hinv Hq) as (_ & Hex & Hr & Hp). done.
Qed.

(** X18. With a worker and a queued task, [Stop] can make the dispatch
    loop panic: the loop dequeues the task, the quit signal of [Stop]
    makes the waiting worker close its task channel, and the loop takes
    that worker from the pool and sends the task on the closed channel. *)
Theorem Stop_makes_dispatch_loop_panic {T H : Type}
    (spawn : T → list T) (o : SchedulerOptions) (s0 : Scheduler T H) (h : H)
    (t : T) :
  NewScheduler o = Ok s0 →
  (0 < MaxWorkers o)%Z →
  ∃ st,
    rtc (Pool.step spawn) (Pool.started (Dispatch (WithHandler s0 h) [t])) st
    ∧ Pool.loop st = Pool.LoopPanicked t
    ∧ Pool.quitting st = seq 1 (Z.to_nat (MaxWorkers o) - 1).
Proof.
  intros Hnew Hpos.
  rewrite NewScheduler_nonnegative in Hnew by lia. injection Hnew as <-.
  set (s := Dispatch (WithHandler _ h) [t]).
  assert (length (workers s) = Z.to_nat (MaxWorkers o)) as Hlen.
  { simpl. by rewrite length_fmap, length_seqZ. }
  destruct (Z.to_nat (MaxWorkers o)) as [|n] eqn:Hn; [lia|].
  assert (workerPool s = MaxWorkers o) as Hcap by done.
  assert (dequeue s = Ok (t, set_queue s [])) as Hdeq by done.
  assert (quit s = false) as Hquit by done.
  clearbody s.
  eexists. split; [|split].
  - eapply rtc_l.
    { apply (Pool.worker_register spawn _ 0).
      - unfold Pool.started. cbn [Pool.wstates]. by rewrite Hlen.
      - unfold Pool.started. cbn [Pool.pool Pool.sched length]. lia. }
    eapply rtc_l.
    { eapply Pool.loop_dequeue; [done|done|]. apply Hdeq. }
    eapply rtc_l.
    { eapply Pool.loop_take; [reflexivity|reflexivity]. }
    eapply rtc_l.
    { apply Pool.stop_called. }
    eapply rtc_l.
    { apply (Pool.worker_quit spawn _ 0 [] (seq 1 n)).
      - cbn. by rewrite Hlen.
      - cbn. by rewrite Hlen. }
    eapply rtc_l.
    { eapply Pool.loop_send_closed; [reflexivity|].
      cbn. by rewrite Hlen. }
    apply rtc_refl.
  - done.
  - cbn. by rewrite Nat.sub_0_r.
Qed.

(** X19. Once [Stop] has set [quit], every worker has exited or still has
    a sender of [Stop] waiting for it; so when all senders are done, as
    [wg.Wait] requires, every worker has exited.  The dispatch loop, at
    the top of a pass, can only return. *)
Theorem Stop_returns_after_workers_exit {T H : Type}
    (spawn : T → list T) (o : SchedulerOptions) (s0 : Scheduler T H) (h : H)
    (tasks : list T) st :
  NewScheduler o = Ok s0 →
  rtc (Pool.step spawn) (Pool.started (Dispatch (WithHandler s0 h) tasks)) st →
  quit (Pool.sched st) = true →
  (∀ w, w < length (Pool.wstates st) →
        w ∈ Pool.quitting st ∨ Pool.wstates st !! w = Some Pool.WorkerExited)
  ∧ (Pool.quitting st = [] →
     ∀ w ws, Pool.wstates st !! w = Some ws → ws = Pool.WorkerExited)
  ∧ (Pool.loop st = Pool.LoopTop →
     Pool.step spawn st (Pool.set_loop st Pool.LoopReturned)
     ∧ ∀ st', Pool.step spawn st st' →
              Pool.loop st' = Pool.LoopTop
              ∨ Pool.loop st' = Pool.LoopReturned).
Proof.
  intros Hnew Hreach Hq.
  pose proof (WithHandler_pool o s0 h tasks Hnew) as Hinv.
  assert (stopping (Pool.started (Dispatch (WithHandler s0 h) tasks)))
    as Hstop0.
  { intros Hq0. exfalso. revert Hq0. clear -Hnew.
    destruct (decide (MaxWorkers o < 0)%Z) as [Hneg|Hpos].
    { by rewrite NewScheduler_negative in Hnew. }
    rewrite NewScheduler_nonnegative in Hnew by lia. injection Hnew as <-.
    simpl. by rewrite (proj2 (proj2 (Dispatch_workers _ _))). }
  pose proof (rtc_step_stopping _ _ _ _ Hreach Hinv Hstop0 Hq) as Hst.
  split; [done|]. split.
  - intros Hnil w ws Hws.
    destruct (Hst w) as [Hin|Hex].
    + by eapply lookup_lt_Some.
    + rewrite Hnil in Hin. by apply elem_of_nil in Hin.
    + congruence.
  - intros Hl. split; [by apply Pool.loop_return|].
    intros st' Hstep.
    destruct Hstep; simpl in *; try congruence; auto.
Qed.

(** * The parser *)

Section StringsFacts.

Import Strings.

Implicit Types (s p r a b : string).

Lemma HasPrefix_app p r : HasPrefix (p +:+ r) p = true.
Proof.
  induction p as [|c p IH]; simpl; [done|].
  by rewrite bool_decide_eq_true_2, IH.
Qed.

Lemma HasPrefix_spec s p : HasPrefix s p = true ↔ ∃ r, s = p +:+ r.
Proof.
  split.
  - revert s. induction p as [|c p IH]; intros s; simpl.
    + intros _. by exists s.
    + destruct s as [|d s]; [done|].
      intros [Hc Hp]%andb_prop. apply bool_decide_eq_true in Hc as ->.
      destruct (IH _ Hp) as [r ->]. by exists r.
  - intros [r ->]. apply HasPrefix_app.
Qed.

Lemma HasPrefix_refl s : HasPrefix s s = true.
Proof.
  induction s as [|c s IH]; simpl; [done|].
  by rewrite bool_decide_eq_true_2, IH.
Qed.

Lemma HasPrefix_empty s : HasPrefix s "" = true.
Proof. by destruct s. Qed.

Lemma HasSuffix_app a p : HasSuffix (a +:+ p) p = true.
Proof.
  induction a as [|c a IH]; simpl.
  - destruct p; [done|]. simpl. by rewrite bool_decide_eq_true_2.
  - rewrite IH. by rewrite ?orb_true_r.
Qed.

Lemma HasSuffix_spec s p : HasSuffix s p = true ↔ ∃ a, s = a +:+ p.
Proof.
  split.
  - induction s as [|c s IH]; simpl.
    + rewrite orb_false_r. intros <-%bool_decide_eq_true. by exists "".
    + intros [<-%bool_decide_eq_true|Hs]%orb_prop; [by exists ""|].
      destruct (IH Hs) as [a ->]. by exists (String c a).
  - intros [a ->]. apply HasSuffix_app.
Qed.

Lemma HasSuffix_empty s : HasSuffix s "" = true.
Proof.
  induction s as [|c s IH]; simpl; [done|]. rewrite IH. by rewrite ?orb_true_r.
Qed.

Lemma Contains_empty s : Contains s "" = true.
Proof. destruct s; simpl; by rewrite ?HasPrefix_empty. Qed.

Lemma Contains_spec s p :
  Contains s p = true ↔ ∃ a b, s = a +:+ p +:+ b.
Proof.
  split.
  - induction s as [|c s IH]; simpl.
    + rewrite orb_false_r. intros [r Hr]%HasPrefix_spec. by exists "", r.
    + intros [[r Hr]%HasPrefix_spec|Hs]%orb_prop; [by exists "", r|].
      destruct (IH Hs) as (a & b & ->). by exists (String c a), b.
  - intros (a & b & ->). induction a as [|c a IH].
    + assert (HasPrefix (p +:+ b) p = true) as Hp by apply HasPrefix_app.
      simpl. destruct (p +:+ b); simpl in *; by rewrite Hp.
    + simpl. rewrite IH. by rewrite ?orb_true_r.
Qed.

Lemma substring_prefix p r :
  String.substring 0 (String.length p) (p +:+ r) = p.
Proof. induction p as [|c p IH]; simpl; [by destruct r|by rewrite IH]. Qed.

Lemma length_app_string p r :
  String.length (p +:+ r) = String.length p + String.length r.
Proof. induction p as [|c p IH]; simpl; [done|by rewrite IH]. Qed.

Lemma app_string_assoc a b r : (a +:+ b) +:+ r = a +:+ (b +:+ r).
Proof.
  induction a as [|c a IH]; [done|].
  change (String c ((a +:+ b) +:+ r) = String c (a +:+ (b +:+ r))).
  by f_equal.
Qed.

Lemma TrimSuffix_app a p : TrimSuffix (a +:+ p) p = a.
Proof.
  unfold TrimSuffix. rewrite HasSuffix_app, length_app_string.
  replace (String.length a + String.length p - String.length p)
    with (String.length a) by lia.
  apply substring_prefix.
Qed.

Lemma TrimSuffix_none s p : HasSuffix s p = false → TrimSuffix s p = s.
Proof. unfold TrimSuffix. by intros ->. Qed.

Lemma Split_nonempty s sep : Split s sep ≠ [].
Proof.
  induction s as [|c s IH]; simpl; [done|].
  case_bool_decide; [done|]. by destruct (Split s sep).
Qed.

End StringsFacts.

Section ParserFacts.

Import Strings Parser.

Lemma distinctLinks_elem (links : list string) x :
  x ∈ distinctLinks links ↔ x ∈ links.
Proof.
  change (distinctLinks links)
    with (slice {| data := Some (foldl insert_absent ∅ links) |}).
  rewrite slice_elems.
  unfold elems; simpl. rewrite dom_foldl_insert_absent.
  rewrite elem_of_union, elem_of_list_to_set. set_solver.
Qed.

Lemma distinctLinks_NoDup (links : list string) : NoDup (distinctLinks links).
Proof.
  apply (slice_NoDup {| data := Some (foldl insert_absent ∅ links) |}).
Qed.

(** X20. [distinctLinks] returns each link of its input once: the result
    has no duplicates and the elements of the input, is no longer than
    it, is the input up to order when that has no duplicates, and a
    second application changes nothing but the order. *)
Theorem distinctLinks_spec (links : list string) :
  NoDup (distinctLinks links)
  ∧ (∀ x, x ∈ distinctLinks links ↔ x ∈ links)
  ∧ length (distinctLinks links) ≤ length links
  ∧ (NoDup links → distinctLinks links ≡ₚ links)
  ∧ distinctLinks (distinctLinks links) ≡ₚ distinctLinks links.
Proof.
  split; [apply distinctLinks_NoDup|]. split; [apply distinctLinks_elem|].
  split; [|split].
  - apply submseteq_length, NoDup_submseteq; [apply distinctLinks_NoDup|].
    intros x. by rewrite distinctLinks_elem.
  - intros Hnd. apply NoDup_Permutation; [apply distinctLinks_NoDup|done|].
    apply distinctLinks_elem.
  - apply NoDup_Permutation; try apply distinctLinks_NoDup.
    intros x. by rewrite distinctLinks_elem.
Qed.

Variable url_Parse : string → url_URL * option string.
Variable url_String : url_URL → string.

Abbreviation getUrl' := (getUrl url_Parse url_String).
Abbreviation SanitiseUrl' := (SanitiseUrl url_Parse url_String).
Abbreviation filter_link' := (filter_link url_Parse url_String).
Abbreviation filter_loop' := (filter_loop url_Parse url_String).
Abbreviation filterLinks' := (filterLinks url_Parse url_String).

Lemma has_ignored_extension_spec l exts :
  has_ignored_extension l exts = false
  ↔ ∀ ext, ext ∈ exts → HasSuffix l ext = false.
Proof.
  induction exts as [|e exts IH]; simpl.
  - split; [by intros _ ext ?%elem_of_nil|done].
  - rewrite orb_false_iff, IH. split.
    + intros [He Hall] ext [->|?]%elem_of_cons; [done|by apply Hall].
    + intros Hall. split; [apply Hall; left|].
      intros ext Hext. apply Hall. by right.
Qed.

Lemma has_ignored_path_spec l paths :
  has_ignored_path l paths = false
  ↔ ∀ path, path ∈ paths → Contains l path = false.
Proof.
  induction paths as [|e paths IH]; simpl.
  - split; [by intros _ ext ?%elem_of_nil|done].
  - rewrite orb_false_iff, IH. split.
    + intros [He Hall] ext [->|?]%elem_of_cons; [done|by apply Hall].
    + intros Hall. split; [apply Hall; left|].
      intros ext Hext. apply Hall. by right.
Qed.

Lemma filter_loop_elem opts baseUrl links x :
  x ∈ filter_loop' opts baseUrl links
  ↔ ∃ l, l ∈ links ∧ filter_link' opts baseUrl l = Some x.
Proof.
  induction links as [|l links IH]; simpl.
  - split; [by intros ?%elem_of_nil|by intros (l & ?%elem_of_nil & _)].
  - destruct (filter_link' opts baseUrl l) as [y|] eqn:Hl.
    + rewrite elem_of_cons, IH. split.
      * intros [->|(l0 & ? & ?)]; [exists l; split; [left|done]|].
        exists l0. split; [by right|done].
      * intros (l0 & [->|?]%elem_of_cons & Hx).
        -- left. congruence.
        -- right. by exists l0.
    + rewrite IH. split.
      * intros (l0 & ? & ?). exists l0. split; [by right|done].
      * intros (l0 & [->|?]%elem_of_cons & Hx); [congruence|by exists l0].
Qed.

Lemma filterLinks_elem opts links baseUrl x :
  x ∈ filterLinks' opts links baseUrl
  ↔ ∃ l, l ∈ links ∧ filter_link' opts baseUrl l = Some x.
Proof.
  unfold filterLinks. destruct (Distinct opts).
  - by rewrite distinctLinks_elem, filter_loop_elem.
  - apply filter_loop_elem.
Qed.

(** X21. [filterLinks] returns the sanitised forms of the links that pass
    every filter: no [#] when fragments are ignored, no ignored extension
    as a suffix, no ignored path inside, and, once a link that starts
    with a slash has the base URL put before it, the base URL as a prefix
    when [SameSubdomain] is set. *)
Theorem filterLinks_keeps opts links baseUrl x :
  x ∈ filterLinks url_Parse url_String opts links baseUrl
  ↔ ∃ l, l ∈ links
         ∧ (IgnoreFragments opts = true → Contains l "#" = false)
         ∧ (∀ ext, ext ∈ IgnoredExtensions opts → HasSuffix l ext = false)
         ∧ (∀ path, path ∈ IgnoredPaths opts → Contains l path = false)
         ∧ let l' := if HasPrefix l "/" then baseUrl +:+ l else l in
           (SameSubdomain opts = true → HasPrefix l' baseUrl = true)
           ∧ SanitiseUrl url_Parse url_String l' = (x, None).
Proof.
  rewrite filterLinks_elem. apply exist_proper. intros l.
  apply and_iff_compat_l. unfold filter_link.
  split.
  - destruct (IgnoreFragments opts && Contains l "#") eqn:Hf; [done|].
    destruct (bool_decide (0 < length (IgnoredExtensions opts))
              && has_ignored_extension l (IgnoredExtensions opts)) eqn:He;
      [done|].
    destruct (bool_decide (0 < length (IgnoredPaths opts))
              && has_ignored_path l (IgnoredPaths opts)) eqn:Hp; [done|].
    set (l' := if HasPrefix l "/" then baseUrl +:+ l else l).
    destruct (SameSubdomain opts && negb (HasPrefix l' baseUrl)) eqn:Hs;
      [done|].
    destruct (SanitiseUrl' l') as [y [e|]] eqn:Hsan; [done|].
    intros [= ->]. split; [|split; [|split; [|split]]].
    + intros Hi. rewrite Hi in Hf. done.
    + apply has_ignored_extension_spec.
      apply andb_false_iff in He as [He|He]; [|done].
      apply bool_decide_eq_false in He.
      destruct (IgnoredExtensions opts); [done|simpl in He; lia].
    + apply has_ignored_path_spec.
      apply andb_false_iff in Hp as [Hp|Hp]; [|done].
      apply bool_decide_eq_false in Hp.
      destruct (IgnoredPaths opts); [done|simpl in Hp; lia].
    + intros Hsame. rewrite Hsame in Hs. simpl in Hs.
      by apply negb_false_iff in Hs.
    + done.
  - intros (Hf & He & Hp & Hs & Hsan).
    apply has_ignored_extension_spec in He. apply has_ignored_path_spec in Hp.
    rewrite He, Hp, !andb_false_r.
    assert (IgnoreFragments opts && Contains l "#" = false) as ->.
    { destruct (IgnoreFragments opts); [by rewrite Hf|done]. }
    set (l' := if HasPrefix l "/" then baseUrl +:+ l else l) in *.
    assert (SameSubdomain opts && negb (HasPrefix l' baseUrl) = false) as ->.
    { destruct (SameSubdomain opts); [by rewrite Hs|done]. }
    by rewrite Hsan.
Qed.

Lemma filter_loop_empty_pattern opts links baseUrl :
  "" ∈ IgnoredPaths opts ∨ "" ∈ IgnoredExtensions opts →
  filter_loop' opts baseUrl links = [].
Proof.
  intros Hempty.
  assert (∀ l, filter_link' opts baseUrl l = None) as Hnone.
  { intros l. unfold filter_link.
    destruct (IgnoreFragments opts && Contains l "#"); [done|].
    destruct Hempty as [Hp|He].
    - destruct (bool_decide (0 < length (IgnoredExtensions opts))
                && has_ignored_extension l (IgnoredExtensions opts)); [done|].
      assert (has_ignored_path l (IgnoredPaths opts) = true) as ->.
      { destruct (has_ignored_path l (IgnoredPaths opts)) eqn:Hn; [done|].
        rewrite has_ignored_path_spec in Hn.
        pose proof (Contains_empty l) as Hl. by rewrite (Hn "" Hp) in Hl. }
      rewrite bool_decide_eq_true_2; [done|].
      destruct (IgnoredPaths opts); [by apply elem_of_nil in Hp|simpl; lia].
    - assert (has_ignored_extension l (IgnoredExtensions opts) = true) as ->.
      { destruct (has_ignored_extension l (IgnoredExtensions opts)) eqn:Hn;
          [done|].
        rewrite has_ignored_extension_spec in Hn.
        pose proof (HasSuffix_empty l) as Hl. by rewrite (Hn "" He) in Hl. }
      rewrite bool_decide_eq_true_2; [done|].
      destruct (IgnoredExtensions opts);
        [by apply elem_of_nil in He|simpl; lia]. }
  induction links as [|l links IH]; simpl; [done|]. by rewrite Hnone.
Qed.

(** X22. An empty string among the ignored paths or the ignored
    extensions makes [filterLinks] drop every link. *)
Theorem filterLinks_empty_pattern opts links baseUrl :
  "" ∈ IgnoredPaths opts ∨ "" ∈ IgnoredExtensions opts →
  filterLinks url_Parse url_String opts links baseUrl = [].
Proof.
  intros Hempty. unfold filterLinks.
  rewrite filter_loop_empty_pattern by done. by destruct (Distinct opts).
Qed.

Lemma getUrl_ok rawUrl url baseUrl :
  getUrl' rawUrl = ((url, baseUrl), None) →
  url_Parse rawUrl = (url, None)
  ∧ (Scheme url = "http" ∨ Scheme url = "https")
  ∧ Host url ≠ ""
  ∧ baseUrl = Scheme url +:+ "://" +:+ Host url.
Proof.
  unfold getUrl. destruct (url_Parse rawUrl) as [parsed [e|]]; [done|].
  case_bool_decide; [done|].
  destruct (bool_decide (Scheme parsed ≠ "http")
            && bool_decide (Scheme parsed ≠ "https")) eqn:Hs; [done|].
  destruct (bool_decide (Host parsed = "")) eqn:Hh; [done|].
  apply bool_decide_eq_false in Hh.
  intros [= <- <-]. split; [done|]. split; [|done].
  apply andb_false_iff in Hs as [Hs|Hs]; apply bool_decide_eq_false in Hs.
  - left. by destruct (decide (Scheme parsed = "http")).
  - right. by destruct (decide (Scheme parsed = "https")).
Qed.

Lemma SanitiseUrl_ok rawUrl x :
  SanitiseUrl' rawUrl = (x, None) →
  ∃ url baseUrl,
    getUrl' rawUrl = ((url, baseUrl), None)
    ∧ x = baseUrl +:+ TrimSuffix (Path url) "/".
Proof.
  unfold SanitiseUrl.
  destruct (getUrl' rawUrl) as [[url baseUrl] [e|]] eqn:Hg; [done|].
  intros [= <-]. exists url, baseUrl. split; [done|].
  apply getUrl_ok in Hg as (_ & _ & _ & ->).
  by rewrite !app_string_assoc.
Qed.

Lemma SanitiseUrl_http rawUrl x :
  SanitiseUrl' rawUrl = (x, None) → is_http x.
Proof.
  intros (url & base & Hg & ->)%SanitiseUrl_ok.
  apply getUrl_ok in Hg as (_ & [Hs|Hs] & _ & ->); rewrite Hs.
  - left. apply HasPrefix_spec. eexists. simpl. reflexivity.
  - right. apply HasPrefix_spec. eexists. simpl. reflexivity.
Qed.

Lemma filterLinks_http opts links baseUrl x :
  x ∈ filterLinks' opts links baseUrl → is_http x.
Proof.
  intros (l & _ & Hl)%filterLinks_elem. unfold filter_link in Hl.
  repeat match type of Hl with
         | (if ?b then None else _) = Some _ => destruct b; [done|]
         end.
  match type of Hl with
  | context [SanitiseUrl _ _ ?l'] =>
      destruct (SanitiseUrl' l') as [y [e|]] eqn:Hsan
  end; [done|].
  injection Hl as ->. by eapply SanitiseUrl_http.
Qed.

(** X23. Every link [filterLinks] returns starts with [http://] or
    [https://], and with [Distinct] set it returns no link twice. *)
Theorem filterLinks_http_only opts links baseUrl :
  (∀ x, x ∈ filterLinks url_Parse url_String opts links baseUrl → is_http x)
  ∧ (Distinct opts = true →
     NoDup (filterLinks url_Parse url_String opts links baseUrl)).
Proof.
  split.
  - intros x. apply filterLinks_http.
  - intros Hd. unfold filterLinks. rewrite Hd. apply distinctLinks_NoDup.
Qed.

(** X24. [SanitiseUrl] gives a URL whose path ends in one slash the
    result it gives the URL without that slash: scheme, host and the
    path without it. *)
Theorem SanitiseUrl_trailing_slash raw1 raw2 scheme host path :
  let u1 := {| Scheme := scheme; Host := host; Path := path |} in
  let u2 := {| Scheme := scheme; Host := host; Path := path +:+ "/" |} in
  url_Parse raw1 = (u1, None) →
  url_Parse raw2 = (u2, None) →
  url_String u1 ≠ "" → url_String u2 ≠ "" →
  HasSuffix path "/" = false →
  (SanitiseUrl url_Parse url_String raw1).1
  = (SanitiseUrl url_Parse url_String raw2).1
  ∧ ((SanitiseUrl url_Parse url_String raw1).2 = None
     ↔ (SanitiseUrl url_Parse url_String raw2).2 = None)
  ∧ ((SanitiseUrl url_Parse url_String raw1).2 = None →
     SanitiseUrl url_Parse url_String raw1
     = (scheme +:+ "://" +:+ host +:+ path, None)).
Proof.
  intros u1 u2 Hp1 Hp2 Hs1 Hs2 Hns. unfold SanitiseUrl, getUrl.
  rewrite Hp1, Hp2. subst u1 u2.
  rewrite (bool_decide_eq_false_2 _ Hs1), (bool_decide_eq_false_2 _ Hs2).
  simpl.
  destruct (bool_decide (scheme ≠ "http") && bool_decide (scheme ≠ "https"));
    [simpl; repeat split; done|].
  destruct (bool_decide (host = "")); [simpl; by repeat split|]. simpl.
  by rewrite TrimSuffix_app, TrimSuffix_none.
Qed.

End ParserFacts.

Section FetchFacts.

Import Strings Parser Fetch.

Variable url_Parse : string → url_URL * option string.
Variable url_String : url_URL → string.
Variable url_resolve : url_URL → string → url_URL * option string.
Variable handleRequest : url_URL → SimpleHttpResponse * option string.


Lemma ParseLinks_links opts input output :
  ParseLinks url_Parse url_String url_resolve handleRequest opts input
  = (output, None) →
  (∀ x, x ∈ Links output → is_http x)
  ∧ (Distinct opts = true → NoDup (Links output)).
Proof.
  unfold ParseLinks.
  destruct (getUrl url_Parse url_String input) as [[url baseUrl] [e|]]; [done|].
  destruct (get url_resolve handleRequest url).2 as [response [e|]]; [done|].
  destruct (parseLinksFromHtmlBody (Body response)) as [links [e|]]; [done|].
  intros [= <-]. simpl. split.
  - intros x. apply filterLinks_http.
  - intros Hd. unfold filterLinks. rewrite Hd. apply distinctLinks_NoDup.
Qed.


(** The crawler with the parser it is built with. *)
Abbreviation crawl_fetch opts :=
  (ParseLinks url_Parse url_String url_resolve handleRequest opts).
Abbreviation crawl_sanitise := (SanitiseUrl url_Parse url_String).

(** X26. In a crawl that fetches with [ParseLinks] and sanitises the seed
    with [SanitiseUrl], every discovered URL, every queued task and
    every link of a Result Record starts with [http://] or [https://];
    with [Distinct] set the links of a record have no duplicates. *)
Theorem crawl_discovers_http_only opts o url st :
  reachable (crawl_fetch opts) crawl_sanitise o url st →
  (∀ u, has (cache (crawler st)) u = true → is_http u)
  ∧ (∀ t, t ∈ inputQueue (scheduler (crawler st)) → is_http t)
  ∧ (∀ r, r ∈ result (crawler st) →
          (∀ l, l ∈ ResLinks r → is_http l)
          ∧ (Distinct opts = true →
             NoDup (ResLinks r) ∧ Count r = length (ResLinks r))).
Proof.
  intros Hreach.
  destruct (crawl_sanitise url) as [seed err] eqn:Hs.
  assert (err = None) as ->.
  { destruct Hreach as (st0 & (input & Hs' & _)%crawl_start_Ok & _).
    rewrite Hs in Hs'. by injection Hs' as _ ->. }
  destruct (reachable_pages _ _ _ _ _ _ Hs Hreach) as [Hinv Hpg].
  assert (∀ u, linked (crawl_fetch opts) seed u → is_http u) as Hlinked.
  { intros u [|u0 output l _ Hp Hl].
    - by eapply SanitiseUrl_http.
    - destruct (ParseLinks_links _ _ _ Hp) as [Hhttp _]. by apply Hhttp. }
  assert (∀ u, u ∈ elems (cache (crawler st)) → is_http u) as Hcache.
  { intros u Hu. by apply Hlinked, (pg_linked _ _ _ Hpg). }
  split; [|split].
  - intros u Hu%has_elems. by apply Hcache.
  - intros t Ht. by apply Hcache, (inv_queue _ Hinv).
  - intros r Hr.
    destruct (pg_records _ _ _ Hpg r Hr) as (_ & output & Hp & ->).
    destruct (ParseLinks_links _ _ _ Hp) as [Hhttp Hnd]. simpl.
    split; [done|]. intros Hd. split; [by apply Hnd|done].
Qed.

End FetchFacts.

Section SeedFacts.

Import Strings Parser.

Variable url_Parse : string → url_URL * option string.
Variable url_String : url_URL → string.

Lemma getUrl_accepts rawUrl url :
  url_Parse rawUrl = (url, None) →
  url_String url ≠ "" →
  Scheme url = "http" ∨ Scheme url = "https" →
  Host url ≠ "" →
  getUrl url_Parse url_String rawUrl
  = ((url, Scheme url +:+ "://" +:+ Host url), None).
Proof.
  intros Hp Hstr Hs Hh. unfold getUrl. rewrite Hp.
  rewrite bool_decide_eq_false_2 by done.
  assert (bool_decide (Scheme url ≠ "http")
          && bool_decide (Scheme url ≠ "https") = false) as ->.
  { destruct Hs as [-> | ->]; done. }
  by rewrite bool_decide_eq_false_2.
Qed.

Lemma SanitiseUrl_error rawUrl x e :
  SanitiseUrl url_Parse url_String rawUrl = (x, Some e) → x = "".
Proof.
  unfold SanitiseUrl.
  destruct (getUrl url_Parse url_String rawUrl) as [[url baseUrl] [e'|]];
    by intros [= <-].
Qed.

(** X27. With a worker count that is not negative, [Crawl] either exits
    with status 1 or hands [run] its start state.  It exits exactly when
    the URL does not parse, prints as the empty string, has a scheme
    other than [http] and [https], or has no host.  Otherwise the seed,
    that is scheme, host and path without a trailing slash, is the one
    discovered URL and the one queued task, and the quiescence test
    fails. *)
Theorem Crawl_seed_outcomes (o : CrawlerOptions) (url : string) :
  (0 ≤ CrMaxWorkers o)%Z →
  let start := crawl_start (SanitiseUrl url_Parse url_String) o url in
  (start = Exit 1 ∨ ∃ st0, start = Ok st0)
  ∧ (start = Exit 1
     ↔ ¬ ∃ u, url_Parse url = (u, None) ∧ url_String u ≠ ""
              ∧ (Scheme u = "http" ∨ Scheme u = "https") ∧ Host u ≠ "")
  ∧ (∀ st0, start = Ok st0 →
       ∃ u, url_Parse url = (u, None)
            ∧ let seed :=
                Scheme u +:+ "://" +:+ Host u +:+ TrimSuffix (Path u) "/" in
              elems (cache (crawler st0)) = {[seed]}
              ∧ inputQueue (scheduler (crawler st0)) = [seed]
              ∧ elems (visited (crawler st0)) = ∅
              ∧ result (crawler st0) = []
              ∧ quiescent (crawler st0) = false).
Proof.
  intros Hw start.
  assert (∀ st0, start = Ok st0 →
            ∃ u, url_Parse url = (u, None) ∧ url_String u ≠ ""
                 ∧ (Scheme u = "http" ∨ Scheme u = "https") ∧ Host u ≠ ""
                 ∧ elems (cache (crawler st0))
                   = {[Scheme u +:+ "://" +:+ Host u
                                +:+ TrimSuffix (Path u) "/"]}
                 ∧ inputQueue (scheduler (crawler st0))
                   = [Scheme u +:+ "://" +:+ Host u
                               +:+ TrimSuffix (Path u) "/"]
                 ∧ elems (visited (crawler st0)) = ∅
                 ∧ result (crawler st0) = []
                 ∧ quiescent (crawler st0) = false) as Hok.
  { intros st0 Hst0.
    destruct (crawl_start_state _ _ _ _ Hst0)
      as (seed & Hs & Hc & Hv & Hq & _ & Hr & _).
    pose proof Hs as (u & base & Hg & Hseed)%SanitiseUrl_ok.
    pose proof Hg as (Hp & Hsch & Hh & ->)%getUrl_ok.
    exists u. split; [done|].
    assert (url_String u ≠ "") as Hstr.
    { intros Hempty. unfold getUrl in Hg. rewrite Hp in Hg.
      by rewrite bool_decide_eq_true_2 in Hg. }
    rewrite app_string_assoc, app_string_assoc in Hseed.
    rewrite <- Hseed.
    do 7 (split; [done|]).
    destruct (quiescent (crawler st0)) eqn:Hqq; [|done].
    apply quiescent_sizes_elems in Hqq.
    rewrite Hc, Hv, size_singleton, size_empty in Hqq. lia. }
  assert (start = Exit 1 ∨ ∃ st0, start = Ok st0) as Hcases.
  { destruct (SanitiseUrl url_Parse url_String url) as [x [e|]] eqn:Hs.
    - left. by eapply crawl_start_rejects.
    - right. by eapply crawl_start_accepts. }
  split; [done|]. split.
  - split.
    + intros Hexit (u & Hp & Hstr & Hsch & Hh).
      destruct (crawl_start_accepts (SanitiseUrl url_Parse url_String) o url
                  (Scheme u +:+ "://" +:+ Host u +:+ TrimSuffix (Path u) "/"))
        as [st0 Hst0]; [done| |].
      * unfold SanitiseUrl. by rewrite (getUrl_accepts _ _ Hp Hstr Hsch Hh).
      * fold start in Hst0. congruence.
    + intros Hnot. destruct Hcases as [|[st0 Hst0]]; [done|].
      destruct Hnot. destruct (Hok _ Hst0) as (u & ? & ? & ? & ? & _).
      by exists u.
  - intros st0 Hst0. destruct (Hok _ Hst0) as (u & ? & _ & _ & _ & ?).
    by exists u.
Qed.

End SeedFacts.

(** * main.go and the output *)

Section CliFacts.

Import Strings Parser Cli.

Lemma Split_empty sep : Split "" sep = [""].
Proof. reflexivity. Qed.

Lemma string_length_pos (s : string) : 0 < String.length s ↔ s ≠ "".
Proof. destruct s; simpl; split; (done || lia). Qed.

(** X28. [main] goes on to [NewCrawler] exactly when the URL contains
    [http] and the format is one of the three.  It splits [-paths] only
    when [-ext] is given: without [-ext] both lists are empty whatever
    [-paths] says; with [-ext] and no [-paths] the ignored paths are the
    one empty string, and the parser then drops every link. *)
Theorem main_options_paths (f : Flags) :
  (is_ok (main_options f) = true
   ↔ Contains (urlFlag f) "http" = true
     ∧ formatFlag f ∈ [Output_Stdout; Output_Json; Output_Xml])
  ∧ ∀ o, main_options f = Ok o →
      (ignoredExtensionsFlag f = "" →
       OptIgnoredExtensions o = [] ∧ OptIgnoredPaths o = [])
      ∧ (ignoredExtensionsFlag f ≠ "" → ignoredPathsFlag f = "" →
         OptIgnoredPaths o = [""]
         ∧ ∀ url_Parse url_String links baseUrl,
             filterLinks url_Parse url_String (parser_options o) links baseUrl
             = []).
Proof.
  unfold main_options. split.
  - destruct (Contains (urlFlag f) "http"); simpl; [|naive_solver].
    destruct (decide (formatFlag f = Output_Stdout)) as [Hs|Hs].
    { rewrite (bool_decide_eq_false_2 (formatFlag f ≠ Output_Stdout)) by tauto.
      simpl. split; [|done]. intros _. split; [done|]. rewrite Hs. left. }
    rewrite (bool_decide_eq_true_2 (formatFlag f ≠ Output_Stdout)) by done.
    destruct (decide (formatFlag f = Output_Json)) as [Hj|Hj].
    { rewrite (bool_decide_eq_false_2 (formatFlag f ≠ Output_Json)) by tauto.
      simpl. split; [|done]. intros _. split; [done|]. rewrite Hj.
      right; left. }
    rewrite (bool_decide_eq_true_2 (formatFlag f ≠ Output_Json)) by done.
    destruct (decide (formatFlag f = Output_Xml)) as [Hx|Hx].
    { rewrite (bool_decide_eq_false_2 (formatFlag f ≠ Output_Xml)) by tauto.
      simpl. split; [|done]. intros _. split; [done|]. rewrite Hx.
      right; right; left. }
    rewrite (bool_decide_eq_true_2 (formatFlag f ≠ Output_Xml)) by done.
    simpl. split; [done|]. intros [_ Hin].
    repeat (apply elem_of_cons in Hin as [?|Hin]; [done|]).
    by apply elem_of_nil in Hin.
  - intros o.
    destruct (negb (Contains (urlFlag f) "http")); [done|].
    destruct (bool_decide (formatFlag f ≠ Output_Stdout)
              && bool_decide (formatFlag f ≠ Output_Json)
              && bool_decide (formatFlag f ≠ Output_Xml)); [done|].
    intros [= <-].
    destruct (bool_decide (0 < String.length (ignoredExtensionsFlag f)))
      eqn:Hlen; simpl.
    + apply bool_decide_eq_true, string_length_pos in Hlen.
      split; [done|]. intros _ ->. split; [done|].
      intros url_Parse url_String links baseUrl. unfold filterLinks.
      rewrite filter_loop_empty_pattern; [done|]. left. simpl.
      apply list_elem_of_here.
    + apply bool_decide_eq_false in Hlen.
      split; [done|]. intros Hext. exfalso. apply Hlen.
      by apply string_length_pos.
Qed.

Lemma output_name_cases format outFile :
  (format = Output_Json ∧ HasSuffix outFile ".json" = false
   ∧ output_name format outFile = outFile +:+ ".json")
  ∨ (format = Output_Xml ∧ HasSuffix outFile ".xml" = false
     ∧ output_name format outFile = outFile +:+ ".xml")
  ∨ (output_name format outFile = outFile
     ∧ (format = Output_Json → HasSuffix outFile ".json" = true)
     ∧ (format = Output_Xml → HasSuffix outFile ".xml" = true)).
Proof.
  unfold output_name.
  destruct (decide (format = Output_Json)) as [->|Hj].
  - destruct (HasSuffix outFile ".json") eqn:Hs.
    + right; right. by repeat split.
    + left. by repeat split.
  - rewrite (bool_decide_eq_false_2 (format = Output_Json)) by done.
    destruct (decide (format = Output_Xml)) as [->|Hx].
    + destruct (HasSuffix outFile ".xml") eqn:Hs.
      * right; right. by repeat split.
      * right; left. by repeat split.
    + rewrite (bool_decide_eq_false_2 (format = Output_Xml)) by done.
      right; right. by repeat split.
Qed.

(** X29. [done] prints the results when no output file is named;
    otherwise it writes them to the file, to whose name [.json] or
    [.xml] is added for these formats unless it ends so already; for
    another format the name is kept, and a name so made is kept too. *)
Theorem done_output_name (o : AllOptions) (results : string) :
  (OptOutputFile o = "" → done_output o results = Println results)
  ∧ (OptOutputFile o ≠ "" →
     ∃ name, done_output o results = WriteFile name results
             ∧ HasPrefix name (OptOutputFile o) = true
             ∧ (OutputFormat o = Output_Json → HasSuffix name ".json" = true)
             ∧ (OutputFormat o = Output_Xml → HasSuffix name ".xml" = true)
             ∧ (OutputFormat o ≠ Output_Json → OutputFormat o ≠ Output_Xml →
                name = OptOutputFile o)
             ∧ output_name (OutputFormat o) name = name).
Proof.
  unfold done_output. split.
  - intros ->. done.
  - intros Hne. apply string_length_pos in Hne.
    rewrite bool_decide_eq_false_2 by lia.
    eexists. split; [done|].
    destruct (output_name_cases (OutputFormat o) (OptOutputFile o))
      as [(Hf & Hs & ->)|[(Hf & Hs & ->)|(-> & Hj & Hx)]].
    + split; [apply HasPrefix_app|]. split; [intros _; apply HasSuffix_app|].
      split; [by rewrite Hf|]. split; [done|].
      destruct (output_name_cases (OutputFormat o) (OptOutputFile o +:+ ".json"))
        as [(_ & Hs' & _)|[(Hf' & _)|(-> & _)]]; [|by rewrite Hf in Hf'|done].
      by rewrite HasSuffix_app in Hs'.
    + split; [apply HasPrefix_app|]. split; [by rewrite Hf|].
      split; [intros _; apply HasSuffix_app|]. split; [done|].
      destruct (output_name_cases (OutputFormat o) (OptOutputFile o +:+ ".xml"))
        as [(Hf' & _)|[(_ & Hs' & _)|(-> & _)]]; [by rewrite Hf in Hf'| |done].
      by rewrite HasSuffix_app in Hs'.
    + split; [apply HasPrefix_refl|]. split; [done|]. split; [done|].
      split; [done|].
      destruct (output_name_cases (OutputFormat o) (OptOutputFile o))
        as [(Hf' & Hs' & _)|[(Hf' & Hs' & _)|(-> & _)]]; [| |done].
      * by rewrite (Hj Hf') in Hs'.
      * by rewrite (Hx Hf') in Hs'.
Qed.

End CliFacts.

Section PlainFacts.

Import Strings Cli Plain.

Lemma app_string_nil_l (s : string) : "" +:+ s = s.
Proof. reflexivity. Qed.

Lemma app_string_nil_r (s : string) : s +:+ "" = s.
Proof.
  induction s as [|c s IH]; [done|].
  change (String c (s +:+ "") = String c s). by f_equal.
Qed.

Lemma app_string_cons c (s r : string) :
  String c s +:+ r = String c (s +:+ r).
Proof. reflexivity. Qed.

Lemma unlines_app ls1 ls2 : unlines (ls1 ++ ls2) = unlines ls1 +:+ unlines ls2.
Proof.
  induction ls1 as [|l ls1 IH]; simpl; [done|].
  by rewrite IH, app_string_assoc, app_string_cons.
Qed.

Lemma write_links_unlines builder links :
  write_links builder links
  = builder +:+ unlines (String tab <$> links).
Proof.
  revert builder. induction links as [|l links IH]; intros builder; simpl.
  - by rewrite app_string_nil_r.
  - rewrite IH, !app_string_assoc, !app_string_cons. done.
Qed.

Lemma write_results_unlines builder rs :
  write_results builder rs
  = builder +:+ unlines (flat_map record_lines rs).
Proof.
  revert builder. induction rs as [|e rs IH]; intros builder; simpl.
  - by rewrite app_string_nil_r.
  - rewrite IH, write_links_unlines, unlines_app.
    by rewrite !app_string_assoc, !app_string_cons.
Qed.

(** X30. The plain output is, record by record, the URL on a line and
    then each link on a line that starts with a tab; the output for two
    lists of records one after the other is the two outputs one after the
    other; and it depends on the URLs and links of the records only. *)
Theorem getResultString_stdout_lines (rs rs' : list crawlerResult) :
  getResultString_stdout rs = unlines (flat_map record_lines rs)
  ∧ getResultString_stdout (rs ++ rs')
    = getResultString_stdout rs +:+ getResultString_stdout rs'
  ∧ (URL <$> rs = URL <$> rs' → ResLinks <$> rs = ResLinks <$> rs' →
     getResultString_stdout rs = getResultString_stdout rs').
Proof.
  unfold getResultString_stdout. rewrite !write_results_unlines.
  split; [done|]. split.
  - by rewrite flat_map_app, unlines_app.
  - intros Hu Hl. f_equal. f_equal.
    revert rs' Hu Hl. induction rs as [|e rs IH]; intros [|e' rs'] Hu Hl;
      try done.
    simpl in *. injection Hu as Hu1 Hu2. injection Hl as Hl1 Hl2.
    rewrite (IH rs' Hu2 Hl2). unfold record_lines. by rewrite Hu1, Hl1.
Qed.

End PlainFacts.

(** * The properties on the test sites *)

(** The page of the site, as [ParseLinks] returns it. *)
Lemma monzo_fetch : Monzo.fetch Monzo.base = (Monzo.about_output, None).
Proof. vm_compute. reflexivity. Qed.

(** The three-page site crawled to the end by the one worker. *)
Lemma site_crawled :
  ∃ st, reachable Site.fetch Site.sanitise Site.one_worker Site.a st
        ∧ idle st
        ∧ result (crawler st) = Site.three_records.
Proof.
  eexists. split; [|split].
  - eexists. split; [vm_compute; reflexivity|].
    eapply rtc_trans.
    { eapply crawl_one; [reflexivity|simpl; lia|]. vm_compute. reflexivity. }
    eapply rtc_trans.
    { eapply crawl_one; [reflexivity|simpl; lia|]. vm_compute. reflexivity. }
    eapply rtc_trans.
    { eapply crawl_one; [reflexivity|simpl; lia|]. vm_compute. reflexivity. }
    eapply crawl_one; [reflexivity|simpl; lia|]. vm_compute. reflexivity.
  - by split.
  - reflexivity.
Qed.

Lemma site_closed :
  closed_site Site.fetch {[Site.a; Site.x; Site.y]}.
Proof.
  intros u output l Hu Hf Hl.
  assert (u = Site.a ∨ u = Site.x ∨ u = Site.y) as [->|[->| ->]]
    by set_solver.
  - injection Hf as <-. simpl in Hl. set_solver.
  - injection Hf as <-. simpl in Hl. set_solver.
  - injection Hf as <-. simpl in Hl. set_solver.
Qed.

(** The seed of the parser's test site, handled by the one worker. *)
Lemma monzo_crawled :
  ∃ st, reachable Monzo.fetch Monzo.sanitise Site.one_worker "https://monzo.com/" st
        ∧ result (crawler st) = [new_result Monzo.base Monzo.about_output].
Proof.
  eexists. split.
  - eexists. split; [vm_compute; reflexivity|].
    eapply crawl_one; [reflexivity|simpl; lia|]. vm_compute. reflexivity.
  - reflexivity.
Qed.

Lemma records_are_fetched_pages_witness :
  ∃ st r,
    reachable Site.fetch Site.sanitise Site.one_worker Site.a st
    ∧ r ∈ result (crawler st)
    ∧ URL r = Site.y
    ∧ has (visited (crawler st)) (URL r) = true
    ∧ (Site.fetch (URL r)).2 = None
    ∧ r = new_result (URL r) (Site.fetch (URL r)).1
    ∧ Error r = "" ∧ Count r = length (ResLinks r).
Proof.
  destruct site_crawled as (st & Hreach & _ & Hres).
  assert (new_result Site.y (Site.page [Site.x]).1 ∈ result (crawler st))
    as Hin.
  { rewrite Hres. apply list_elem_of_further, list_elem_of_further,
      list_elem_of_here. }
  exists st, (new_result Site.y (Site.page [Site.x]).1).
  split; [exact Hreach|]. split; [exact Hin|]. split; [reflexivity|].
  exact (records_are_fetched_pages Site.fetch Site.sanitise Site.one_worker
           Site.a st _ Hreach Hin).
Defined.




Lemma one_worker_one_record_each_witness :
  (CrMaxWorkers Site.one_worker ≤ 1)%Z
  ∧ ∃ st,
      reachable Site.fetch Site.sanitise Site.one_worker Site.a st
      ∧ result (crawler st) = Site.three_records
      ∧ NoDup (URL <$> result (crawler st)) ∧ length (running st) ≤ 1.
Proof.
  assert (CrMaxWorkers Site.one_worker ≤ 1)%Z as Hone by (simpl; lia).
  split; [exact Hone|].
  destruct site_crawled as (st & Hreach & _ & Hres).
  exists st. split; [exact Hreach|]. split; [exact Hres|].
  exact (one_worker_one_record_each Site.fetch Site.sanitise Site.one_worker
           Site.a st Hone Hreach).
Defined.

Lemma finite_site_crawl_ends_witness :
  ∃ st, reachable Site.fetch Site.sanitise Site.one_worker Site.a st
        ∧ idle st
        ∧ quiescent (crawler st) = true
        ∧ elems (visited (crawler st)) ⊆ {[Site.a; Site.x; Site.y]}.
Proof.
  apply (finite_site_crawl_ends Site.fetch Site.sanitise Site.one_worker
           Site.a Site.a {[Site.a; Site.x; Site.y]}).
  - reflexivity.
  - apply elem_of_union_l, elem_of_union_l, elem_of_singleton. reflexivity.
  - exact site_closed.
  - simpl. lia.
Defined.

Lemma run_external_signal_witness :
  run Site.one_worker None
      [Tick 1 3; Deliver SIGTERM; Tick 2 3; QuitRecv; Tick 3 3]
  = OsExit 15
  ∧ ∀ v k,
      quiescent_sizes v k = true →
      run Site.one_worker None
          [Tick 1 3; Deliver SIGTERM; Tick 2 3; Tick v k; Tick 3 3]
      = SendBlocked.
Proof.
  apply (run_external_signal Site.one_worker SIGTERM
           [Tick 1 3] [Tick 2 3] [Tick 3 3]).
  - apply Forall_cons. split; [|apply Forall_nil_2].
    split; [simpl; discriminate|]. split; [simpl; tauto|exact I].
  - apply Forall_cons. split; [|apply Forall_nil_2].
    split; [simpl; discriminate|]. split; [exact I|discriminate].
Defined.

Lemma WithHandler_workers_witness :
  let o := {| MaxWorkers := 2; Interactive := true |} in
  let s := {| WorkerState := 2; workers := []; workerPool := 2; quit := false;
              sched_handler := None; inputQueue := @nil string;
              sched_opts := o |} in
  let ws := workers (WithHandler s crawler_handler) in
  id <$> ws = seqZ 0 2
  ∧ length ws = 2
  ∧ NoDup (id <$> ws)
  ∧ (∀ w, w ∈ ws → w_handler w = crawler_handler ∧ reportState w = true)
  ∧ (∃ gs, Start (WithHandler s crawler_handler) = Ok gs
           ∧ length gs = S (length ws))
  ∧ workers (WithHandler (WithHandler s crawler_handler) crawler_handler)
    = ws ++ ((λ i, newWorker i crawler_handler true) <$> seqZ 0 2).
Proof.
  exact (WithHandler_workers {| MaxWorkers := 2; Interactive := true |}
           _ crawler_handler crawler_handler eq_refl).
Defined.

Lemma worker_reports_name_a_spinner_witness :
  CrInteractive two_interactive = true
  ∧ valid_msg two_interactive (WorkerStateMsg 1 Site.x)
  ∧ ∀ pending events,
      run two_interactive pending (WorkerStateMsg 1 Site.x :: events)
      = run two_interactive pending events.
Proof.
  apply (worker_reports_name_a_spinner two_interactive
           {| scheduler :=
                WithHandler
                  {| WorkerState := 2; workers := []; workerPool := 2;
                     quit := false; sched_handler := None; inputQueue := [];
                     sched_opts := {| MaxWorkers := 2; Interactive := true |} |}
                  crawler_handler;
              cache := zero_hashSet; visited := zero_hashSet;
              opts := two_interactive; result := []; quit_chan := None |}
           (newWorker 1 crawler_handler true)
           [TaskIn Site.a; TaskIn Site.x; QuitIn] 1 Site.x).
  - reflexivity.
  - apply list_elem_of_further, list_elem_of_here.
  - do 4 apply list_elem_of_further. apply list_elem_of_here.
Defined.

Lemma pool_holds_each_waiting_worker_once_witness :
  let st := Pool.started
              (Dispatch (WithHandler two_scheduler crawler_handler) [Site.a]) in
  NoDup (Pool.pool st)
  ∧ (∀ w, w ∈ Pool.pool st →
       ∃ ws, Pool.wstates st !! w = Some ws ∧ Pool.waiting ws)
  ∧ (∀ w, Pool.wstates st !! w = Some Pool.WorkerTop →
       ∃ st', Pool.step (λ _, [Site.x]) st st'
              ∧ Pool.pool st' = Pool.pool st ++ [w]).
Proof.
  exact (pool_holds_each_waiting_worker_once (λ _, [Site.x]) two_workers
           two_scheduler crawler_handler [Site.a] _ eq_refl (rtc_refl _ _)).
Defined.

Lemma dispatch_loop_safe_until_Stop_witness :
  let st := Pool.started
              (Dispatch (WithHandler two_scheduler crawler_handler) [Site.a]) in
  (∀ t, Pool.loop st ≠ Pool.LoopPanicked t)
  ∧ Pool.loop st ≠ Pool.LoopReturned
  ∧ ∀ w, Pool.wstates st !! w ≠ Some Pool.WorkerExited.
Proof.
  exact (dispatch_loop_safe_until_Stop (λ _, [Site.x]) two_workers
           two_scheduler crawler_handler [Site.a] _ eq_refl (rtc_refl _ _)
           eq_refl).
Defined.

Lemma Stop_makes_dispatch_loop_panic_witness :
  ∃ st,
    rtc (Pool.step (λ _, [Site.x]))
        (Pool.started
           (Dispatch (WithHandler two_scheduler crawler_handler) [Site.a])) st
    ∧ Pool.loop st = Pool.LoopPanicked Site.a
    ∧ Pool.quitting st = seq 1 (Z.to_nat (MaxWorkers two_workers) - 1).
Proof.
  apply (Stop_makes_dispatch_loop_panic (λ _, [Site.x]) two_workers
           two_scheduler crawler_handler Site.a).
  - reflexivity.
  - simpl. lia.
Defined.

Lemma filterLinks_empty_pattern_witness :
  Parser.filterLinks Monzo.parse Monzo.to_string
    {| Parser.Timeout := 5000000000; Parser.SameSubdomain := true;
       Parser.Distinct := true; Parser.IgnoreFragments := true;
       Parser.IgnoredExtensions := [".jpg"]; Parser.IgnoredPaths := [""] |}
    ["https://monzo.com/about"; "/about/"] Monzo.base
  = [].
Proof.
  apply filterLinks_empty_pattern. left. apply list_elem_of_here.
Defined.

Lemma SanitiseUrl_trailing_slash_witness :
  (Monzo.sanitise "https://monzo.com/about").1
  = (Monzo.sanitise "https://monzo.com/about/").1
  ∧ ((Monzo.sanitise "https://monzo.com/about").2 = None
     ↔ (Monzo.sanitise "https://monzo.com/about/").2 = None)
  ∧ ((Monzo.sanitise "https://monzo.com/about").2 = None →
     Monzo.sanitise "https://monzo.com/about"
     = ("https" +:+ "://" +:+ "monzo.com" +:+ "/about", None)).
Proof.
  apply (SanitiseUrl_trailing_slash Monzo.parse Monzo.to_string
           "https://monzo.com/about" "https://monzo.com/about/"
           "https" "monzo.com" "/about").
  - reflexivity.
  - reflexivity.
  - discriminate.
  - discriminate.
  - reflexivity.
Defined.


Lemma crawl_discovers_http_only_witness :
  ∃ st,
    result (crawler st) = [new_result Monzo.base Monzo.about_output]
    ∧ (∀ u, has (cache (crawler st)) u = true → Parser.is_http u)
    ∧ (∀ t, t ∈ inputQueue (scheduler (crawler st)) → Parser.is_http t)
    ∧ (∀ r, r ∈ result (crawler st) →
            (∀ l, l ∈ ResLinks r → Parser.is_http l)
            ∧ (Parser.Distinct Monzo.defaults = true →
               NoDup (ResLinks r) ∧ Count r = length (ResLinks r))).
Proof.
  destruct monzo_crawled as (st & Hreach & Hres).
  exists st. split; [exact Hres|].
  exact (crawl_discovers_http_only Monzo.parse Monzo.to_string Monzo.resolve
           Monzo.handle Monzo.defaults Site.one_worker "https://monzo.com/"
           st Hreach).
Defined.

Lemma Crawl_seed_outcomes_witness :
  let start := crawl_start Monzo.sanitise Site.one_worker "https://monzo.com/" in
  (start = Exit 1 ∨ ∃ st0, start = Ok st0)
  ∧ (start = Exit 1
     ↔ ¬ ∃ u, Monzo.parse "https://monzo.com/" = (u, None)
              ∧ Monzo.to_string u ≠ ""
              ∧ (Parser.Scheme u = "http" ∨ Parser.Scheme u = "https")
              ∧ Parser.Host u ≠ "")
  ∧ (∀ st0, start = Ok st0 →
       ∃ u, Monzo.parse "https://monzo.com/" = (u, None)
            ∧ let seed :=
                Parser.Scheme u +:+ "://" +:+ Parser.Host u
                  +:+ Strings.TrimSuffix (Parser.Path u) "/" in
              elems (cache (crawler st0)) = {[seed]}
              ∧ inputQueue (scheduler (crawler st0)) = [seed]
              ∧ elems (visited (crawler st0)) = ∅
              ∧ result (crawler st0) = []
              ∧ quiescent (crawler st0) = false).
Proof.
  apply (Crawl_seed_outcomes Monzo.parse Monzo.to_string Site.one_worker
           "https://monzo.com/").
  simpl. lia.
Defined.


Lemma quiescence_before_links_discovered_witness :
  ∃ st,
    reachable Site.fetch Site.sanitise Site.one_worker Site.a st
    ∧ running st = [HAppend Site.a (Site.page [Site.x; Site.y]).1]
    ∧ elems (cache (crawler st)) = {[Site.a]}
    ∧ result (crawler st) = []
    ∧ quiescent (crawler st) = true
    ∧ run Site.one_worker None
          [Tick (size (visited (crawler st))) (size (cache (crawler st)));
           QuitRecv]
      = Returned (run_deferred Site.one_worker).
Proof.
  apply (quiescence_before_links_discovered Site.fetch Site.sanitise
           Site.one_worker Site.a Site.a (Site.page [Site.x; Site.y]).1).
  - reflexivity.
  - reflexivity.
  - simpl. lia.
Defined.

Lemma Stop_returns_after_workers_exit_witness :
  let st0 := Pool.started
               (Dispatch (WithHandler two_scheduler crawler_handler) [Site.a]) in
  let st := {| Pool.sched := Stop (Pool.sched st0); Pool.loop := Pool.loop st0;
               Pool.pool := Pool.pool st0; Pool.wstates := Pool.wstates st0;
               Pool.quitting :=
                 Pool.quitting st0
                 ++ seq 0 (length (workers (Pool.sched st0))) |} in
  (∀ w, w < length (Pool.wstates st) →
        w ∈ Pool.quitting st ∨ Pool.wstates st !! w = Some Pool.WorkerExited)
  ∧ (Pool.quitting st = [] →
     ∀ w ws, Pool.wstates st !! w = Some ws → ws = Pool.WorkerExited)
  ∧ (Pool.loop st = Pool.LoopTop →
     Pool.step (λ _, [Site.x]) st (Pool.set_loop st Pool.LoopReturned)
     ∧ ∀ st', Pool.step (λ _, [Site.x]) st st' →
              Pool.loop st' = Pool.LoopTop
              ∨ Pool.loop st' = Pool.LoopReturned).
Proof.
  apply (Stop_returns_after_workers_exit (λ _, [Site.x]) two_workers
           two_scheduler crawler_handler [Site.a]).
  - reflexivity.
  - apply rtc_once, Pool.stop_called.
  - reflexivity.
Defined.
